(** * QuantumWaveFunctionSimulator: the numerical core against its specification

    A shallow embedding of the Python back end
    ([backend/utils/grid.py], [backend/utils/numerics.py],
    [backend/potentials/basic.py], [backend/solvers/schrodinger_1d.py],
    [backend/solvers/schrodinger_2d.py]) and the properties the
    specification states about it.

    Numbers.  NumPy code is generic in the element type of its arrays; the
    embedding is generic in the same way, through the operational class
    [Scalar].  Five carriers are used:
    - [Q]: exact rationals, so that index and quadrature computations run;
    - [R]: exact reals, where a square root or an eigenvalue is needed;
    - [C]: complex numbers over [R], for the propagated wavefunction;
    - [xreal]: reals extended with the IEEE-754 special values
      [+inf], [-inf] and [nan], where the code meets [np.inf] or divides
      by zero;
    - [xC]: complex numbers over [xreal].
    Rounding and overflow of binary64 are not modelled: every finite
    operation is exact.

    Library calls.  [scipy.linalg.eigh], [scipy.sparse.linalg.eigsh],
    [scipy.sparse.linalg.splu], [numexpr.evaluate] and the [.npy]/deflate
    codecs are outside the repository.  They enter as function arguments
    (oracles); what their documentation promises enters as an explicit
    hypothesis of the theorem that needs it. *)

From Stdlib Require Import List String ZArith QArith Reals Lra Lia Sorted.
From stdpp Require Import base option strings gmap.
Import ListNotations.

Set Implicit Arguments.

(** ** Python exceptions and fallible computations *)

Inductive pyerror : Type :=
| NotImplementedError   (* raised by the solvers: UnsupportedMethod *)
| ValueError            (* InvalidGrid, non-finite input, bad shape *)
| IndexError
| TypeError
| ZeroDivisionError
| FileNotFoundError
| KeyError
| RuntimeError          (* splu: the matrix is exactly singular *)
| ArpackNoConvergence.

Inductive result (A : Type) : Type :=
| Ok (a : A)
| Err (e : pyerror).
Arguments Ok {A} a.
Arguments Err {A} e.

#[global] Instance result_ret : MRet result := fun _ a => Ok a.
#[global] Instance result_bind : MBind result :=
  fun _ _ f m => match m with Ok a => f a | Err e => Err e end.

Definition is_ok {A} (r : result A) : bool :=
  match r with Ok _ => true | Err _ => false end.

(** [l[i]] for a non-negative literal index: [IndexError] out of range. *)
Definition getitem {A} (l : list A) (i : nat) : result A :=
  match l !! i with Some a => Ok a | None => Err IndexError end.

(** [A[i, j]] on a two-dimensional array stored as the list of its rows. *)
Definition getitem2 {A} (a : list (list A)) (i j : nat) : result A :=
  row ← getitem a i; getitem row j.

(** ** Scalars *)

Class Scalar (T : Type) : Type := {
  s0 : T;
  s1 : T;
  sadd : T -> T -> T;
  ssub : T -> T -> T;
  smul : T -> T -> T;
  sdiv : T -> T -> T;
  sopp : T -> T;
  (** [x == 0.0], the test behind Python's [ZeroDivisionError] *)
  szerob : T -> bool;
  (** [np.isfinite] *)
  sfinite : T -> bool
}.

Declare Scope scalar_scope.
Delimit Scope scalar_scope with S.
Notation "a + b" := (sadd a b) : scalar_scope.
Notation "a - b" := (ssub a b) : scalar_scope.
Notation "a * b" := (smul a b) : scalar_scope.
Notation "a / b" := (sdiv a b) : scalar_scope.
Notation "- a" := (sopp a) : scalar_scope.

Definition s2 {T} `{Scalar T} : T := (s1 + s1)%S.

(** Python's [a / b] on two [float]s. *)
Definition pydiv {T} `{Scalar T} (a b : T) : result T :=
  if szerob b then Err ZeroDivisionError else Ok (a / b)%S.

(** [float(n)] for a count [n]. *)
Fixpoint of_nat {T} `{Scalar T} (n : nat) : T :=
  match n with O => s0 | S k => (of_nat k + s1)%S end.

#[global] Instance Q_scalar : Scalar Q := {|
  s0 := 0%Q; s1 := 1%Q;
  sadd := Qplus; ssub := Qminus; smul := Qmult; sdiv := Qdiv; sopp := Qopp;
  szerob := fun q => Qeq_bool q 0;
  sfinite := fun _ => true |}.

Definition Rzerob (r : R) : bool := if Req_dec_T r 0 then true else false.

#[global] Instance R_scalar : Scalar R := {|
  s0 := 0%R; s1 := 1%R;
  sadd := Rplus; ssub := Rminus; smul := Rmult; sdiv := Rdiv; sopp := Ropp;
  szerob := Rzerob;
  sfinite := fun _ => true |}.

(** *** binary64 special values over exact reals *)

Inductive xreal : Type :=
| Fin (r : R)
| PInf
| NInf
| NaN.

Definition Rltb (a b : R) : bool := if Rlt_dec a b then true else false.

Definition xopp (a : xreal) : xreal :=
  match a with Fin r => Fin (- r)%R | PInf => NInf | NInf => PInf | NaN => NaN end.

Definition xadd (a b : xreal) : xreal :=
  match a, b with
  | NaN, _ | _, NaN => NaN
  | Fin x, Fin y => Fin (x + y)%R
  | PInf, NInf | NInf, PInf => NaN
  | PInf, _ | _, PInf => PInf
  | NInf, _ | _, NInf => NInf
  end.

Definition xsub (a b : xreal) : xreal := xadd a (xopp b).

(** the infinity with the sign of [r], [nan] for [r = 0] *)
Definition xinf_signed (positive : bool) (r : R) : xreal :=
  if Rzerob r then NaN
  else if Bool.eqb positive (Rltb 0 r) then PInf else NInf.

Definition xmul (a b : xreal) : xreal :=
  match a, b with
  | NaN, _ | _, NaN => NaN
  | Fin x, Fin y => Fin (x * y)%R
  | PInf, Fin y | Fin y, PInf => xinf_signed true y
  | NInf, Fin y | Fin y, NInf => xinf_signed false y
  | PInf, PInf | NInf, NInf => PInf
  | PInf, NInf | NInf, PInf => NInf
  end.

(** Division, the zero divisor taken as [+0.0]. *)
Definition xdiv (a b : xreal) : xreal :=
  match a, b with
  | NaN, _ | _, NaN => NaN
  | Fin x, Fin y => if Rzerob y then xinf_signed true x else Fin (x / y)%R
  | Fin _, (PInf | NInf) => Fin 0
  | PInf, Fin y => if Rltb y 0 then NInf else PInf
  | NInf, Fin y => if Rltb y 0 then PInf else NInf
  | (PInf | NInf), (PInf | NInf) => NaN
  end.

Definition xfinite (a : xreal) : bool :=
  match a with Fin _ => true | _ => false end.

Definition xzerob (a : xreal) : bool :=
  match a with Fin r => Rzerob r | _ => false end.

(** [a < b] on binary64: false as soon as one side is [nan]. *)
Definition xltb (a b : xreal) : bool :=
  match a, b with
  | NaN, _ | _, NaN => false
  | Fin x, Fin y => Rltb x y
  | NInf, (Fin _ | PInf) => true
  | Fin _, PInf => true
  | _, _ => false
  end.

(** [a <= b] on binary64: false as soon as one side is [nan]. *)
Definition xleb (a b : xreal) : bool :=
  match a, b with
  | NaN, _ | _, NaN => false
  | Fin x, Fin y => negb (Rltb y x)
  | NInf, _ => true
  | _, PInf => true
  | _, _ => false
  end.

(** [np.abs] *)
Definition xabs (a : xreal) : xreal :=
  match a with
  | Fin r => Fin (Rabs r)
  | PInf | NInf => PInf
  | NaN => NaN
  end.

Definition xsqrt (a : xreal) : xreal :=
  match a with
  | Fin r => if Rltb r 0 then NaN else Fin (sqrt r)
  | PInf => PInf
  | NInf | NaN => NaN
  end.

#[global] Instance xreal_scalar : Scalar xreal := {|
  s0 := Fin 0; s1 := Fin 1;
  sadd := xadd; ssub := xsub; smul := xmul; sdiv := xdiv; sopp := xopp;
  szerob := xzerob;
  sfinite := xfinite |}.

(** *** complex128 over exact reals *)

Record C : Type := mkC { Re : R; Im : R }.

Definition RtoC (r : R) : C := mkC r 0.
Definition Ci : C := mkC 0 1.
Definition Cadd (a b : C) : C := mkC (Re a + Re b) (Im a + Im b).
Definition Csub (a b : C) : C := mkC (Re a - Re b) (Im a - Im b).
Definition Copp (a : C) : C := mkC (- Re a) (- Im a).
Definition Cmul (a b : C) : C :=
  mkC (Re a * Re b - Im a * Im b) (Re a * Im b + Im a * Re b).
Definition Cnorm2 (a : C) : R := (Re a * Re a + Im a * Im a)%R.
Definition Cconj (a : C) : C := mkC (Re a) (- Im a).
Definition Cdiv (a b : C) : C :=
  mkC ((Re a * Re b + Im a * Im b) / Cnorm2 b)
      ((Im a * Re b - Re a * Im b) / Cnorm2 b).
Definition Czerob (a : C) : bool := Rzerob (Re a) && Rzerob (Im a).

#[global] Instance C_scalar : Scalar C := {|
  s0 := RtoC 0; s1 := RtoC 1;
  sadd := Cadd; ssub := Csub; smul := Cmul; sdiv := Cdiv; sopp := Copp;
  szerob := Czerob;
  sfinite := fun _ => true |}.

(** *** complex128 with the special values of binary64

    Both components are [xreal]s; the operations are NumPy's: sum and
    product by components, division by Smith's method. *)

Record xC : Type := mkxC { xRe : xreal; xIm : xreal }.

Definition xRtoC (r : xreal) : xC := mkxC r (Fin 0).
Definition xCi : xC := mkxC (Fin 0) (Fin 1).
Definition xCadd (a b : xC) : xC :=
  mkxC (xadd (xRe a) (xRe b)) (xadd (xIm a) (xIm b)).
Definition xCsub (a b : xC) : xC :=
  mkxC (xsub (xRe a) (xRe b)) (xsub (xIm a) (xIm b)).
Definition xCopp (a : xC) : xC := mkxC (xopp (xRe a)) (xopp (xIm a)).
Definition xCmul (a b : xC) : xC :=
  mkxC (xsub (xmul (xRe a) (xRe b)) (xmul (xIm a) (xIm b)))
       (xadd (xmul (xRe a) (xIm b)) (xmul (xIm a) (xRe b))).

(** [a / b]: a zero divisor divides both components by [abs(b.real)] *)
Definition xCdiv (a b : xC) : xC :=
  let ar := xRe a in let ai := xIm a in
  let br := xRe b in let bi := xIm b in
  if xleb (xabs bi) (xabs br) then
    if xzerob (xabs br) && xzerob (xabs bi)
    then mkxC (xdiv ar (xabs br)) (xdiv ai (xabs br))
    else
      let rat := xdiv bi br in
      let scl := xdiv (Fin 1) (xadd br (xmul bi rat)) in
      mkxC (xmul (xadd ar (xmul ai rat)) scl)
           (xmul (xsub ai (xmul ar rat)) scl)
  else
    let rat := xdiv br bi in
    let scl := xdiv (Fin 1) (xadd bi (xmul br rat)) in
    mkxC (xmul (xadd (xmul ar rat) ai) scl)
         (xmul (xsub (xmul ai rat) ar) scl).

Definition xCzerob (a : xC) : bool := xzerob (xRe a) && xzerob (xIm a).
Definition xCfinite (a : xC) : bool := xfinite (xRe a) && xfinite (xIm a).

(** [np.abs(a)**2], with [np.abs] the [hypot] of the components:
    infinite as soon as one component is, [nan] when one is [nan] and
    none infinite *)
Definition xCnorm2 (a : xC) : xreal :=
  match xRe a, xIm a with
  | Fin re, Fin im => Fin (re * re + im * im)
  | (PInf | NInf), _ | _, (PInf | NInf) => PInf
  | _, _ => NaN
  end.

#[global] Instance xC_scalar : Scalar xC := {|
  s0 := xRtoC (Fin 0); s1 := xRtoC (Fin 1);
  sadd := xCadd; ssub := xCsub; smul := xCmul; sdiv := xCdiv; sopp := xCopp;
  szerob := xCzerob;
  sfinite := xCfinite |}.

(** *** [np.abs(psi)**2], [psi / norm] and [np.sqrt]

    [A] is the element type of a wavefunction array, [T] the real type of
    its norm. *)

Class Amplitude (A T : Type) : Type := {
  abs2 : A -> T;
  divr : A -> T -> A
}.

#[global] Instance Q_amplitude : Amplitude Q Q :=
  {| abs2 := fun a => (a * a)%Q; divr := Qdiv |}.
#[global] Instance R_amplitude : Amplitude R R :=
  {| abs2 := fun a => (a * a)%R; divr := Rdiv |}.
#[global] Instance xreal_amplitude : Amplitude xreal xreal :=
  {| abs2 := fun a => xmul a a; divr := xdiv |}.
#[global] Instance C_amplitude : Amplitude C R :=
  {| abs2 := Cnorm2; divr := fun a r => mkC (Re a / r) (Im a / r) |}.

(** a complex array divided by a real scalar is NumPy's complex
    division by [r + 0j] *)
#[global] Instance xC_amplitude : Amplitude xC xreal :=
  {| abs2 := xCnorm2; divr := fun a r => xCdiv a (xRtoC r) |}.

(** [A] is the complex type over the reals [T]: [complex(r)] and [1j] *)
Class Complexified (A T : Type) : Type := {
  of_real : T -> A;
  imag_unit : A
}.

#[global] Instance C_complexified : Complexified C R :=
  {| of_real := RtoC; imag_unit := Ci |}.
#[global] Instance xC_complexified : Complexified xC xreal :=
  {| of_real := xRtoC; imag_unit := xCi |}.

Class Sqrt (T : Type) : Type := ssqrt : T -> T.
#[global] Instance R_sqrt : Sqrt R := sqrt.
#[global] Instance xreal_sqrt : Sqrt xreal := xsqrt.

(** ** Arrays

    A one-dimensional array is a [list]; a two-dimensional array of shape
    [(Nx, Ny)] is the list of its [Nx] rows, row [i] being [a[i, :]]. *)

Section Arrays.
Context {T : Type} `{Scalar T}.

(** [np.sum] *)
Definition np_sum (a : list T) : T := fold_right sadd s0 a.
Definition np_sum2 (a : list (list T)) : T := np_sum (map np_sum a).

(** [np.full(n, v)], [np.ones(n)], [np.zeros_like] *)
Definition np_full (n : nat) (v : T) : list T := repeat v n.
Definition np_ones (n : nat) : list T := repeat s1 n.

(** [a.shape] of a two-dimensional array *)
Definition shape2 {A} (a : list (list A)) : nat * nat :=
  (length a, length (hd [] a)).

(** [a.ravel()]: row-major (C order), [a[i, j]] goes to [i * Ny + j]. *)
Definition ravel {A} (a : list (list A)) : list A := concat a.

(** [v.reshape((Nx, Ny))]: row-major as well. *)
Fixpoint reshape {A} (Nx Ny : nat) (v : list A) : list (list A) :=
  match Nx with
  | O => []
  | S n => take Ny v :: reshape n Ny (drop Ny v)
  end.

(** [a[:, j]] and [a[i, :]] *)
Definition column {A} (d : A) (a : list (list A)) (j : nat) : list A :=
  map (fun row => nth j row d) a.
Definition row {A} (a : list (list A)) (i : nat) : list A := nth i a [].

(** [np.trapz(y, x)]: [(diff(x) * (y[1:] + y[:-1]) / 2.0).sum()] *)
Fixpoint trapz (y x : list T) : T :=
  match y, x with
  | y0 :: ((y1 :: _) as y'), x0 :: ((x1 :: _) as x') =>
      ((x1 - x0) * (y1 + y0) / s2 + trapz y' x')%S
  | _, _ => s0
  end.

(** [np.trapz(z, x)] on a two-dimensional [z]: along the last axis. *)
Definition trapz_rows (z : list (list T)) (x : list T) : list T :=
  map (fun zi => trapz zi x) z.

(** [np.linspace(start, stop, num)] for [num >= 2]:
    [arange(num) * step + start], the last sample then set to [stop]. *)
Definition linspace (start stop : T) (num : nat) : list T :=
  let step := ((stop - start) / of_nat (num - 1))%S in
  map (fun i => (of_nat i * step + start)%S) (seq 0 (num - 1)) ++ [stop].

(** [np.meshgrid(x, y, indexing='ij')]: [X[i, j] = x[i]], [Y[i, j] = y[j]]. *)
Definition meshgrid_ij (x y : list T) : list (list T) * list (list T) :=
  (map (fun xi => map (fun _ => xi) y) x, map (fun _ => y) x).
End Arrays.

(** ** Sparse matrices

    A [scipy.sparse] matrix keeps a value only at its stored positions;
    arithmetic with a scalar touches the stored values only.  [sp_get A i j]
    is [Some v] at a stored position and [None] elsewhere. *)

Record spmatrix (T : Type) : Type := SpMatrix {
  sp_rows : nat;
  sp_cols : nat;
  sp_get : nat -> nat -> option T
}.
Arguments SpMatrix {T} _ _ _.

Section Sparse.
Context {T : Type} `{Scalar T}.

(** the diagonal of offset [k] that holds position [(i, j)], if any *)
Fixpoint diag_lookup (ds : list (list T * Z)) (i j : nat) : option T :=
  match ds with
  | [] => None
  | (d, k) :: rest =>
      if (Z.of_nat j - Z.of_nat i =? k)%Z then d !! (Nat.min i j)
      else diag_lookup rest i j
  end.

(** [scipy.sparse.diags(diagonals, offsets)]: the square matrix whose
    size is read off the first diagonal; offset [k >= 0] puts [d[i]] at
    [(i, i + k)], offset [k < 0] at [(i - k, i)]. *)
Definition diags (diagonals : list (list T)) (offsets : list Z) : spmatrix T :=
  let m := match diagonals, offsets with
           | d :: _, k :: _ => (length d + Z.abs_nat k)%nat
           | _, _ => O
           end in
  SpMatrix m m (fun i j =>
    if (i <? m)%nat && (j <? m)%nat
    then diag_lookup (combine diagonals offsets) i j else None).

(** [scipy.sparse.identity(n)] *)
Definition identity (n : nat) : spmatrix T := diags [np_ones n] [0%Z].

(** [scipy.sparse.kron(A, B)]: block [(i, j)] is [A[i, j] * B]. *)
Definition kron (A B : spmatrix T) : spmatrix T :=
  let r := (sp_rows A * sp_rows B)%nat in
  let c := (sp_cols A * sp_cols B)%nat in
  SpMatrix r c (fun i j =>
    if (i <? r)%nat && (j <? c)%nat then
      match sp_get A (i / sp_rows B) (j / sp_cols B),
            sp_get B (i mod sp_rows B) (j mod sp_cols B) with
      | Some a, Some b => Some (a * b)%S
      | _, _ => None
      end
    else None).

(** [c * A] and [A / c] for a scalar [c] *)
Definition sp_scale (c : T) (A : spmatrix T) : spmatrix T :=
  SpMatrix (sp_rows A) (sp_cols A)
    (fun i j => option_map (fun a => (c * a)%S) (sp_get A i j)).
Definition sp_div (A : spmatrix T) (c : T) : spmatrix T :=
  SpMatrix (sp_rows A) (sp_cols A)
    (fun i j => option_map (fun a => (a / c)%S) (sp_get A i j)).

Definition entry_add (a b : option T) : option T :=
  match a, b with
  | Some x, Some y => Some (x + y)%S
  | Some x, None | None, Some x => Some x
  | None, None => None
  end.
Definition entry_sub (a b : option T) : option T :=
  match a, b with
  | Some x, Some y => Some (x - y)%S
  | Some x, None => Some x
  | None, Some y => Some (- y)%S
  | None, None => None
  end.

(** [A + B] and [A - B]: [ValueError] on inconsistent shapes. *)
Definition sp_add (A B : spmatrix T) : result (spmatrix T) :=
  if (sp_rows A =? sp_rows B)%nat && (sp_cols A =? sp_cols B)%nat
  then Ok (SpMatrix (sp_rows A) (sp_cols A)
             (fun i j => entry_add (sp_get A i j) (sp_get B i j)))
  else Err ValueError.
Definition sp_sub (A B : spmatrix T) : result (spmatrix T) :=
  if (sp_rows A =? sp_rows B)%nat && (sp_cols A =? sp_cols B)%nat
  then Ok (SpMatrix (sp_rows A) (sp_cols A)
             (fun i j => entry_sub (sp_get A i j) (sp_get B i j)))
  else Err ValueError.

(** the value at [(i, j)], zero where nothing is stored *)
Definition sp_entry (A : spmatrix T) (i j : nat) : T :=
  default s0 (sp_get A i j).

(** [A.toarray()] *)
Definition toarray (A : spmatrix T) : list (list T) :=
  map (fun i => map (fun j => sp_entry A i j) (seq 0 (sp_cols A)))
      (seq 0 (sp_rows A)).

(** [A.dot(v)]: row [i] sums [A[i, j] * v[j]] over the stored [j]. *)
Definition sp_dot (A : spmatrix T) (v : list T) : list T :=
  map (fun i =>
         fold_right (fun j acc =>
                       match sp_get A i j with
                       | Some a => (a * nth j v s0 + acc)%S
                       | None => acc
                       end) s0 (seq 0 (sp_cols A)))
      (seq 0 (sp_rows A)).
End Sparse.

Definition sp_map {T U} (f : T -> U) (A : spmatrix T) : spmatrix U :=
  SpMatrix (sp_rows A) (sp_cols A) (fun i j => option_map f (sp_get A i j)).

(** ** Python slices and loops *)

(** [l[:k]] for a Python integer [k]: a negative [k] counts from the end. *)
Definition py_take {A} (k : Z) (l : list A) : list A :=
  if (0 <=? k)%Z then take (Z.to_nat k) l
  else take (length l - Z.to_nat (- k)) l.

(** [range(k)] and [range(1, k)] *)
Definition py_range (k : Z) : list nat := seq 0 (Z.to_nat k).
Definition py_range1 (k : nat) : list nat := seq 1 (k - 1).

(** [for i in is: s = body(s, i)], stopping at the first exception. *)
Fixpoint for_each {S I} (body : S -> I -> result S) (s : S) (l : list I)
  : result S :=
  match l with
  | [] => Ok s
  | i :: rest => s' ← body s i; for_each body s' rest
  end.

(** ** [backend/utils/grid.py] *)

Section Grid.
Context {T : Type} `{Scalar T}.

Definition create_1d_grid (xmin xmax : T) (num_points : Z)
  : result (list T * T) :=
  if (num_points <? 2)%Z then Err ValueError
  else
    let x := linspace xmin xmax (Z.to_nat num_points) in
    x1 ← getitem x 1; x0 ← getitem x 0;
    let dx := (x1 - x0)%S in
    Ok (x, dx).

Definition create_2d_grid (xmin xmax : T) (num_x : Z) (ymin ymax : T) (num_y : Z)
  : result (list (list T) * list (list T) * T * T) :=
  if (num_x <? 2)%Z || (num_y <? 2)%Z then Err ValueError
  else
    let x := linspace xmin xmax (Z.to_nat num_x) in
    let y := linspace ymin ymax (Z.to_nat num_y) in
    x1 ← getitem x 1; x0 ← getitem x 0;
    let dx := (x1 - x0)%S in
    y1 ← getitem y 1; y0 ← getitem y 0;
    let dy := (y1 - y0)%S in
    let '(X, Y) := meshgrid_ij x y in
    Ok (X, Y, dx, dy).
End Grid.

(** ** [backend/potentials/basic.py] *)

(** [infinite_well_1d]: zero on the grid points inside [[xmin, xmax]],
    [np.inf] on the others. *)
Definition infinite_well_1d (x : list xreal) (xmin xmax : xreal) : list xreal :=
  map (fun xi => if xltb xi xmin || xltb xmax xi then PInf else Fin 0) x.

(** ** Hamiltonian assembly

    [solve_time_independent_1d] (lines 21-29) and [solve_time_dependent_1d]
    (lines 64-70) assemble the Hamiltonian with the same statements, and so
    do the two functions of [schrodinger_2d.py] (lines 21-33 and 70-79);
    each assembly is written once here, from the spacings on. *)

Section Hamiltonian.
Context {T : Type} `{Scalar T}.

(** [diags([off, main, off], [-1, 0, 1]) / d**2] with [main = full(n, -2.0)]
    and [off = ones(n - 1)] *)
Definition laplacian_1d (n : nat) (d : T) : spmatrix T :=
  let main_diag := np_full n (- s2)%S in
  let off_diag := np_ones (n - 1) in
  sp_div (diags [off_diag; main_diag; off_diag] [(-1)%Z; 0%Z; 1%Z]) (d * d)%S.

(** [-(hbar**2) / (2 * mass)], on Python floats *)
Definition kinetic_factor (mass hbar : T) : result T :=
  pydiv (- (hbar * hbar))%S (s2 * mass)%S.

(** [dx = x[1] - x[0]] *)
Definition spacing_1d (x : list T) : result T :=
  x1 ← getitem x 1; x0 ← getitem x 0; Ok (x1 - x0)%S.

Definition hamiltonian_1d (N : nat) (dx : T) (V : list T) (mass hbar : T)
  : result (spmatrix T) :=
  let laplacian := laplacian_1d N dx in
  c ← kinetic_factor mass hbar;
  let T_op := sp_scale c laplacian in
  let V_op := diags [V] [0%Z] in
  sp_add T_op V_op.

(** [kron(identity(Ny), Lx) + kron(Ly, identity(Nx))] *)
Definition laplacian_2d (Nx Ny : nat) (dx dy : T) : result (spmatrix T) :=
  let Lx := laplacian_1d Nx dx in
  let Ly := laplacian_1d Ny dy in
  sp_add (kron (identity Ny) Lx) (kron Ly (identity Nx)).

(** [dx = X[1,0] - X[0,0]] and [dy = Y[0,1] - Y[0,0]] *)
Definition spacing_2d (X Y : list (list T)) : result (T * T) :=
  x10 ← getitem2 X 1 0; x00 ← getitem2 X 0 0;
  y01 ← getitem2 Y 0 1; y00 ← getitem2 Y 0 0;
  Ok ((x10 - x00)%S, (y01 - y00)%S).

Definition hamiltonian_2d (Nx Ny : nat) (dx dy : T) (V : list (list T))
  (mass hbar : T) : result (spmatrix T) :=
  Lap ← laplacian_2d Nx Ny dx dy;
  c ← kinetic_factor mass hbar;
  let T_op := sp_scale c Lap in
  let V_flat := ravel V in
  let V_op := diags [V_flat] [0%Z] in
  sp_add T_op V_op.
End Hamiltonian.

(** ** Stationary solvers *)

(** the [which] argument of [scipy.sparse.linalg.eigsh] *)
Inductive eigsh_which : Type := LM | SM | LA | SA | BE.

Section Stationary.
Context {T : Type} `{Scalar T} `{Amplitude T T} `{Sqrt T}.

(** an eigen-decomposition: the eigenvalues and the matrix whose columns
    are the eigenvectors *)
Definition eigen : Type := list T * list (list T).

(** LAPACK behind [scipy.linalg.eigh] *)
Variable lapack_syevd : list (list T) -> result eigen.
(** ARPACK behind [scipy.sparse.linalg.eigsh(A, k, which)] *)
Variable eigsh : spmatrix T -> Z -> eigsh_which -> result eigen.

(** [scipy.linalg.eigh(a)]: with the default [check_finite=True] an
    array that holds an infinity or a nan is refused before LAPACK runs. *)
Definition eigh (a : list (list T)) : result eigen :=
  if forallb (forallb sfinite) a then lapack_syevd a else Err ValueError.

(** the grid-quadrature norm [np.sqrt(np.trapz(np.abs(v)**2, x))] *)
Definition quad_norm_1d {A} `{Amplitude A T} (v : list A) (x : list T) : T :=
  ssqrt (trapz (map abs2 v) x).

(** [np.sqrt(np.trapz(np.trapz(np.abs(wf)**2, Y[0,:]), X[:,0]))] *)
Definition quad_norm_2d {A} `{Amplitude A T}
  (wf : list (list A)) (X Y : list (list T)) : T :=
  ssqrt (trapz (trapz_rows (map (map abs2) wf) (row Y 0)) (column s0 X 0)).

(** one pass of the loop of lines 38-40: [wavefuncs[:, n] /= norm];
    [IndexError] when the array has no column [n] *)
Definition normalize_column (x : list T) (wavefuncs : list (list T)) (n : nat)
  : result (list (list T)) :=
  if (n <? snd (shape2 wavefuncs))%nat then
    let norm := quad_norm_1d (column s0 wavefuncs n) x in
    Ok (map (fun r => <[n := divr (nth n r s0) norm]> r) wavefuncs)
  else Err IndexError.

Definition solve_time_independent_1d
  (x V : list T) (mass hbar : T) (num_eigen : Z) : result eigen :=
  let N := length x in
  dx ← spacing_1d x;
  Hm ← hamiltonian_1d N dx V mass hbar;
  let H_dense := toarray Hm in
  '(energies, wavefuncs) ← eigh H_dense;
  let energies := py_take num_eigen energies in
  let wavefuncs := map (py_take num_eigen) wavefuncs in
  wavefuncs ← for_each (normalize_column x) wavefuncs (py_range num_eigen);
  Ok (energies, wavefuncs).

(** one pass of the loop of lines 38-42 of [schrodinger_2d.py]:
    [wavefuncs[:, n].reshape((Nx, Ny))] divided by its norm and stored
    as [wavefuncs_reshaped[n]] *)
Definition reshape_column (X Y : list (list T)) (wavefuncs : list (list T))
  (acc : list (list (list T))) (n : nat) : result (list (list (list T))) :=
  let '(Nx, Ny) := shape2 X in
  if (n <? snd (shape2 wavefuncs))%nat then
    if (length wavefuncs =? Nx * Ny)%nat then
      let wf := reshape Nx Ny (column s0 wavefuncs n) in
      let norm := quad_norm_2d wf X Y in
      Ok (<[n := map (map (fun a => divr a norm)) wf]> acc)
    else Err ValueError
  else Err IndexError.

Definition solve_time_independent_2d
  (X Y V : list (list T)) (mass hbar : T) (num_eigen : Z)
  : result (list T * list (list (list T))) :=
  let '(Nx, Ny) := shape2 X in
  '(dx, dy) ← spacing_2d X Y;
  Hm ← hamiltonian_2d Nx Ny dx dy V mass hbar;
  '(energies, wavefuncs) ← eigsh Hm num_eigen SM;
  let wavefuncs_reshaped :=
    repeat (repeat (repeat s0 Ny) Nx) (Z.to_nat num_eigen) in
  wavefuncs_reshaped ←
    for_each (reshape_column X Y wavefuncs) wavefuncs_reshaped
             (py_range num_eigen);
  Ok (energies, wavefuncs_reshaped).
End Stationary.

(** ** Time-dependent solvers (Crank-Nicolson)

    The wavefunction is a [complex] array [A] over the real type [T] of
    the grid: [C] over [R], and [xC] over [xreal] where the special values
    of binary64 matter. *)

(** NumPy's broadcast of [a] to the length [n] of an axis: [a] itself
    when it has that length, its element repeated when it has length
    one; [ValueError] otherwise *)
Definition np_broadcast_to {A} (n : nat) (a : list A) : result (list A) :=
  if (length a =? n)%nat then Ok a
  else match a with
       | [a0] => Ok (repeat a0 n)
       | _ => Err ValueError
       end.

(** [[f(a) for a in l]], stopping at the first exception *)
Fixpoint map_result {A B} (f : A -> result B) (l : list A) : result (list B) :=
  match l with
  | [] => Ok []
  | a :: rest => b ← f a; bs ← map_result f rest; Ok (b :: bs)
  end.

Section TimeDependent.
Context {T A : Type} {ST : Scalar T} {SC : Scalar A} {Amp : Amplitude A T}
        {Sq : Sqrt T} {Cx : Complexified A T}.

(** [scipy.sparse.linalg.splu(A)]: the factorisation, given by its
    [solve] method *)
Variable splu : spmatrix A -> result (list A -> list A).

(** [1j * dt * H / (2 * hbar)] *)
Definition cn_increment (Hm : spmatrix T) (dt hbar : T)
  : result (spmatrix A) :=
  let c := (imag_unit * of_real dt)%S in
  let two_hbar := (s2 * hbar)%S in
  if szerob two_hbar then Err ZeroDivisionError
  else Ok (sp_map (fun z => divr z two_hbar)
                  (sp_map (fun h => (c * of_real h)%S) Hm)).

(** [A = I + 1j*dt*H/(2*hbar)] and [B = I - 1j*dt*H/(2*hbar)] with
    [I = diags([np.ones(N)], [0])] *)
Definition cn_matrices (N : nat) (Hm : spmatrix T) (dt hbar : T)
  : result (spmatrix A * spmatrix A) :=
  let Id := sp_map of_real (diags [np_ones N] [0%Z]) in
  SA ← cn_increment Hm dt hbar;
  A ← sp_add Id SA;
  SB ← cn_increment Hm dt hbar;
  B ← sp_sub Id SB;
  Ok (A, B).

(** [psi_t[0] = psi0]: [psi0] is broadcast to the row of length [N] *)
Definition assign_first (psi_t : list (list A)) (N : nat) (psi0 : list A)
  : result (list (list A)) :=
  row ← np_broadcast_to N psi0;
  Ok (<[O := row]> psi_t).

(** the body of the loop of lines 75-80; [psi_t[n-1]] is a row of
    [psi_t], of the size of [B] *)
Definition cn_step_1d (B : spmatrix A) (lu_solve : list A -> list A)
  (x : list T) (psi_t : list (list A)) (n : nat) : result (list (list A)) :=
  let b := sp_dot B (nth (n - 1) psi_t []) in
  let psi_n := lu_solve b in
  let norm := quad_norm_1d psi_n x in
  Ok (<[n := map (fun a => divr a norm) psi_n]> psi_t).

Definition solve_time_dependent_1d
  (x : list T) (psi0 : list A) (V : list T) (times : list T)
  (mass hbar : T) (method : string) : result (list (list A)) :=
  if negb (String.eqb method "crank-nicolson") then Err NotImplementedError
  else
    let N := length x in
    dx ← spacing_1d x;
    t1 ← getitem times 1; t0 ← getitem times 0;
    let dt := (t1 - t0)%S in
    let psi_t := repeat (repeat s0 N) (length times) in
    psi_t ← assign_first psi_t N psi0;
    Hm ← hamiltonian_1d N dx V mass hbar;
    '(A, B) ← cn_matrices N Hm dt hbar;
    lu_solve ← splu A;
    for_each (cn_step_1d B lu_solve x) psi_t (py_range1 (length times)).

(** [psi_t[0] = psi0] for a two-dimensional [psi0]: it is broadcast to
    the shape [(Nx, Ny)], axis by axis (a one-dimensional [psi0] of length
    [Ny] is assigned, and flattened below, as the array of that one row) *)
Definition assign_first_2d (psi_t : list (list (list A))) (Nx Ny : nat)
  (psi0 : list (list A)) : result (list (list (list A))) :=
  rows ← np_broadcast_to Nx psi0;
  rows ← map_result (np_broadcast_to Ny) rows;
  Ok (<[O := rows]> psi_t).

(** the body of the loop of lines 85-91 of [schrodinger_2d.py]; the
    state is [(psi_t, psi_vec)].  [B.dot(psi_vec)] is a [ValueError]
    (dimension mismatch) unless [psi_vec] has one entry per column of
    [B]: [psi0.ravel()] is the array as supplied, not its broadcast. *)
Definition cn_step_2d (B : spmatrix A) (lu_solve : list A -> list A)
  (X Y : list (list T)) (Nx Ny : nat)
  (st : list (list (list A)) * list A) (n : nat)
  : result (list (list (list A)) * list A) :=
  let '(psi_t, psi_vec) := st in
  if negb (length psi_vec =? sp_cols B)%nat then Err ValueError
  else
    let b := sp_dot B psi_vec in
    let psi_vec := lu_solve b in
    let norm := quad_norm_2d (reshape Nx Ny psi_vec) X Y in
    let psi_vec := map (fun a => divr a norm) psi_vec in
    Ok (<[n := reshape Nx Ny psi_vec]> psi_t, psi_vec).

Definition solve_time_dependent_2d
  (X Y : list (list T)) (psi0 : list (list A)) (V : list (list T))
  (times : list T) (mass hbar : T) (method : string)
  : result (list (list (list A))) :=
  if negb (String.eqb method "crank-nicolson") then Err NotImplementedError
  else
    let '(Nx, Ny) := shape2 X in
    let N := (Nx * Ny)%nat in
    '(dx, dy) ← spacing_2d X Y;
    t1 ← getitem times 1; t0 ← getitem times 0;
    let dt := (t1 - t0)%S in
    let psi_t := repeat (repeat (repeat s0 Ny) Nx) (length times) in
    psi_t ← assign_first_2d psi_t Nx Ny psi0;
    Hm ← hamiltonian_2d Nx Ny dx dy V mass hbar;
    '(A, B) ← cn_matrices N Hm dt hbar;
    lu_solve ← splu A;
    let psi_vec := ravel psi0 in
    st ← for_each (cn_step_2d B lu_solve X Y Nx Ny) (psi_t, psi_vec)
                  (py_range1 (length times));
    Ok (fst st).
End TimeDependent.

(** ** [backend/utils/numerics.py]: expectation of a custom observable *)

(** an array of one or two dimensions *)
Inductive ndarray (E : Type) : Type :=
| Arr1 (a : list E)
| Arr2 (a : list (list E)).
Arguments Arr1 {E} a.
Arguments Arr2 {E} a.

(** what a name of [local_dict] is bound to *)
Inductive pyvalue (T A : Type) : Type :=
| PyReal (a : ndarray T)
| PyAmp (a : ndarray A)
| PyFunc (name : string)       (* [np.abs], [np.real], ... *)
| PyModule (name : string).    (* [np] *)
Arguments PyReal {T A} a.
Arguments PyAmp {T A} a.
Arguments PyFunc {T A} name.
Arguments PyModule {T A} name.

Section Observables.
Context {T A : Type} `{Scalar T} `{Amplitude A T}.

Definition np_sum_nd (a : ndarray T) : T :=
  match a with Arr1 a => np_sum a | Arr2 a => np_sum2 a end.

(** [numexpr.evaluate(expr, local_dict=...)]: the external evaluator *)
Variable ne_evaluate : string -> gmap string (pyvalue T A) -> result (ndarray T).

(** the names every evaluation binds besides the arrays *)
Definition with_numpy_names (d : gmap string (pyvalue T A))
  : gmap string (pyvalue T A) :=
  <["np" := PyModule "numpy"]>
    (<["conj" := PyFunc "conj"]>
       (<["imag" := PyFunc "imag"]>
          (<["real" := PyFunc "real"]>
             (<["abs" := PyFunc "abs"]> d)))).

(** [{**local_dict, 'x': x, 'psi': psi, 'abs': np.abs, ...}] *)
Definition env_1d (x : list T) (psi : list A)
  (local_dict : gmap string (pyvalue T A)) : gmap string (pyvalue T A) :=
  with_numpy_names
    (<["psi" := PyAmp (Arr1 psi)]> (<["x" := PyReal (Arr1 x)]> local_dict)).

Definition expectation_custom_expr_1d
  (x : list T) (psi : list A) (expr : string)
  (local_dict : option (gmap string (pyvalue T A))) : result T :=
  let local_dict := default ∅ local_dict in
  let local_dict := env_1d x psi local_dict in
  dx ← spacing_1d x;
  Obs ← ne_evaluate expr local_dict;
  Ok (np_sum_nd Obs * dx / np_sum (map (fun p => abs2 p * dx) psi))%S.

(** [{**local_dict, 'X': X, 'Y': Y, 'psi': psi, 'abs': np.abs, ...}] *)
Definition env_2d (X Y : list (list T)) (psi : list (list A))
  (local_dict : gmap string (pyvalue T A)) : gmap string (pyvalue T A) :=
  with_numpy_names
    (<["psi" := PyAmp (Arr2 psi)]>
       (<["Y" := PyReal (Arr2 Y)]> (<["X" := PyReal (Arr2 X)]> local_dict))).

Definition expectation_custom_expr_2d
  (X Y : list (list T)) (psi : list (list A)) (expr : string)
  (local_dict : option (gmap string (pyvalue T A))) : result T :=
  let local_dict := default ∅ local_dict in
  let local_dict := env_2d X Y psi local_dict in
  '(dx, dy) ← spacing_2d X Y;
  Obs ← ne_evaluate expr local_dict;
  Ok (np_sum_nd Obs * dx * dy
      / np_sum2 (map (map (fun p => abs2 p * dx * dy)) psi))%S.

(** the same ratio under the composite trapezoidal rule, as the solvers
    compute their norms; the specification's reading of the two
    functions above *)
Definition expectation_trapz_1d (x : list T) (psi : list A) (Obs : list T) : T :=
  (trapz Obs x / trapz (map abs2 psi) x)%S.

Definition expectation_trapz_2d
  (X Y : list (list T)) (psi : list (list A)) (Obs : list (list T)) : T :=
  (trapz (trapz_rows Obs (row Y 0)) (column s0 X 0)
   / trapz (trapz_rows (map (map abs2) psi) (row Y 0)) (column s0 X 0))%S.
End Observables.

(** ** [backend/utils/numerics.py]: simulation archives

    The file system is a map from paths to zip archives; an archive maps
    member names to their (compressed) bytes. *)

Abbreviation bytes := (list Byte.byte).
Abbreviation zipfile := (gmap string bytes).
Abbreviation filesystem := (gmap string zipfile).

(** [s.endswith(suffix)] *)
Definition endswith (s suffix : string) : bool :=
  String.eqb
    (String.substring (String.length s - String.length suffix)
                      (String.length suffix) s)
    suffix
  && (String.length suffix <=? String.length s)%nat.

Section Archive.
(** the arrays, and the codecs of the [.npy] format and of deflate *)
Variable array : Type.
Variable npy_write : array -> bytes.
Variable npy_read : bytes -> result array.
Variable deflate : bytes -> bytes.
Variable inflate : bytes -> bytes.

(** the path [np.savez_compressed] writes to: [.npz] is appended to a
    name that does not end with it *)
Definition npz_path (file : string) : string :=
  if endswith file ".npz" then file else (file ++ ".npz")%string.

(** [np.savez_compressed(file, **kwds)]: one deflated member
    [<name>.npy] per keyword; a keyword called [file] collides with the
    positional parameter *)
Definition npz_members (kwds : gmap string array) : zipfile :=
  kmap (fun name => (name ++ ".npy")%string)
       ((fun a => deflate (npy_write a)) <$> kwds).

Definition np_savez_compressed (fs : filesystem) (file : string)
  (kwds : gmap string array) : result filesystem :=
  if decide (is_Some (kwds !! "file")) then Err TypeError
  else Ok (<[npz_path file := npz_members kwds]> fs).

(** [np.load(file, allow_pickle=True)] on an archive *)
Definition np_load (fs : filesystem) (file : string) : result zipfile :=
  match fs !! file with
  | Some z => Ok z
  | None => Err FileNotFoundError
  end.

(** [data[key]] on the [NpzFile] that [np.load] returns: a key that is
    the name of a member of the archive reads that member, any other key
    reads the member [<key>.npy]; [KeyError] when there is neither *)
Definition npz_getitem (z : zipfile) (key : string) : result array :=
  match z !! key with
  | Some member => npy_read (inflate member)
  | None =>
      match z !! (key ++ ".npy")%string with
      | Some member => npy_read (inflate member)
      | None => Err KeyError
      end
  end.

(** [key in data]: [key in self._files or key in self.files] *)
Definition npz_contains (z : zipfile) (key : string) : bool :=
  bool_decide (is_Some (z !! key))
  || bool_decide (is_Some (z !! (key ++ ".npy")%string)).

(** [save_simulation(filename, **kwargs)]: a keyword called [filename]
    collides with the positional parameter before the body runs *)
Definition save_simulation (fs : filesystem) (filename : string)
  (kwargs : gmap string array) : result filesystem :=
  if decide (is_Some (kwargs !! "filename")) then Err TypeError
  else np_savez_compressed fs filename kwargs.

Definition load_simulation (fs : filesystem) (filename : string)
  : result zipfile :=
  np_load fs filename.
End Archive.

(** ** Concrete inputs and library stand-ins used by the examples *)

(** a factorisation object whose [solve] returns its argument: exact for
    the identity matrix *)
Definition splu_identity (A : spmatrix C) : result (list C -> list C) :=
  Ok (fun b => b).

(** the evaluator on the two expressions of the docstrings of
    [expectation_custom_expr_1d] and [expectation_custom_expr_2d]:
    ['x * abs(psi)**2'] reads the names [x] and [psi],
    ['X * abs(psi)**2'] the names [X] and [psi]; a name that the
    dictionary does not bind is a [KeyError], and no other expression is
    evaluated *)
Definition ne_position_density {T A} `{Scalar T} `{Amplitude A T}
  (expr : string) (env : gmap string (pyvalue T A)) : result (ndarray T) :=
  if String.eqb expr "x * abs(psi)**2" then
    match env !! "x", env !! "psi" with
    | Some (PyReal (Arr1 x)), Some (PyAmp (Arr1 psi)) =>
        Ok (Arr1 (zip_with (fun a p => a * abs2 p)%S x psi))
    | Some _, Some _ => Err TypeError
    | _, _ => Err KeyError
    end
  else if String.eqb expr "X * abs(psi)**2" then
    match env !! "X", env !! "psi" with
    | Some (PyReal (Arr2 X)), Some (PyAmp (Arr2 psi)) =>
        Ok (Arr2 (zip_with (zip_with (fun a p => a * abs2 p)%S) X psi))
    | Some _, Some _ => Err TypeError
    | _, _ => Err KeyError
    end
  else Err ValueError.

(** the position of [a[i, j]] in [a.ravel()] for an array with [Ny]
    columns *)
Definition flat_index (Ny i j : nat) : nat := i * Ny + j.

(** two grid points are the same or next to each other along one axis:
    the support of the five-point stencil *)
Definition grid_adjacent (p q : nat * nat) : bool :=
  let '(i, j) := p in
  let '(i', j') := q in
  ((i =? i') && ((j =? j') || (S j =? j') || (j =? S j')))
  || ((j =? j') && ((S i =? i') || (i =? S i'))).

(** trivial codecs: an array is its own byte string, compression stores *)
Definition npy_write_raw (a : bytes) : bytes := a.
Definition npy_read_raw (b : bytes) : result bytes := Ok b.
Definition deflate_stored (b : bytes) : bytes := b.
Definition inflate_stored (b : bytes) : bytes := b.

(** a LAPACK stand-in that reports failure: used where the eigensolver is
    never reached *)
Definition lapack_unreached {T} (a : list (list T)) : result (list T * list (list T)) :=
  Err RuntimeError.

(** the grid [-1, 0, 1] and the infinite well with walls at [-1/2, 1/2] *)
Definition well_grid : list xreal := [Fin (-1); Fin 0; Fin 1].
Definition well_potential : list xreal :=
  infinite_well_1d well_grid (Fin (-1 / 2)) (Fin (1 / 2)).

(** ** What the eigensolvers promise *)

(** LAPACK's symmetric driver on an [n x n] matrix: all [n] eigenvalues,
    in ascending order, and an [n x n] matrix of eigenvectors. *)
Definition lapack_contract (a : list (list R))
  (res : result (list R * list (list R))) : Prop :=
  exists E U,
    res = Ok (E, U)
    /\ length E = length a
    /\ length U = length a
    /\ Forall (fun r => length r = length a) U
    /\ Sorted Rle E.

(** [eigsh(A, k, which)] on a sparse [n x n] matrix: an error unless
    [0 < k < n]; otherwise (ARPACK having converged) [k] eigenvalues in
    ascending order and an [n x k] matrix of eigenvectors. *)
Definition eigsh_shape_contract (Hm : spmatrix R) (k : Z)
  (res : result (list R * list (list R))) : Prop :=
  if (k <=? 0)%Z || (Z.of_nat (sp_rows Hm) <=? k)%Z
  then exists e, res = Err e
  else exists E U,
      res = Ok (E, U)
      /\ length E = Z.to_nat k
      /\ length U = sp_rows Hm
      /\ Forall (fun r => length r = Z.to_nat k) U
      /\ Sorted Rle E.

Definition is_eigenpair (Hm : spmatrix R) (lam : R) (v : list R) : Prop :=
  length v = sp_cols Hm
  /\ (exists i, nth i v 0%R <> 0%R)
  /\ sp_dot Hm v = map (Rmult lam) v.

Definition is_eigenvalue (Hm : spmatrix R) (lam : R) : Prop :=
  exists v, is_eigenpair Hm lam v.

(** [which_prefers w a b]: under [which = w], eigenvalue [a] is wanted at
    least as much as [b] ('SM': smallest magnitude, 'SA': smallest
    algebraic, 'LM' and 'LA' the largest; 'BE' takes from both ends and is
    left unconstrained). *)
Definition which_prefers (w : eigsh_which) (a b : R) : Prop :=
  match w with
  | SM => (Rabs a <= Rabs b)%R
  | LM => (Rabs b <= Rabs a)%R
  | SA => (a <= b)%R
  | LA => (b <= a)%R
  | BE => True
  end.

(** what [eigsh] returns are eigenpairs of the matrix, and an eigenvalue
    that was left out is wanted no more than any that was returned *)
Definition eigsh_selection_contract (w : eigsh_which) (Hm : spmatrix R)
  (res : result (list R * list (list R))) : Prop :=
  forall E U, res = Ok (E, U) ->
    (forall n, (n < length E)%nat -> is_eigenpair Hm (nth n E 0%R) (column 0%R U n))
    /\ (forall mu, is_eigenvalue Hm mu ->
                   In mu E \/ Forall (fun e => which_prefers w e mu) E).

(** ** A two-point grid and a 2 x 2 grid with their eigen-decompositions *)

(** the grid [0, 1] with zero potential, unit mass and [hbar]: the
    Hamiltonian is [[1, -1/2], [-1/2, 1]], with eigenvalues [1/2], [3/2] *)
Definition two_point_grid : list R := [0; 1]%R.
Definition two_point_potential : list R := [0; 0]%R.
Definition lapack_two_point (a : list (list R)) : result (list R * list (list R)) :=
  Ok ([1 / 2; 3 / 2]%R,
      [[/ sqrt 2; / sqrt 2]; [/ sqrt 2; - / sqrt 2]]%R).

(** the grid of 2 x 2 points over [[0, 1] x [0, 1]] with the constant
    potential [-9/4], unit mass and [hbar]: the Hamiltonian has [-1/4] on
    the diagonal and [-1/2] between neighbours; its eigenvalues are
    [-5/4], [-1/4] (twice) and [3/4] *)
Definition square_X : list (list R) := [[0; 0]; [1; 1]]%R.
Definition square_Y : list (list R) := [[0; 1]; [0; 1]]%R.
Definition square_V : list (list R) := [[-9 / 4; -9 / 4]; [-9 / 4; -9 / 4]]%R.

(** ARPACK on that Hamiltonian with [k = 1] and [which = 'SM'] *)
Definition eigsh_square_SM (Hm : spmatrix R) (k : Z) (w : eigsh_which)
  : result (list R * list (list R)) :=
  Ok ([-1 / 4]%R, [[1 / 2]; [-1 / 2]; [1 / 2]; [-1 / 2]]%R).

(** ** Vocabulary of the propagation proofs *)

(** a complex vector with a non-zero component *)
Definition nonzero (v : list C) : Prop := Exists (fun a => a <> RtoC 0) v.

(** [sum(f(j) for j in l)] over the reals *)
Definition lsum (f : nat -> R) (l : list nat) : R :=
  fold_right (fun j acc => (f j + acc)%R) 0%R l.

(** a square sparse matrix that is equal to its transpose *)
Definition sp_symmetric {T} (A : spmatrix T) : Prop :=
  sp_rows A = sp_cols A /\ forall i j, sp_get A i j = sp_get A j i.

(** an exact factorisation: [lu.solve(b)] has the length of [b] and
    solves [A x = b] *)
Definition splu_exact (splu : spmatrix C -> result (list C -> list C))
  (A : spmatrix C) : Prop :=
  exists lu_solve,
    splu A = Ok lu_solve
    /\ forall b, length b = sp_rows A ->
                 length (lu_solve b) = sp_rows A /\ sp_dot A (lu_solve b) = b.

(** a grid of at least two increasing points *)
Definition valid_grid_1d (x : list R) : Prop :=
  (2 <= length x)%nat /\ Sorted Rlt x.

(** an array of shape [(Nx, Ny)] *)
Definition grid_shaped {A} (Nx Ny : nat) (a : list (list A)) : Prop :=
  length a = Nx /\ Forall (fun r => length r = Ny) a.

(** two meshgrid arrays of shape [(Nx, Ny)], at least two points per axis,
    [X[:, 0]] and [Y[0, :]] increasing *)
Definition valid_grid_2d (X Y : list (list R)) (Nx Ny : nat) : Prop :=
  (2 <= Nx)%nat /\ (2 <= Ny)%nat
  /\ grid_shaped Nx Ny X /\ grid_shaped Nx Ny Y
  /\ Sorted Rlt (column 0%R X 0) /\ Sorted Rlt (row Y 0).

(** ** Two small propagation problems with their exact factorisations *)

(** the two-point grid with potential [-1], [dt = 2], unit mass and
    [hbar]: [A = [[1, -i/2], [-i/2, 1]]] *)
Definition cn_grid_1d : list R := [0; 1]%R.
Definition cn_potential_1d : list R := [-1; -1]%R.
Definition cn_times : list R := [0; 2]%R.
Definition cn_psi0_1d : list C := [RtoC 1; RtoC 0].

(** the 2 x 2 grid with potential [-2], [dt = 2], unit mass and [hbar]:
    [A = I + i H] with [H] zero on the diagonal and [-1/2] between
    neighbours *)
Definition cn_potential_2d : list (list R) := [[-2; -2]; [-2; -2]]%R.
Definition cn_psi0_2d : list (list C) := [[RtoC 1; RtoC 0]; [RtoC 0; RtoC 0]].

(** [lu.solve] for those two matrices, by their inverses *)
Definition lu_solve_small (b : list C) : list C :=
  let d := mkC (4 / 5) 0 in
  let o := mkC 0 (2 / 5) in
  let p := mkC (3 / 4) 0 in
  let q := mkC 0 (1 / 4) in
  let m := mkC (-1 / 4) 0 in
  match b with
  | [b0; b1] =>
      [Cadd (Cmul d b0) (Cmul o b1); Cadd (Cmul o b0) (Cmul d b1)]
  | [b0; b1; b2; b3] =>
      [Cadd (Cadd (Cmul p b0) (Cmul q b1)) (Cadd (Cmul q b2) (Cmul m b3));
       Cadd (Cadd (Cmul q b0) (Cmul p b1)) (Cadd (Cmul m b2) (Cmul q b3));
       Cadd (Cadd (Cmul q b0) (Cmul m b1)) (Cadd (Cmul p b2) (Cmul q b3));
       Cadd (Cadd (Cmul m b0) (Cmul q b1)) (Cadd (Cmul q b2) (Cmul p b3))]
  | _ => b
  end.

Definition splu_small (A : spmatrix C) : result (list C -> list C) :=
  Ok lu_solve_small.

(** the run on binary64 values that starts from the zero wavefunction:
    the grid [0, 1], no potential, the time points [0, 1] *)
Definition zero_run_grid : list xreal := [Fin 0; Fin 1].
Definition zero_run_psi0 : list xC := [xRtoC (Fin 0); xRtoC (Fin 0)].
Definition zero_run_potential : list xreal := [Fin 0; Fin 0].
Definition zero_run_times : list xreal := [Fin 0; Fin 1].

(** a factorisation whose [solve] returns its argument: exact where the
    right-hand side is the zero vector *)
Definition splu_zero_rhs (A : spmatrix xC) : result (list xC -> list xC) :=
  Ok (fun b => b).

(** every stored value of the matrix is finite *)
Definition finite_entries {T} `{Scalar T} (M : spmatrix T) : Prop :=
  forall i j v, sp_get M i j = Some v -> sfinite v = true.

(** ** [backend/potentials/basic.py]: the other potentials *)

(** [finite_square_well_1d(x, xmin, xmax, V0=0.0, V_out=np.inf)]:
    [V_out] everywhere, then [V0] where [xmin <= x <= xmax]. *)
Definition finite_square_well_1d (x : list xreal) (xmin xmax V0 V_out : xreal)
  : list xreal :=
  map (fun xi => if xleb xmin xi && xleb xi xmax then V0 else V_out) x.

(** [double_well_1d(x, center1, center2, width, V0=0.0, V_out=np.inf)] *)
Definition double_well_1d (x : list xreal) (center1 center2 width V0 V_out : xreal)
  : list xreal :=
  map (fun xi =>
         if xleb (xabs (xsub xi center1)) (xdiv width (Fin 2))
            || xleb (xabs (xsub xi center2)) (xdiv width (Fin 2))
         then V0 else V_out) x.

(** Element-wise arithmetic on two one-dimensional arrays: equal lengths
    pair up, an array of length one is broadcast, anything else is a
    [ValueError]. *)
Definition np_broadcast {A B D} (f : A -> B -> D) (a : list A) (b : list B)
  : result (list D) :=
  if (length a =? length b)%nat then Ok (zip_with f a b)
  else match a, b with
       | [a0], _ => Ok (map (f a0) b)
       | _, [b0] => Ok (map (fun ai => f ai b0) a)
       | _, _ => Err ValueError
       end.

(** the same on two-dimensional arrays, axis by axis *)
Definition np_broadcast2 {A B D} (f : A -> B -> D)
  (a : list (list A)) (b : list (list B)) : result (list (list D)) :=
  rows ← np_broadcast (np_broadcast f) a b;
  fold_right (fun r acc => r ← r; acc ← acc; Ok (r :: acc)) (Ok []) rows.

(** [infinite_well_2d]: zero, then [np.inf] where the mask
    [(X < xmin) | (X > xmax) | (Y < ymin) | (Y > ymax)] holds; the mask
    has to have the shape of [V], that of [X] ([IndexError] otherwise). *)
Definition infinite_well_2d (X Y : list (list xreal)) (xmin xmax ymin ymax : xreal)
  : result (list (list xreal)) :=
  let mx := map (map (fun a => xltb a xmin || xltb xmax a)) X in
  let my := map (map (fun a => xltb a ymin || xltb ymax a)) Y in
  mask ← np_broadcast2 orb mx my;
  if (length mask =? length X)%nat
     && forallb (fun p => (length (fst p) =? length (snd p))%nat) (combine mask X)
  then Ok (map (map (fun m : bool => if m then PInf else Fin 0)) mask)
  else Err IndexError.

Section SmoothPotentials.
Context {T : Type} `{Scalar T}.

(** [0.5 * m * omega**2 * x**2] *)
Definition harmonic_oscillator_1d (x : list T) (m omega : T) : list T :=
  map (fun xi => (s1 / s2 * m * (omega * omega) * (xi * xi))%S) x.

(** [0.5 * m * omega**2 * (X**2 + Y**2)] *)
Definition harmonic_oscillator_2d (X Y : list (list T)) (m omega : T)
  : result (list (list T)) :=
  r2 ← np_broadcast2 sadd (map (map (fun a => a * a)%S) X)
                          (map (map (fun a => a * a)%S) Y);
  Ok (map (map (fun r => (s1 / s2 * m * (omega * omega) * r)%S)) r2).
End SmoothPotentials.

(** [height * np.exp(-((x-center)**2) / (2*width**2))] and its well *)
Definition gaussian_barrier_1d (x : list R) (center width height : R) : list R :=
  map (fun xi => (height * exp (- ((xi - center) * (xi - center))
                                / (2 * (width * width))))%R) x.
Definition gaussian_well_1d (x : list R) (center width depth : R) : list R :=
  map (fun xi => (- depth * exp (- ((xi - center) * (xi - center))
                                 / (2 * (width * width))))%R) x.

(** [amplitude * np.cos(2 * np.pi * x / period)] *)
Definition periodic_cosine_1d (x : list R) (amplitude period : R) : list R :=
  map (fun xi => (amplitude * cos (2 * PI * xi / period))%R) x.

Section CustomPotential.
Context {T A : Type}.

(** [numexpr.evaluate(expr, local_dict=...)] *)
Variable ne_evaluate : string -> gmap string (pyvalue T A) -> result (ndarray T).

(** [{**local_dict, 'x': x, 'np': np}] handed to the evaluator *)
Definition custom_potential_expr_1d (x : list T) (expr : string)
  (local_dict : option (gmap string (pyvalue T A))) : result (ndarray T) :=
  let local_dict := default ∅ local_dict in
  let local_dict :=
    <["np" := PyModule "numpy"]> (<["x" := PyReal (Arr1 x)]> local_dict) in
  ne_evaluate expr local_dict.

(** [{**local_dict, 'X': X, 'Y': Y, 'np': np}] *)
Definition custom_potential_expr_2d (X Y : list (list T)) (expr : string)
  (local_dict : option (gmap string (pyvalue T A))) : result (ndarray T) :=
  let local_dict := default ∅ local_dict in
  let local_dict :=
    <["np" := PyModule "numpy"]>
      (<["Y" := PyReal (Arr2 Y)]> (<["X" := PyReal (Arr2 X)]> local_dict)) in
  ne_evaluate expr local_dict.
End CustomPotential.

(** ** [backend/utils/numerics.py]: the built-in expectation values *)

Section Gradient.
Context {T A : Type} `{Scalar T} `{Scalar A} `{Amplitude A T}.

(** [np.gradient(f, h)] on a one-dimensional array with the scalar
    spacing [h]: central differences [(f[i+1] - f[i-1]) / (2. * h)] inside,
    the one-sided differences [(f[1] - f[0]) / h] and
    [(f[-1] - f[-2]) / h] at the two ends ([edge_order=1]); [ValueError]
    on fewer than two samples. *)
Definition np_gradient (f : list A) (h : T) : result (list A) :=
  let n := length f in
  if (n <? 2)%nat then Err ValueError
  else
    Ok (map (fun i =>
               if (i =? 0)%nat then
                 divr (nth 1 f s0 - nth 0 f s0)%S h
               else if (i =? n - 1)%nat then
                 divr (nth (n - 1) f s0 - nth (n - 2) f s0)%S h
               else
                 divr (nth (i + 1) f s0 - nth (i - 1) f s0)%S (s2 * h)%S)
            (seq 0 n)).

(** [np.abs(psi)**2] *)
Definition probability_density (psi : list A) : list T := map abs2 psi.

(** [np.sum(x * dens) / np.sum(dens)] *)
Definition expectation_x (x : list T) (psi : list A) : result T :=
  let dens := probability_density psi in
  xd ← np_broadcast smul x dens;
  Ok (np_sum xd / np_sum dens)%S.

(** [expectation_x_2d] and [expectation_y_2d]:
    [np.sum(X * dens) * dx * dy / np.sum(dens * dx * dy)] *)
Definition expectation_x_2d (X Y : list (list T)) (psi : list (list A))
  : result T :=
  let dens := map (map abs2) psi in
  '(dx, dy) ← spacing_2d X Y;
  Xd ← np_broadcast2 smul X dens;
  Ok (np_sum2 Xd * dx * dy
      / np_sum2 (map (map (fun d => d * dx * dy)) dens))%S.

Definition expectation_y_2d (X Y : list (list T)) (psi : list (list A))
  : result T :=
  let dens := map (map abs2) psi in
  '(dx, dy) ← spacing_2d X Y;
  Yd ← np_broadcast2 smul Y dens;
  Ok (np_sum2 Yd * dx * dy
      / np_sum2 (map (map (fun d => d * dx * dy)) dens))%S.
End Gradient.

(** [expectation_p(x, psi, hbar=1.0)] on a complex wavefunction; the
    gradient has the shape of [psi], so the product with [np.conj(psi)]
    pairs the entries up. *)
Definition expectation_p (x : list R) (psi : list C) (hbar : R) : result R :=
  dx ← spacing_1d x;
  dpsi_dx ← np_gradient psi dx;
  let p_op_psi := map (Cmul (Cmul (Copp Ci) (RtoC hbar))) dpsi_dx in
  Ok (Re (np_sum (zip_with Cmul (map Cconj psi) p_op_psi)) * dx
      / np_sum (map (fun p => (abs2 p * dx)%R) psi))%R.

(** [expectation_energy(x, psi, V, mass=1.0, hbar=1.0)] *)
Definition expectation_energy (x : list R) (psi : list C) (V : list R)
  (mass hbar : R) : result R :=
  dx ← spacing_1d x;
  dpsi_dx ← np_gradient psi dx;
  d2psi_dx2 ← np_gradient dpsi_dx dx;
  c ← pydiv (- (1 / 2) * (hbar * hbar))%R mass;
  let kinetic := map (Cmul (RtoC c)) d2psi_dx2 in
  Vpsi ← np_broadcast (fun v p => Cmul (RtoC v) p) V psi;
  Hpsi ← np_broadcast Cadd kinetic Vpsi;
  inner ← np_broadcast Cmul (map Cconj psi) Hpsi;
  let E := divr (Cmul (np_sum inner) (RtoC dx))
                (np_sum (map (fun p => (abs2 p * dx)%R) psi)) in
  Ok (Re E).

(** [expectation_observable(x, psi, op)]: [op] is the caller's function,
    called before the spacing is read *)
Definition expectation_observable (x : list R) (psi : list C)
  (op : list R -> list C -> result (list C)) : result C :=
  Opsi ← op x psi;
  dx ← spacing_1d x;
  inner ← np_broadcast Cmul (map Cconj psi) Opsi;
  Ok (divr (Cmul (np_sum inner) (RtoC dx))
           (np_sum (map (fun p => (abs2 p * dx)%R) psi))).

(** ** [backend/main.py]: the initial state of the time-dependent endpoints *)

(** lines 85-86 of [solve_1d_timedependent]: the evaluated initial state,
    a real array, as a complex one ([astype(complex)]) divided in place by
    its trapezoidal norm *)
Definition normalize_psi0_1d (x psi0 : list R) : list C :=
  let psi0 := map RtoC psi0 in
  map (fun a => divr a (quad_norm_1d psi0 x)) psi0.

(** lines 122-123 of [solve_2d_timedependent] *)
Definition normalize_psi0_2d (X Y : list (list R)) (psi0 : list (list R))
  : list (list C) :=
  let psi0 := map (map RtoC) psi0 in
  map (map (fun a => divr a (quad_norm_2d psi0 X Y))) psi0.

(** ** [backend/main.py]: [/observable/eval] *)

(** the body of the request, once validated: a field left out is [None] *)
Record ObservableRequest : Type := {
  req_x : option (list R);
  req_X : option (list (list R));
  req_Y : option (list (list R));
  req_psi : option (list R);
  req_psi2d : option (list (list R));
  req_expr : string
}.

(** the truth value of an optional list: [None] and [[]] are false *)
Definition truthy {A} (o : option (list A)) : bool :=
  match o with Some (_ :: _) => true | _ => false end.

(** what an endpoint answers: the returned body with status 200, or the
    [HTTPException] of status 400 raised for the exception caught *)
Inductive http_response (A : Type) : Type :=
| Http200 (body : A)
| Http400 (detail : pyerror).
Arguments Http200 {A} body.
Arguments Http400 {A} detail.

(** [try: ... except Exception as e: raise HTTPException(400, str(e))] *)
Definition catch_all {A} (r : result A) : http_response A :=
  match r with Ok a => Http200 a | Err e => Http400 e end.

(** [np.array] of a list of rows: rows of different lengths are a
    [ValueError] (NumPy 1.24 and later) *)
Definition np_array2 {A} (rows : list (list A)) : result (list (list A)) :=
  if forallb (fun r => (length r =? length (hd [] rows))%nat) rows
  then Ok rows else Err ValueError.

Section ObservableEndpoint.
Variable ne_evaluate : string -> gmap string (pyvalue R R) -> result (ndarray R).

Definition eval_observable (req : ObservableRequest) : http_response R :=
  catch_all
    (if truthy (req_x req) && truthy (req_psi req) then
       let x := default [] (req_x req) in
       let psi := default [] (req_psi req) in
       expectation_custom_expr_1d ne_evaluate x psi (req_expr req) None
     else if truthy (req_X req) && truthy (req_Y req) && truthy (req_psi2d req)
     then
       X ← np_array2 (default [] (req_X req));
       Y ← np_array2 (default [] (req_Y req));
       psi2d ← np_array2 (default [] (req_psi2d req));
       expectation_custom_expr_2d ne_evaluate X Y psi2d (req_expr req) None
     else Err ValueError).
End ObservableEndpoint.

(** * Properties *)

Unset Implicit Arguments.

(** ** Proof tools *)

Lemma bind_ok {A B} (a : A) (f : A -> result B) : (Ok a ≫= f) = f a.
Proof. reflexivity. Qed.

Lemma Ok_inj {A} (a b : A) : Ok a = Ok b -> a = b.
Proof. intros E. injection E as E. exact E. Qed.

(** steps through a bind whose first computation has been evaluated *)
Ltac step := rewrite bind_ok; cbv beta iota.

(** reads an entry of a matrix given by its constructor, without unfolding
    the matrices it is built from *)
Ltac sp_beta :=
  repeat match goal with
         | |- context [sp_get (SpMatrix ?r ?c ?f) ?a ?b] =>
             change (sp_get (SpMatrix r c f) a b) with (f a b); cbv beta
         end.

Lemma Rzerob_false (r : R) : r <> 0%R -> Rzerob r = false.
Proof. intros Hr. unfold Rzerob. destruct (Req_dec_T r 0); [contradiction|reflexivity]. Qed.

Lemma Rzerob_true (r : R) : r = 0%R -> Rzerob r = true.
Proof. intros Hr. unfold Rzerob. destruct (Req_dec_T r 0); [reflexivity|contradiction]. Qed.

Lemma Rltb_true (a b : R) : (a < b)%R -> Rltb a b = true.
Proof. intros Hr. unfold Rltb. destruct (Rlt_dec a b); [reflexivity|contradiction]. Qed.

Lemma Rltb_false (a b : R) : (b <= a)%R -> Rltb a b = false.
Proof. intros Hr. unfold Rltb. destruct (Rlt_dec a b); [lra|reflexivity]. Qed.

(** decides the comparisons of closed real constants left in a goal *)
Ltac real_tests :=
  repeat first
    [ rewrite Rzerob_false by lra
    | rewrite Rzerob_true by lra
    | rewrite Rltb_true by lra
    | rewrite Rltb_false by lra ].

(** shows the operations of the carrier [C] over [R] by their names *)
Ltac complex_carrier :=
  change (@of_real C R C_complexified) with RtoC;
  change (@imag_unit C R C_complexified) with Ci;
  change (@smul C C_scalar) with Cmul;
  change (@s0 C C_scalar) with (RtoC 0);
  change (@ssub R R_scalar) with Rminus.

#[local] Arguments laplacian_1d : simpl never.
#[local] Arguments diags : simpl never.


(** ** Unsupported time-integration methods *)

Lemma for_each_app {S I} (body : S -> I -> result S) s l1 l2 :
  for_each body s (l1 ++ l2) = (s' ← for_each body s l1; for_each body s' l2).
Proof.
  revert s; induction l1 as [|i l1 IH]; intros s; simpl; [reflexivity|].
  destruct (body s i); simpl; auto.
Qed.

Lemma bind_not_error {A B} (m : result A) (f : A -> result B) e :
  m <> Err e -> (forall a, f a <> Err e) -> (a ← m; f a) <> Err e.
Proof.
  destruct m; simpl; intros Hm Hf; [apply Hf|].
  intros E; apply Hm; congruence.
Qed.

Lemma getitem_not_unsupported {A} (l : list A) i :
  getitem l i <> Err NotImplementedError.
Proof. unfold getitem; destruct (l !! i); discriminate. Qed.

Lemma getitem2_not_unsupported {A} (l : list (list A)) i j :
  getitem2 l i j <> Err NotImplementedError.
Proof.
  unfold getitem2. apply bind_not_error; intros; apply getitem_not_unsupported.
Qed.

Lemma sp_add_not_unsupported {T} `{Scalar T} (A B : spmatrix T) :
  sp_add A B <> Err NotImplementedError.
Proof. unfold sp_add; destruct (_ && _); discriminate. Qed.

Lemma sp_sub_not_unsupported {T} `{Scalar T} (A B : spmatrix T) :
  sp_sub A B <> Err NotImplementedError.
Proof. unfold sp_sub; destruct (_ && _); discriminate. Qed.

Lemma for_each_not_error {S I} (body : S -> I -> result S) e l :
  (forall s i, body s i <> Err e) -> forall s, for_each body s l <> Err e.
Proof.
  intros Hb; induction l as [|i l IH]; intros s; simpl; [discriminate|].
  apply bind_not_error; auto.
Qed.

Lemma np_broadcast_to_not_unsupported {A} (n : nat) (a : list A) :
  np_broadcast_to n a <> Err NotImplementedError.
Proof.
  unfold np_broadcast_to. destruct (_ =? _)%nat; [discriminate|].
  destruct a as [|? [|]]; discriminate.
Qed.

Lemma map_result_not_error {A B} (f : A -> result B) e l :
  (forall a, f a <> Err e) -> map_result f l <> Err e.
Proof.
  intros Hf. induction l as [|a l IH]; simpl; [discriminate|].
  apply bind_not_error; [apply Hf | intros b].
  apply bind_not_error; [exact IH | intros; discriminate].
Qed.

Section UnsupportedMethod.
Context {T A : Type} {ST : Scalar T} {SC : Scalar A} {Amp : Amplitude A T}
        {Sq : Sqrt T} {Cx : Complexified A T}.
Variable splu : spmatrix A -> result (list A -> list A).

Lemma spacing_1d_not_unsupported (x : list T) :
  spacing_1d x <> Err NotImplementedError.
Proof.
  unfold spacing_1d.
  repeat (apply bind_not_error; [apply getitem_not_unsupported | intros]).
  discriminate.
Qed.

Lemma spacing_2d_not_unsupported (X Y : list (list T)) :
  spacing_2d X Y <> Err NotImplementedError.
Proof.
  unfold spacing_2d.
  repeat (apply bind_not_error; [apply getitem2_not_unsupported | intros]).
  discriminate.
Qed.

Lemma kinetic_factor_not_unsupported (mass hbar : T) :
  kinetic_factor mass hbar <> Err NotImplementedError.
Proof. unfold kinetic_factor, pydiv; destruct (szerob _); discriminate. Qed.

Lemma hamiltonian_1d_not_unsupported N dx (V : list T) mass hbar :
  hamiltonian_1d N dx V mass hbar <> Err NotImplementedError.
Proof.
  unfold hamiltonian_1d.
  apply bind_not_error; [apply kinetic_factor_not_unsupported | intros].
  apply sp_add_not_unsupported.
Qed.

Lemma hamiltonian_2d_not_unsupported Nx Ny dx dy (V : list (list T)) mass hbar :
  hamiltonian_2d Nx Ny dx dy V mass hbar <> Err NotImplementedError.
Proof.
  unfold hamiltonian_2d, laplacian_2d.
  apply bind_not_error; [apply sp_add_not_unsupported | intros].
  apply bind_not_error; [apply kinetic_factor_not_unsupported | intros].
  apply sp_add_not_unsupported.
Qed.

Lemma cn_matrices_not_unsupported N (Hm : spmatrix T) dt hbar :
  cn_matrices (A := A) N Hm dt hbar <> Err NotImplementedError.
Proof.
  unfold cn_matrices, cn_increment.
  destruct (szerob _); simpl; [discriminate|].
  apply bind_not_error; [apply sp_add_not_unsupported | intros].
  apply bind_not_error; [apply sp_sub_not_unsupported | intros].
  discriminate.
Qed.

(** the method test of [solve_time_dependent_1d] comes first: whatever the
    other arguments and the factorisation are, another method name is
    refused *)
Lemma solve_time_dependent_1d_refuses x psi0 V times mass hbar method :
  method <> "crank-nicolson"%string ->
  solve_time_dependent_1d splu x psi0 V times mass hbar method
  = Err NotImplementedError.
Proof.
  intros Hm. unfold solve_time_dependent_1d.
  destruct (String.eqb_spec method "crank-nicolson"); [contradiction|reflexivity].
Qed.

Lemma solve_time_dependent_2d_refuses X Y psi0 V times mass hbar method :
  method <> "crank-nicolson"%string ->
  solve_time_dependent_2d splu X Y psi0 V times mass hbar method
  = Err NotImplementedError.
Proof.
  intros Hm. unfold solve_time_dependent_2d.
  destruct (String.eqb_spec method "crank-nicolson"); [contradiction|reflexivity].
Qed.

Lemma solve_time_dependent_1d_accepts x psi0 V times mass hbar :
  (forall M, splu M <> Err NotImplementedError) ->
  solve_time_dependent_1d splu x psi0 V times mass hbar "crank-nicolson"
  <> Err NotImplementedError.
Proof.
  intros Hlu. unfold solve_time_dependent_1d. simpl negb. cbv iota.
  apply bind_not_error; [apply spacing_1d_not_unsupported | intros dx].
  apply bind_not_error; [apply getitem_not_unsupported | intros t1].
  apply bind_not_error; [apply getitem_not_unsupported | intros t0].
  apply bind_not_error; [unfold assign_first | intros psi_t].
  { apply bind_not_error; [apply np_broadcast_to_not_unsupported|].
    intros; discriminate. }
  apply bind_not_error; [apply hamiltonian_1d_not_unsupported | intros Hm].
  apply bind_not_error; [apply cn_matrices_not_unsupported | intros [MA MB]].
  apply bind_not_error; [apply Hlu | intros lu].
  apply for_each_not_error. intros; discriminate.
Qed.

Lemma solve_time_dependent_2d_accepts X Y psi0 V times mass hbar :
  (forall M, splu M <> Err NotImplementedError) ->
  solve_time_dependent_2d splu X Y psi0 V times mass hbar "crank-nicolson"
  <> Err NotImplementedError.
Proof.
  intros Hlu. unfold solve_time_dependent_2d. simpl negb. cbv iota.
  destruct (shape2 X) as [Nx Ny].
  apply bind_not_error; [apply spacing_2d_not_unsupported | intros [dx dy]].
  apply bind_not_error; [apply getitem_not_unsupported | intros t1].
  apply bind_not_error; [apply getitem_not_unsupported | intros t0].
  apply bind_not_error; [unfold assign_first_2d | intros psi_t].
  { apply bind_not_error; [apply np_broadcast_to_not_unsupported | intros rows].
    apply bind_not_error; [|intros; discriminate].
    apply map_result_not_error. intros r. apply np_broadcast_to_not_unsupported. }
  apply bind_not_error; [apply hamiltonian_2d_not_unsupported | intros Hm].
  apply bind_not_error; [apply cn_matrices_not_unsupported | intros [MA MB]].
  apply bind_not_error; [apply Hlu | intros lu].
  apply bind_not_error; [|discriminate].
  apply for_each_not_error. intros [? ?] ?. unfold cn_step_2d.
  destruct (negb _); discriminate.
Qed.
End UnsupportedMethod.

(** C5. Both time-dependent solvers fail with [NotImplementedError] (the
    UnsupportedMethod error) exactly when the method string differs from
    ["crank-nicolson"].  The refusal does not depend on the grid, the
    state, the time points or the factorisation, none of which is looked
    at before the test; with the supported method the error cannot come
    from the solvers themselves, the factorisation being assumed not to
    raise it. *)
Theorem unsupported_method_iff
  (splu : spmatrix C -> result (list C -> list C))
  (x : list R) (psi0 : list C) (V : list R)
  (X Y : list (list R)) (psi0_2d : list (list C)) (V_2d : list (list R))
  (times : list R) (mass hbar : R) (method : string) :
  (forall A, splu A <> Err NotImplementedError) ->
  (solve_time_dependent_1d splu x psi0 V times mass hbar method
   = Err NotImplementedError <-> method <> "crank-nicolson"%string)
  /\ (solve_time_dependent_2d splu X Y psi0_2d V_2d times mass hbar method
      = Err NotImplementedError <-> method <> "crank-nicolson"%string).
Proof.
  intros Hlu. split; split.
  - intros Herr ->. revert Herr. apply solve_time_dependent_1d_accepts, Hlu.
  - apply solve_time_dependent_1d_refuses.
  - intros Herr ->. revert Herr. apply solve_time_dependent_2d_accepts, Hlu.
  - apply solve_time_dependent_2d_refuses.
Qed.

Lemma unsupported_method_iff_witness :
  (forall A, splu_identity A <> Err NotImplementedError)
  /\ solve_time_dependent_1d splu_identity [] [] [] [] 1%R 1%R "euler"
     = Err NotImplementedError
  /\ solve_time_dependent_2d splu_identity [] [] [] [] [] 1%R 1%R "euler"
     = Err NotImplementedError.
Proof.
  assert (Hlu : forall A, splu_identity A <> Err NotImplementedError)
    by (intros A; discriminate).
  split; [exact Hlu|].
  destruct (unsupported_method_iff splu_identity [] [] [] [] [] [] [] [] 1 1
              "euler" Hlu) as [H1 H2].
  split; [apply H1 | apply H2]; discriminate.
Defined.

(** ** Grid construction *)

Lemma of_nat_INR (n : nat) : of_nat (T := R) n = INR n.
Proof.
  induction n as [|n IH]; [reflexivity|].
  rewrite S_INR. simpl. rewrite IH. reflexivity.
Qed.

Lemma linspace_length {T} `{Scalar T} (a b : T) (n : nat) :
  (1 <= n)%nat -> length (linspace a b n) = n.
Proof.
  intros Hn. unfold linspace.
  rewrite length_app, length_map, length_seq. simpl. lia.
Qed.

Lemma nth_map_seq {A} (f : nat -> A) (s m i : nat) (d : A) :
  (i < m)%nat -> nth i (map f (seq s m)) d = f (s + i)%nat.
Proof.
  intros Hi.
  rewrite (nth_indep _ d (f O)) by (rewrite length_map, length_seq; exact Hi).
  rewrite (map_nth f), seq_nth by exact Hi. reflexivity.
Qed.

(** every sample of [linspace], the overwritten last one included, lies on
    the line through [a] with slope [(b - a) / (n - 1)] *)
Lemma linspace_nth (a b : R) (n i : nat) :
  (2 <= n)%nat -> (i < n)%nat ->
  nth i (linspace a b n) 0%R = (a + INR i * ((b - a) / INR (n - 1)))%R.
Proof.
  intros Hn Hi. unfold linspace.
  assert (Hpos : INR (n - 1) <> 0%R) by (apply not_0_INR; lia).
  destruct (Nat.lt_ge_cases i (n - 1)) as [Hlt|Hge].
  - rewrite app_nth1 by (rewrite length_map, length_seq; exact Hlt).
    rewrite nth_map_seq by exact Hlt.
    simpl. rewrite !of_nat_INR. simpl. lra.
  - assert (i = (n - 1)%nat) as -> by lia.
    rewrite app_nth2 by (rewrite length_map, length_seq; lia).
    rewrite length_map, length_seq, Nat.sub_diag. simpl.
    field. exact Hpos.
Qed.

Lemma nth_lookup_Some {A} (l : list A) i d :
  (i < length l)%nat -> l !! i = Some (nth i l d).
Proof.
  revert i; induction l as [|a l IH]; intros [|i] Hi; simpl in *; try lia.
  - reflexivity.
  - apply IH; lia.
Qed.

Lemma getitem_nth {A} (l : list A) i d :
  (i < length l)%nat -> getitem l i = Ok (nth i l d).
Proof. intros Hi. unfold getitem. rewrite (nth_lookup_Some l i d Hi). reflexivity. Qed.

Lemma create_1d_grid_ok (xmin xmax : R) (num_points : Z) :
  (2 <= num_points)%Z ->
  create_1d_grid xmin xmax num_points
  = Ok (linspace xmin xmax (Z.to_nat num_points),
        ((xmax - xmin) / INR (Z.to_nat num_points - 1))%R).
Proof.
  intros Hn. unfold create_1d_grid.
  destruct (Z.ltb_spec num_points 2) as [?|_]; [lia|].
  set (n := Z.to_nat num_points). assert (Hn2 : (2 <= n)%nat) by (subst n; lia).
  rewrite (getitem_nth _ _ 0%R) by (rewrite linspace_length; lia).
  rewrite (getitem_nth _ _ 0%R) by (rewrite linspace_length; lia).
  simpl. rewrite !linspace_nth by lia. do 2 f_equal.
  assert (Hpos : INR (n - 1) <> 0%R) by (apply not_0_INR; lia).
  simpl. field. exact Hpos.
Qed.

Lemma create_1d_grid_refuses (xmin xmax : R) (num_points : Z) :
  (num_points < 2)%Z -> create_1d_grid xmin xmax num_points = Err ValueError.
Proof.
  intros Hn. unfold create_1d_grid.
  destruct (Z.ltb_spec num_points 2); [reflexivity | lia].
Qed.

(** the two-dimensional builder looks at the two counts only, too *)
Lemma create_2d_grid_any_bounds (xmin xmax ymin ymax : R) (num_x num_y : Z) :
  (2 <= num_x)%Z -> (2 <= num_y)%Z ->
  is_ok (create_2d_grid xmin xmax num_x ymin ymax num_y) = true.
Proof.
  intros Hx Hy. unfold create_2d_grid.
  destruct (Z.ltb_spec num_x 2); [lia|]. destruct (Z.ltb_spec num_y 2); [lia|].
  cbn [orb].
  rewrite !(getitem_nth (linspace xmin xmax (Z.to_nat num_x)) _ 0%R)
    by (rewrite linspace_length; lia).
  rewrite !(getitem_nth (linspace ymin ymax (Z.to_nat num_y)) _ 0%R)
    by (rewrite linspace_length; lia).
  reflexivity.
Qed.

(** C10. [create_1d_grid] tests the number of points and nothing else.
    With at least two points and [xmax <= xmin] it returns a grid of
    [num_points] samples that never increases, together with the spacing
    [dx = (xmax - xmin) / (num_points - 1) <= 0]; for [xmin = xmax] the
    spacing is zero, the solvers read the same zero back from the grid
    ([x[1] - x[0]]) and the Laplacian they assemble is [diags(...)]
    divided by [dx**2 = 0]. *)
Theorem create_1d_grid_degenerate_bounds (xmin xmax : R) (num_points : Z) :
  (2 <= num_points)%Z -> (xmax <= xmin)%R ->
  exists (x : list R) (dx : R),
    create_1d_grid xmin xmax num_points = Ok (x, dx)
    /\ length x = Z.to_nat num_points
    /\ dx = ((xmax - xmin) / (IZR num_points - 1))%R
    /\ (dx <= 0)%R
    /\ (forall i j, (i <= j < length x)%nat -> (nth j x 0 <= nth i x 0)%R)
    /\ spacing_1d x = Ok dx
    /\ (xmin = xmax ->
        dx = 0%R
        /\ laplacian_1d (length x) dx
           = sp_div (diags [np_ones (length x - 1); np_full (length x) (- s2)%S;
                            np_ones (length x - 1)] [(-1)%Z; 0%Z; 1%Z]) 0%R).
Proof.
  intros Hn Hle.
  set (n := Z.to_nat num_points). assert (Hn2 : (2 <= n)%nat) by (subst n; lia).
  assert (Hpos : (0 < INR (n - 1))%R) by (apply lt_0_INR; lia).
  assert (HIZR : (IZR num_points - 1)%R = INR (n - 1)).
  { rewrite minus_INR by lia. subst n. rewrite INR_IZR_INZ, Z2Nat.id by lia.
    simpl. reflexivity. }
  exists (linspace xmin xmax n), ((xmax - xmin) / INR (n - 1))%R.
  assert (Hdx : ((xmax - xmin) / INR (n - 1) <= 0)%R).
  { assert (0 < / INR (n - 1))%R by (apply Rinv_0_lt_compat, Hpos).
    unfold Rdiv. nra. }
  split; [apply create_1d_grid_ok, Hn|].
  split; [apply linspace_length; lia|].
  split; [rewrite HIZR; reflexivity|].
  split; [exact Hdx|].
  split.
  { intros i j [Hij Hj]. rewrite linspace_length in Hj by lia.
    rewrite !linspace_nth by lia.
    assert (INR i <= INR j)%R by (apply le_INR, Hij). nra. }
  split.
  { unfold spacing_1d.
    rewrite (getitem_nth _ _ 0%R) by (rewrite linspace_length; lia).
    rewrite (getitem_nth _ _ 0%R) by (rewrite linspace_length; lia).
    simpl. rewrite !linspace_nth by lia. f_equal. simpl.
    field. lra. }
  intros ->. assert (Hz : ((xmax - xmax) / INR (n - 1))%R = 0%R) by (field; lra).
  split; [exact Hz|].
  rewrite Hz. unfold laplacian_1d. simpl smul. rewrite Rmult_0_l. reflexivity.
Qed.

Lemma create_1d_grid_degenerate_bounds_witness :
  exists (x : list R) (dx : R),
    create_1d_grid 1%R 1%R 3 = Ok (x, dx) /\ dx = 0%R.
Proof.
  destruct (create_1d_grid_degenerate_bounds 1%R 1%R 3%Z) as (x & dx & Hg & _ & _ & _ & _ & _ & Hz);
    [lia | lra |].
  exists x, dx. split; [exact Hg | apply Hz; reflexivity].
Defined.

(** ** Expectation values *)

Lemma np_sum_scale (l : list R) (c : R) :
  np_sum (map (fun a => (a * c)%R) l) = (np_sum l * c)%R.
Proof.
  unfold np_sum. induction l as [|a l IH]; simpl in *; [lra|].
  rewrite IH. lra.
Qed.

Lemma np_sum2_scale (l : list (list R)) (c : R) :
  np_sum2 (map (map (fun a => (a * c)%R)) l) = (np_sum2 l * c)%R.
Proof.
  unfold np_sum2. induction l as [|r l IH]; [unfold np_sum; simpl; lra|].
  change (np_sum (map np_sum (map (map (fun a => (a * c)%R)) (r :: l))))
    with (np_sum (map (fun a => (a * c)%R) r)
          + np_sum (map np_sum (map (map (fun a => (a * c)%R)) l)))%R.
  rewrite IH, np_sum_scale.
  change (np_sum (map np_sum (r :: l))) with (np_sum r + np_sum (map np_sum l))%R.
  lra.
Qed.

Section ExpectationRiemann.
Context {A : Type} `{Amplitude A R}.
Variable ne_evaluate : string -> gmap string (pyvalue R A) -> result (ndarray R).

Lemma expectation_custom_expr_1d_sum x psi expr d dx Obs :
  spacing_1d x = Ok dx ->
  ne_evaluate expr (env_1d x psi (default ∅ d)) = Ok Obs ->
  expectation_custom_expr_1d ne_evaluate x psi expr d
  = Ok (np_sum_nd Obs * dx / (np_sum (map abs2 psi) * dx))%R.
Proof.
  intros Hdx Hev. unfold expectation_custom_expr_1d.
  rewrite Hdx. simpl. rewrite Hev. simpl. do 2 f_equal.
  rewrite <- np_sum_scale, map_map. reflexivity.
Qed.

Lemma expectation_custom_expr_2d_sum X Y psi expr d dx dy Obs :
  spacing_2d X Y = Ok (dx, dy) ->
  ne_evaluate expr (env_2d X Y psi (default ∅ d)) = Ok Obs ->
  expectation_custom_expr_2d ne_evaluate X Y psi expr d
  = Ok (np_sum_nd Obs * dx * dy / (np_sum2 (map (map abs2) psi) * dx * dy))%R.
Proof.
  intros Hdx Hev. unfold expectation_custom_expr_2d.
  rewrite Hdx. simpl. rewrite Hev. simpl. do 2 f_equal.
  rewrite Rmult_assoc, <- np_sum2_scale, map_map.
  f_equal. apply map_ext; intros r. rewrite map_map.
  apply map_ext; intros a. lra.
Qed.
End ExpectationRiemann.




(** ** Flattening of two-dimensional arrays *)

Lemma ravel_nth {A} (a : list (list A)) (Ny i j : nat) (d : A) :
  Forall (fun r => length r = Ny) a -> (j < Ny)%nat ->
  nth (flat_index Ny i j) (ravel a) d = nth j (nth i a []) d.
Proof.
  unfold flat_index, ravel. intros Ha Hj. revert i.
  induction Ha as [|r a Hr Ha IH]; intros i.
  - simpl. destruct (i * Ny + j)%nat, i, j; reflexivity.
  - destruct i as [|i]; simpl.
    + rewrite app_nth1 by lia. reflexivity.
    + rewrite app_nth2 by lia.
      replace (Ny + i * Ny + j - length r)%nat with (i * Ny + j)%nat by lia.
      apply IH.
Qed.

Lemma ravel_length {A} (a : list (list A)) (Ny : nat) :
  Forall (fun r => length r = Ny) a -> length (ravel a) = (length a * Ny)%nat.
Proof.
  unfold ravel. induction 1 as [|r a Hr Ha IH]; simpl; [reflexivity|].
  rewrite length_app, IH, Hr. reflexivity.
Qed.

(** unflattening undoes flattening: [a.ravel().reshape(a.shape) = a] *)
Lemma reshape_ravel {A} (a : list (list A)) (Ny : nat) :
  Forall (fun r => length r = Ny) a -> reshape (length a) Ny (ravel a) = a.
Proof.
  unfold ravel. induction 1 as [|r a Hr Ha IH]; simpl; [reflexivity|].
  rewrite take_app_length' by (symmetry; exact Hr).
  rewrite drop_app_length' by (symmetry; exact Hr).
  rewrite IH. reflexivity.
Qed.

Lemma reshape_length {A} (Nx Ny : nat) (v : list A) :
  length (reshape Nx Ny v) = Nx.
Proof. revert v; induction Nx; intros v; simpl; auto. Qed.

Lemma reshape_rows {A} (Nx Ny : nat) (v : list A) :
  length v = (Nx * Ny)%nat ->
  Forall (fun r => length r = Ny) (reshape Nx Ny v).
Proof.
  revert v; induction Nx as [|Nx IH]; intros v Hv; simpl; constructor.
  - rewrite length_take. simpl in Hv. lia.
  - apply IH. rewrite length_drop. simpl in Hv. lia.
Qed.

Lemma ravel_reshape {A} (Nx Ny : nat) (v : list A) :
  length v = (Nx * Ny)%nat -> ravel (reshape Nx Ny v) = v.
Proof.
  unfold ravel. revert v; induction Nx as [|Nx IH]; intros v Hv; simpl.
  - destruct v; [reflexivity | discriminate].
  - rewrite IH by (rewrite length_drop; simpl in Hv; lia).
    apply take_drop.
Qed.

(** ** The two-dimensional Laplacian against the grid *)

(** where the tridiagonal stencil and the identity store something *)
Lemma laplacian_1d_stored {T} `{Scalar T} (n : nat) (d : T) (a b : nat) :
  is_Some (sp_get (laplacian_1d n d) a b)
  <-> (a < n)%nat /\ (b < n)%nat /\ (a = b \/ S a = b \/ a = S b).
Proof.
  unfold laplacian_1d, sp_div, diags, np_ones, np_full.
  cbn [sp_get combine diag_lookup length Z.abs_nat]. rewrite repeat_length.
  rewrite fmap_is_Some.
  destruct (Nat.ltb_spec a (n - 1 + Pos.to_nat 1)) as [Ha|Ha];
    destruct (Nat.ltb_spec b (n - 1 + Pos.to_nat 1)) as [Hb|Hb];
    cbn [andb]; try (split; [intros [? [=]] | lia]).
  repeat match goal with
         | |- context [(?u =? ?v)%Z] => destruct (Z.eqb_spec u v)
         end.
  - rewrite lookup_lt_is_Some, repeat_length. lia.
  - rewrite lookup_lt_is_Some, repeat_length. lia.
  - rewrite lookup_lt_is_Some, repeat_length. lia.
  - split; [intros [? [=]] | lia].
Qed.

Lemma identity_stored {T} `{Scalar T} (n a b : nat) :
  is_Some (sp_get (identity (T := T) n) a b) <-> (a < n)%nat /\ a = b.
Proof.
  unfold identity, diags, np_ones.
  cbn [sp_get combine diag_lookup length Z.abs_nat]. rewrite repeat_length.
  destruct (Nat.ltb_spec a (n + 0)) as [Ha|Ha];
    destruct (Nat.ltb_spec b (n + 0)) as [Hb|Hb];
    cbn [andb]; try (split; [intros [? [=]] | lia]).
  destruct (Z.eqb_spec (Z.of_nat b - Z.of_nat a) 0).
  - rewrite lookup_lt_is_Some, repeat_length. lia.
  - split; [intros [? [=]] | lia].
Qed.

Lemma kron_stored {T} `{Scalar T} (A B : spmatrix T) (k k' : nat) :
  is_Some (sp_get (kron A B) k k')
  <-> (k < sp_rows A * sp_rows B)%nat /\ (k' < sp_cols A * sp_cols B)%nat
      /\ is_Some (sp_get A (k / sp_rows B) (k' / sp_cols B))
      /\ is_Some (sp_get B (k mod sp_rows B) (k' mod sp_cols B)).
Proof.
  unfold kron. cbn [sp_get].
  destruct (Nat.ltb_spec k (sp_rows A * sp_rows B)) as [Hk|Hk];
    destruct (Nat.ltb_spec k' (sp_cols A * sp_cols B)) as [Hk'|Hk'];
    cbn [andb]; try (split; [intros [? [=]] | lia]).
  rewrite <- !not_eq_None_Some.
  destruct (sp_get A _ _) as [a|], (sp_get B _ _) as [b|];
    intuition congruence.
Qed.

Lemma entry_add_stored {T} `{Scalar T} (a b : option T) :
  is_Some (entry_add a b) <-> is_Some a \/ is_Some b.
Proof.
  destruct a, b; simpl; split; eauto; intros [[? [=]]|[? [=]]].
Qed.

Lemma grid_adjacent_spec (i j i' j' : nat) :
  grid_adjacent (i, j) (i', j') = true
  <-> (i = i' /\ (j = j' \/ S j = j' \/ j = S j'))
      \/ (j = j' /\ (S i = i' \/ i = S i')).
Proof.
  unfold grid_adjacent.
  rewrite !orb_true_iff, !andb_true_iff, !orb_true_iff, !Nat.eqb_eq. tauto.
Qed.

(** The rows of the assembled Laplacian, for every grid size: row [k]
    stores a weight in column [k'] exactly when the grid points
    [(k mod Nx, k / Nx)] and [(k' mod Nx, k' / Nx)] are the same or
    neighbours.  The Kronecker sum is the five-point stencil under the
    ordering [k = j * Nx + i], whereas [ravel] and [reshape] put
    [a[i, j]] at [k = i * Ny + j]. *)
Lemma laplacian_2d_stencil (Nx Ny : nat) (dx dy : R) (Lap : spmatrix R) (k k' : nat) :
  (1 <= Nx)%nat -> (1 <= Ny)%nat ->
  laplacian_2d Nx Ny dx dy = Ok Lap ->
  (k < Nx * Ny)%nat -> (k' < Nx * Ny)%nat ->
  is_Some (sp_get Lap k k')
  <-> grid_adjacent (k mod Nx, k / Nx)%nat (k' mod Nx, k' / Nx)%nat = true.
Proof.
  intros HNx HNy HL Hk Hk'. unfold laplacian_2d, sp_add in HL.
  destruct (_ && _) in HL; [|discriminate].
  apply Ok_inj in HL. subst Lap. sp_beta.
  rewrite entry_add_stored, !kron_stored, !identity_stored, !laplacian_1d_stored.
  rewrite grid_adjacent_spec.
  assert (Hr : forall n (d : R), (1 <= n)%nat ->
             sp_rows (laplacian_1d n d) = n /\ sp_cols (laplacian_1d n d) = n).
  { intros n d Hn. unfold laplacian_1d, sp_div, diags, np_ones.
    cbn [sp_rows sp_cols length Z.abs_nat]. rewrite repeat_length. lia. }
  assert (Hi : forall n, sp_rows (identity (T := R) n) = n
                         /\ sp_cols (identity (T := R) n) = n).
  { intros n. unfold identity, diags, np_ones.
    cbn [sp_rows sp_cols length Z.abs_nat]. rewrite repeat_length. lia. }
  destruct (Hr Nx dx HNx) as [-> ->]. destruct (Hr Ny dy HNy) as [-> ->].
  destruct (Hi Nx) as [-> ->]. destruct (Hi Ny) as [-> ->].
  assert (k mod Nx < Nx)%nat by (apply Nat.mod_upper_bound; lia).
  assert (k' mod Nx < Nx)%nat by (apply Nat.mod_upper_bound; lia).
  assert (k / Nx < Ny)%nat by (apply Nat.Div0.div_lt_upper_bound; lia).
  assert (k' / Nx < Ny)%nat by (apply Nat.Div0.div_lt_upper_bound; lia).
  lia.
Qed.

(** C1 (the code at a grid of 2 x 3 points, unit spacings). In the
    flattened vector the grid point [(0, 2)] sits at index 2, [(1, 0)] at
    index 3 and [(1, 2)] at index 5; the diagonal potential entry of row 2
    is [V[0, 2]].  Row 2 of the Laplacian has the off-diagonal weight
    [1/dx**2] in column 3, although [(0, 2)] and [(1, 0)] are not
    neighbours, and stores nothing in column 5, the index of the
    neighbour [(1, 2)]: the rows of the Kronecker sum follow the ordering
    [j * Nx + i], the potential and the snapshots the ordering
    [i * Ny + j]. *)
Theorem laplacian_2d_ordering_mismatch :
  exists Lap : spmatrix Q,
    laplacian_2d 2 3 1%Q 1%Q = Ok Lap
    /\ flat_index 3 0 2 = 2%nat /\ flat_index 3 1 0 = 3%nat
    /\ flat_index 3 1 2 = 5%nat
    /\ (forall V : list (list Q),
          grid_shaped 2 3 V -> nth 2 (ravel V) 0%Q = nth 2 (nth 0 V []) 0%Q)
    /\ (exists w, sp_get Lap 2 3 = Some w /\ (w == 1)%Q)
    /\ grid_adjacent (0, 2)%nat (1, 0)%nat = false
    /\ sp_get Lap 2 5 = None
    /\ grid_adjacent (0, 2)%nat (1, 2)%nat = true.
Proof.
  eexists. split; [reflexivity|].
  repeat (split; [reflexivity|]).
  split.
  { intros V [_ HV]. apply (ravel_nth V 3 0 2 0%Q HV). lia. }
  split; [eexists; split; [vm_compute; reflexivity | reflexivity]|].
  repeat split; reflexivity.
Qed.

(** ** Simulation archives *)

Lemma string_app_length (s t : string) :
  String.length (s ++ t) = (String.length s + String.length t)%nat.
Proof. induction s as [|c s IH]; simpl; [reflexivity | rewrite IH; reflexivity]. Qed.

Lemma string_app_inj_l (t s1 s2 : string) :
  (s1 ++ t)%string = (s2 ++ t)%string -> s1 = s2.
Proof.
  revert s2; induction s1 as [|c s1 IH]; intros [|c' s2] E.
  - reflexivity.
  - apply (f_equal String.length) in E.
    rewrite !string_app_length in E. simpl in E. lia.
  - apply (f_equal String.length) in E.
    rewrite !string_app_length in E. simpl in E. lia.
  - simpl in E. injection E as -> E. f_equal. apply IH, E.
Qed.

#[local] Instance member_name_inj : Inj (=) (=) (fun name : string => (name ++ ".npy")%string).
Proof. intros s1 s2. apply string_app_inj_l. Qed.

Lemma npz_path_suffix (file : string) :
  endswith file ".npz" = true -> npz_path file = file.
Proof. unfold npz_path. intros ->. reflexivity. Qed.

Section ArchiveRoundTrip.
Variable array : Type.
Variable npy_write : array -> bytes.
Variable npy_read : bytes -> result array.
Variable deflate inflate : bytes -> bytes.
Hypothesis npy_roundtrip : forall a, npy_read (npy_write a) = Ok a.
Hypothesis deflate_lossless : forall b, inflate (deflate b) = b.

Lemma savez_member (kwargs : gmap string array) (name : string) :
  npz_members npy_write deflate kwargs !! (name ++ ".npy")%string
  = (fun a => deflate (npy_write a)) <$> (kwargs !! name).
Proof using Type.
  unfold npz_members. rewrite (lookup_kmap (fun name : string => (name ++ ".npy")%string)).
  apply lookup_fmap.
Qed.

Lemma save_simulation_ok fs filename (kwargs : gmap string array) :
  kwargs !! "filename" = None -> kwargs !! "file" = None ->
  save_simulation npy_write deflate fs filename kwargs
  = Ok (<[npz_path filename := npz_members npy_write deflate kwargs]> fs).
Proof using Type.
  intros Hname Hfile. unfold save_simulation, np_savez_compressed.
  destruct (decide (is_Some (kwargs !! "filename"))) as [[? Hs]|_];
    [congruence|].
  destruct (decide (is_Some (kwargs !! "file"))) as [[? Hs]|_];
    [congruence | reflexivity].
Qed.

Lemma savez_member_raw (kwargs : gmap string array) (key : string) :
  is_Some (npz_members npy_write deflate kwargs !! key)
  <-> exists n, key = (n ++ ".npy")%string /\ is_Some (kwargs !! n).
Proof using Type.
  split.
  - intros [m Hm]. unfold npz_members in Hm.
    apply (lookup_kmap_Some (fun name : string => (name ++ ".npy")%string)) in Hm
      as (n & -> & Hn).
    exists n. split; [reflexivity|].
    rewrite lookup_fmap in Hn. destruct (kwargs !! n); [eauto | discriminate].
  - intros (n & -> & [a Ha]). rewrite savez_member, Ha. eauto.
Qed.

Lemma npz_getitem_member (kwargs : gmap string array) n a :
  kwargs !! n = Some a ->
  npz_getitem npy_read inflate (npz_members npy_write deflate kwargs)
    (n ++ ".npy") = Ok a.
Proof using npy_roundtrip deflate_lossless.
  intros Hn. unfold npz_getitem. rewrite savez_member, Hn. simpl.
  rewrite deflate_lossless. apply npy_roundtrip.
Qed.

Lemma npz_getitem_saved (kwargs : gmap string array) name a :
  kwargs !! name = Some a ->
  (forall n, name = (n ++ ".npy")%string -> kwargs !! n = None) ->
  npz_getitem npy_read inflate (npz_members npy_write deflate kwargs) name
  = Ok a.
Proof using npy_roundtrip deflate_lossless.
  intros Hn Hfree. unfold npz_getitem.
  destruct (npz_members npy_write deflate kwargs !! name) as [m|] eqn:Hraw.
  - exfalso. destruct (proj1 (savez_member_raw kwargs name)) as (n & E & [b Hb]);
      [eauto|]. rewrite (Hfree n E) in Hb. discriminate.
  - rewrite savez_member, Hn. simpl.
    rewrite deflate_lossless. apply npy_roundtrip.
Qed.
End ArchiveRoundTrip.




(** ** Infinite potentials in the dense one-dimensional solve *)

Lemma toarray_nth {T} `{Scalar T} (A : spmatrix T) (i j : nat) (d : T) :
  (i < sp_rows A)%nat -> (j < sp_cols A)%nat ->
  nth j (nth i (toarray A) []) d = sp_entry A i j.
Proof.
  intros Hi Hj. unfold toarray.
  rewrite nth_map_seq by exact Hi. rewrite nth_map_seq by exact Hj.
  reflexivity.
Qed.

Lemma toarray_length {T} `{Scalar T} (A : spmatrix T) :
  length (toarray A) = sp_rows A.
Proof. unfold toarray. rewrite length_map, length_seq. reflexivity. Qed.

Lemma forallb_nth_false {A} (f : A -> bool) (l : list A) (i : nat) (d : A) :
  (i < length l)%nat -> f (nth i l d) = false -> forallb f l = false.
Proof.
  intros Hi Hf. destruct (forallb f l) eqn:E; [|reflexivity].
  rewrite forallb_forall in E. rewrite E in Hf; [discriminate|].
  apply nth_In, Hi.
Qed.

Lemma sp_add_ok {T} `{Scalar T} (A B : spmatrix T) :
  sp_rows A = sp_rows B -> sp_cols A = sp_cols B ->
  sp_add A B
  = Ok (SpMatrix (sp_rows A) (sp_cols A)
          (fun i j => entry_add (sp_get A i j) (sp_get B i j))).
Proof.
  intros Hr Hc. unfold sp_add. rewrite <- Hr, <- Hc, !Nat.eqb_refl. reflexivity.
Qed.

Lemma sp_sub_ok {T} `{Scalar T} (A B : spmatrix T) :
  sp_rows A = sp_rows B -> sp_cols A = sp_cols B ->
  sp_sub A B
  = Ok (SpMatrix (sp_rows A) (sp_cols A)
          (fun i j => entry_sub (sp_get A i j) (sp_get B i j))).
Proof.
  intros Hr Hc. unfold sp_sub. rewrite <- Hr, <- Hc, !Nat.eqb_refl. reflexivity.
Qed.

Lemma diags_main_shape {T} `{Scalar T} (V : list T) :
  sp_rows (diags [V] [0%Z]) = length V /\ sp_cols (diags [V] [0%Z]) = length V.
Proof. unfold diags. simpl. lia. Qed.

(** the diagonal of the tridiagonal stencil *)
Lemma laplacian_1d_diag {T} `{Scalar T} (n i : nat) (d : T) :
  (i < n)%nat ->
  sp_get (laplacian_1d n d) i i = Some ((- s2) / (d * d))%S.
Proof.
  intros Hi. unfold laplacian_1d, sp_div, diags, np_full, np_ones. simpl.
  rewrite repeat_length.
  replace (n - 1 + Pos.to_nat 1)%nat with (S (n - 1)) by lia.
  destruct (Nat.ltb_spec i (S (n - 1))) as [_|?]; [|lia]. simpl.
  destruct (Z.eqb_spec (Z.of_nat i - Z.of_nat i) (-1)) as [?|_]; [lia|].
  rewrite Z.sub_diag. simpl. rewrite Nat.min_id.
  rewrite (nth_lookup_Some (repeat (- s2)%S n) i (- s2)%S)
    by (rewrite repeat_length; exact Hi).
  rewrite nth_repeat. reflexivity.
Qed.

Lemma laplacian_1d_shape {T} `{Scalar T} (n : nat) (d : T) :
  (1 <= n)%nat ->
  sp_rows (laplacian_1d n d) = n /\ sp_cols (laplacian_1d n d) = n.
Proof.
  intros Hn. unfold laplacian_1d, sp_div, diags, np_ones. simpl.
  rewrite repeat_length. lia.
Qed.

Lemma diags_main {T} `{Scalar T} (V : list T) (i : nat) :
  sp_get (diags [V] [0%Z]) i i = V !! i.
Proof.
  unfold diags. simpl. rewrite Nat.add_0_r.
  destruct (Nat.ltb_spec i (length V)) as [Hi|Hi]; simpl.
  - rewrite Z.sub_diag. simpl. rewrite Nat.min_id. reflexivity.
  - symmetry. apply lookup_ge_None_2. exact Hi.
Qed.

(** on binary64 values the division by [dx**2 = 0] leaves no finite entry
    on the diagonal of the Laplacian: [-2.0 / 0.0 = -inf] *)
Lemma laplacian_1d_zero_spacing (n i : nat) :
  (i < n)%nat -> sp_get (laplacian_1d n (Fin 0)) i i = Some NInf.
Proof.
  intros Hi. rewrite laplacian_1d_diag by exact Hi. f_equal.
  simpl. unfold xinf_signed. real_tests. reflexivity.
Qed.

(** an infinite potential entry goes through the assembly unchanged *)
Lemma hamiltonian_1d_infinite_entry (N : nat) (V : list xreal) (dx m h : R) (i : nat) :
  dx <> 0%R -> m <> 0%R -> length V = N -> V !! i = Some PInf ->
  exists Hm : spmatrix xreal,
    hamiltonian_1d N (Fin dx) V (Fin m) (Fin h) = Ok Hm
    /\ sp_rows Hm = N /\ sp_cols Hm = N
    /\ sp_get Hm i i = Some PInf.
Proof.
  intros Hdx0 Hm0 HV Hi.
  assert (HiN : (i < N)%nat).
  { rewrite <- HV. apply lookup_lt_Some in Hi. exact Hi. }
  assert (Hc : kinetic_factor (Fin m) (Fin h)
               = Ok (Fin (- (h * h) / ((1 + 1) * m)))).
  { unfold kinetic_factor, pydiv. simpl.
    rewrite !Rzerob_false by lra. reflexivity. }
  destruct (laplacian_1d_shape N (Fin dx)) as [Hr Hcl]; [lia|].
  unfold hamiltonian_1d. rewrite Hc. simpl mbind.
  destruct (diags_main_shape V) as [HVr HVc].
  rewrite sp_add_ok
    by (unfold sp_scale; cbn [sp_rows sp_cols]; congruence).
  eexists. split; [reflexivity|].
  unfold sp_scale; cbn [sp_rows sp_cols sp_get].
  split; [exact Hr|]. split; [exact Hcl|].
  rewrite laplacian_1d_diag by exact HiN. rewrite diags_main, Hi. simpl.
  rewrite Rzerob_false by nra. reflexivity.
Qed.

(** one entry that is not finite makes [eigh]'s test fail *)
Lemma toarray_not_finite {T} `{Scalar T} (A : spmatrix T) (i j : nat) :
  (i < sp_rows A)%nat -> (j < sp_cols A)%nat ->
  sfinite (sp_entry A i j) = false ->
  forallb (forallb sfinite) (toarray A) = false.
Proof.
  intros Hi Hj Hf.
  apply (forallb_nth_false _ (toarray A) i []).
  - rewrite toarray_length. exact Hi.
  - apply (forallb_nth_false _ _ j s0).
    + unfold toarray. rewrite nth_map_seq by exact Hi.
      rewrite length_map, length_seq. exact Hj.
    + rewrite toarray_nth by assumption. exact Hf.
Qed.

Lemma well_potential_values : well_potential = [PInf; Fin 0; PInf].
Proof.
  unfold well_potential, well_grid, infinite_well_1d. simpl.
  real_tests. reflexivity.
Qed.

(** C7 (as the code has it). The dense one-dimensional path does nothing
    about infinite potential entries.  On a finite grid with non-zero
    spacing, finite non-zero mass and finite [hbar], an entry
    [V[i] = +inf] is added to the finite kinetic diagonal term, so that
    the dense matrix passed to the eigen-decomposition has [+inf] at
    [(i, i)]; [scipy.linalg.eigh] refuses the matrix ([ValueError]) and
    the solve fails, whatever LAPACK would do. *)
Theorem infinite_potential_reaches_dense_matrix
  (lapack : list (list xreal) -> result (list xreal * list (list xreal)))
  (x V : list xreal) (dx m h : R) (num_eigen : Z) (i : nat) :
  spacing_1d x = Ok (Fin dx) -> dx <> 0%R -> m <> 0%R ->
  length V = length x ->
  V !! i = Some PInf ->
  exists Hm : spmatrix xreal,
    hamiltonian_1d (length x) (Fin dx) V (Fin m) (Fin h) = Ok Hm
    /\ nth i (nth i (toarray Hm) []) s0 = PInf
    /\ forallb (forallb sfinite) (toarray Hm) = false
    /\ solve_time_independent_1d lapack x V (Fin m) (Fin h) num_eigen
       = Err ValueError.
Proof.
  intros Hdx Hdx0 Hm0 HV Hi.
  assert (HiN : (i < length x)%nat).
  { rewrite <- HV. apply lookup_lt_Some in Hi. exact Hi. }
  destruct (hamiltonian_1d_infinite_entry (length x) V dx m h i Hdx0 Hm0 HV Hi)
    as (Hm & HHm & Hrows & Hcols & Hii).
  assert (Hentry : sp_entry Hm i i = PInf).
  { unfold sp_entry. rewrite Hii. reflexivity. }
  assert (Hfin : forallb (forallb sfinite) (toarray Hm) = false).
  { apply (toarray_not_finite Hm i i); try lia. rewrite Hentry. reflexivity. }
  exists Hm. split; [exact HHm|].
  split; [rewrite toarray_nth by lia; exact Hentry|].
  split; [exact Hfin|].
  unfold solve_time_independent_1d. rewrite Hdx. simpl mbind at 1.
  rewrite HHm. simpl mbind at 1. unfold eigh. rewrite Hfin. reflexivity.
Qed.

Lemma infinite_potential_reaches_dense_matrix_witness :
  solve_time_independent_1d lapack_unreached well_grid well_potential
    (Fin 1) (Fin 1) 3 = Err ValueError.
Proof.
  destruct (infinite_potential_reaches_dense_matrix lapack_unreached
              well_grid well_potential (0 + - -1)%R 1%R 1%R 3%Z O)
    as (Hm & _ & _ & _ & Hsolve).
  - reflexivity.
  - lra.
  - lra.
  - reflexivity.
  - rewrite well_potential_values. reflexivity.
  - exact Hsolve.
Defined.

(** C7, as stated, fails: the infinite square well with walls at
    [-1/2] and [1/2] on the grid [-1, 0, 1] has two infinite entries, and
    the dense matrix built from it is not finite. *)
Lemma infinite_well_not_masked :
  In PInf well_potential
  /\ exists Hm : spmatrix xreal,
       hamiltonian_1d (length well_grid) (Fin (0 + - -1)) well_potential
         (Fin 1) (Fin 1) = Ok Hm
       /\ forallb (forallb sfinite) (toarray Hm) = false.
Proof.
  split; [rewrite well_potential_values; left; reflexivity|].
  destruct (hamiltonian_1d_infinite_entry (length well_grid) well_potential
              (0 + - -1)%R 1%R 1%R O)
    as (Hm & HHm & Hrows & Hcols & Hii).
  - lra.
  - lra.
  - reflexivity.
  - rewrite well_potential_values. reflexivity.
  - exists Hm. split; [exact HHm|].
    apply (toarray_not_finite Hm 0 0).
    + rewrite Hrows. simpl. lia.
    + rewrite Hcols. simpl. lia.
    + unfold sp_entry. rewrite Hii. reflexivity.
Qed.

(** ** The stationary solvers: how many eigenpairs, in which order *)

Lemma all_finite_R (a : list (list R)) : forallb (forallb sfinite) a = true.
Proof. apply forallb_forall. intros r _. apply forallb_forall. reflexivity. Qed.

Lemma kinetic_factor_R (mass hbar : R) :
  mass <> 0%R ->
  kinetic_factor mass hbar = Ok (- (hbar * hbar) / ((1 + 1) * mass))%R.
Proof.
  intros Hm. unfold kinetic_factor, pydiv. simpl.
  rewrite Rzerob_false by lra. reflexivity.
Qed.

Lemma hamiltonian_1d_R (N : nat) (dx : R) (V : list R) (mass hbar : R) :
  (1 <= N)%nat -> length V = N -> mass <> 0%R ->
  hamiltonian_1d N dx V mass hbar
  = Ok (SpMatrix N N
          (fun i j =>
             entry_add
               (option_map (fun a => (- (hbar * hbar) / ((1 + 1) * mass) * a)%R)
                           (sp_get (laplacian_1d N dx) i j))
               (sp_get (diags [V] [0%Z]) i j))).
Proof.
  intros HN HV Hm. unfold hamiltonian_1d.
  rewrite kinetic_factor_R by exact Hm. simpl mbind.
  destruct (laplacian_1d_shape N dx HN) as [Hr Hc].
  destruct (diags_main_shape V) as [HVr HVc].
  rewrite sp_add_ok
    by (unfold sp_scale; cbn [sp_rows sp_cols]; congruence).
  unfold sp_scale; cbn [sp_rows sp_cols sp_get]. rewrite Hr, Hc. reflexivity.
Qed.

Lemma py_take_in_range {A} (k : Z) (l : list A) :
  (0 <= k)%Z -> py_take k l = take (Z.to_nat k) l.
Proof. intros Hk. unfold py_take. destruct (Z.leb_spec 0 k); [reflexivity|lia]. Qed.

Lemma Sorted_take {A} (R : A -> A -> Prop) (l : list A) (n : nat) :
  Sorted R l -> Sorted R (take n l).
Proof.
  intros Hs. revert n. induction Hs as [|a l Hs IH Hhd]; intros [|n]; simpl;
    try constructor.
  - apply IH.
  - destruct Hhd as [|b l' Hab]; destruct n; simpl; constructor. exact Hab.
Qed.

Lemma normalize_column_shape (x : list R) (wf wf' : list (list R)) (n : nat) :
  normalize_column x wf n = Ok wf' -> shape2 wf' = shape2 wf.
Proof.
  unfold normalize_column. destruct (_ <? _)%nat; [|discriminate].
  intros [= <-]. unfold shape2. rewrite length_map. f_equal.
  destruct wf as [|r wf]; [reflexivity|]. simpl. apply length_insert.
Qed.

Lemma normalize_columns_ok (x : list R) (cols : nat) (l : list nat) :
  Forall (fun n => (n < cols)%nat) l ->
  forall wf, snd (shape2 wf) = cols ->
  exists wf', for_each (normalize_column x) wf l = Ok wf'
              /\ shape2 wf' = shape2 wf.
Proof.
  induction 1 as [|n l Hn Hl IH]; intros wf Hwf; simpl.
  - exists wf. split; reflexivity.
  - destruct (normalize_column x wf n) as [wf1|e] eqn:E.
    + pose proof (normalize_column_shape _ _ _ _ E) as Hs.
      destruct (IH wf1) as (wf' & Hfe & Hs'); [rewrite Hs; exact Hwf|].
      exists wf'. simpl. split; [exact Hfe | congruence].
    + exfalso. unfold normalize_column in E. rewrite Hwf in E.
      destruct (Nat.ltb_spec n cols); [discriminate | lia].
Qed.

Lemma seq_Forall_lt (s n : nat) : Forall (fun i => (i < s + n)%nat) (seq s n).
Proof. apply List.Forall_forall. intros i Hi. apply in_seq in Hi. lia. Qed.

(** the loop of lines 38-40 runs through when [num_eigen] columns exist *)
Lemma solve_1d_in_range lapack (x V : list R) (mass hbar : R) (K : Z)
  (E : list R) (U : list (list R)) :
  (2 <= length x)%nat -> length V = length x -> mass <> 0%R ->
  (forall Hm, hamiltonian_1d (length x) (nth 1 x 0 - nth 0 x 0)%R V mass hbar = Ok Hm ->
              lapack (toarray Hm) = Ok (E, U)) ->
  length U = length x -> Forall (fun r => length r = length x) U ->
  (0 <= K <= Z.of_nat (length x))%Z ->
  exists U', solve_time_independent_1d lapack x V mass hbar K
             = Ok (take (Z.to_nat K) E, U')
             /\ shape2 U' = (length x, Z.to_nat K).
Proof.
  intros Hx HV Hm Hlap HU HUr HK. unfold solve_time_independent_1d, spacing_1d.
  rewrite (getitem_nth x 1 0%R), (getitem_nth x 0 0%R) by lia. do 3 step.
  change (nth 1 x 0%R - nth 0 x 0%R)%S with (nth 1 x 0 - nth 0 x 0)%R.
  assert (HN1 : (1 <= length x)%nat) by lia.
  pose proof (hamiltonian_1d_R (length x) (nth 1 x 0 - nth 0 x 0)%R V mass hbar
                HN1 HV Hm) as HH.
  rewrite HH. step. unfold eigh. rewrite all_finite_R.
  rewrite (Hlap _ HH). step.
  rewrite py_take_in_range by lia.
  set (wf := map (py_take K) U).
  assert (Hwf : snd (shape2 wf) = Z.to_nat K).
  { subst wf. unfold shape2. destruct U as [|r U]; [simpl in HU; lia|]. simpl.
    rewrite py_take_in_range by lia. rewrite length_take.
    apply Forall_inv in HUr. lia. }
  destruct (normalize_columns_ok x (Z.to_nat K) (py_range K) (seq_Forall_lt 0 _) wf Hwf)
    as (wf' & Hfe & Hs).
  rewrite Hfe. simpl. exists wf'. split; [reflexivity|].
  rewrite Hs. unfold shape2 in *. simpl in Hwf. rewrite Hwf. subst wf.
  rewrite length_map, HU. reflexivity.
Qed.

(** ... and stops with [IndexError] at the first column that does not *)
Lemma solve_1d_out_of_range lapack (x V : list R) (mass hbar : R) (K : Z)
  (E : list R) (U : list (list R)) :
  (2 <= length x)%nat -> length V = length x -> mass <> 0%R ->
  (forall Hm, hamiltonian_1d (length x) (nth 1 x 0 - nth 0 x 0)%R V mass hbar = Ok Hm ->
              lapack (toarray Hm) = Ok (E, U)) ->
  length U = length x -> Forall (fun r => length r = length x) U ->
  (Z.of_nat (length x) < K)%Z ->
  solve_time_independent_1d lapack x V mass hbar K = Err IndexError.
Proof.
  intros Hx HV Hm Hlap HU HUr HK. unfold solve_time_independent_1d, spacing_1d.
  rewrite (getitem_nth x 1 0%R), (getitem_nth x 0 0%R) by lia. do 3 step.
  change (nth 1 x 0%R - nth 0 x 0%R)%S with (nth 1 x 0 - nth 0 x 0)%R.
  assert (HN1 : (1 <= length x)%nat) by lia.
  pose proof (hamiltonian_1d_R (length x) (nth 1 x 0 - nth 0 x 0)%R V mass hbar
                HN1 HV Hm) as HH.
  rewrite HH. step. unfold eigh. rewrite all_finite_R.
  rewrite (Hlap _ HH). step.
  set (wf := map (py_take K) U).
  assert (Hwf : snd (shape2 wf) = length x).
  { subst wf. unfold shape2. destruct U as [|r U]; [simpl in HU; lia|]. simpl.
    rewrite py_take_in_range by lia. rewrite length_take.
    apply Forall_inv in HUr. lia. }
  unfold py_range.
  replace (Z.to_nat K) with (length x + (Z.to_nat K - length x))%nat by lia.
  rewrite seq_app, for_each_app.
  destruct (normalize_columns_ok x (length x) (seq 0 (length x)) (seq_Forall_lt 0 _) wf Hwf)
    as (wf' & Hfe & Hs).
  rewrite Hfe. simpl mbind at 1.
  destruct (Z.to_nat K - length x)%nat as [|d] eqn:Ed; [lia|].
  simpl. unfold normalize_column. rewrite Hs, Hwf, Nat.ltb_irrefl. reflexivity.
Qed.

Lemma identity_shape {T} `{Scalar T} (n : nat) :
  sp_rows (identity (T := T) n) = n /\ sp_cols (identity (T := T) n) = n.
Proof. unfold identity, diags, np_ones. simpl. rewrite repeat_length. lia. Qed.

Lemma laplacian_2d_R (Nx Ny : nat) (dx dy : R) :
  (1 <= Nx)%nat -> (1 <= Ny)%nat ->
  laplacian_2d Nx Ny dx dy
  = Ok (SpMatrix (Ny * Nx) (Ny * Nx)
          (fun i j =>
             entry_add (sp_get (kron (identity Ny) (laplacian_1d Nx dx)) i j)
                       (sp_get (kron (laplacian_1d Ny dy) (identity Nx)) i j))).
Proof.
  intros Hx Hy. unfold laplacian_2d.
  destruct (laplacian_1d_shape Nx dx Hx) as [Hxr Hxc].
  destruct (laplacian_1d_shape Ny dy Hy) as [Hyr Hyc].
  destruct (identity_shape (T := R) Nx) as [Hixr Hixc].
  destruct (identity_shape (T := R) Ny) as [Hiyr Hiyc].
  rewrite sp_add_ok by (unfold kron; cbn [sp_rows sp_cols]; congruence).
  unfold kron at 1 2. cbn [sp_rows sp_cols]. rewrite Hxr, Hxc, Hiyr, Hiyc.
  reflexivity.
Qed.

Lemma hamiltonian_2d_R (Nx Ny : nat) (dx dy : R) (V : list (list R)) (mass hbar : R) :
  (1 <= Nx)%nat -> (1 <= Ny)%nat -> length (ravel V) = (Nx * Ny)%nat ->
  mass <> 0%R ->
  hamiltonian_2d Nx Ny dx dy V mass hbar
  = Ok (SpMatrix (Ny * Nx) (Ny * Nx)
          (fun i j =>
             entry_add
               (option_map
                  (fun a => (- (hbar * hbar) / ((1 + 1) * mass) * a)%R)
                  (entry_add
                     (sp_get (kron (identity Ny) (laplacian_1d Nx dx)) i j)
                     (sp_get (kron (laplacian_1d Ny dy) (identity Nx)) i j)))
               (sp_get (diags [ravel V] [0%Z]) i j))).
Proof.
  intros Hx Hy HV Hm. unfold hamiltonian_2d.
  rewrite laplacian_2d_R by assumption. step.
  rewrite kinetic_factor_R by exact Hm. step.
  destruct (diags_main_shape (ravel V)) as [HVr HVc].
  rewrite sp_add_ok
    by (unfold sp_scale; cbn [sp_rows sp_cols]; rewrite ?HVr, ?HVc, HV; apply Nat.mul_comm).
  reflexivity.
Qed.

Lemma reshape_column_length (X Y U : list (list R)) acc acc' n :
  reshape_column X Y U acc n = Ok acc' -> length acc' = length acc.
Proof.
  unfold reshape_column. destruct (shape2 X) as [Nx Ny].
  destruct (_ <? _)%nat; [|discriminate].
  destruct (_ =? _)%nat; [|discriminate].
  intros [= <-]. apply length_insert.
Qed.

Lemma reshape_columns_ok (X Y U : list (list R)) (l : list nat) :
  Forall (fun n => (n < snd (shape2 U))%nat) l ->
  length U = (fst (shape2 X) * snd (shape2 X))%nat ->
  forall acc, exists acc',
      for_each (reshape_column X Y U) acc l = Ok acc'
      /\ length acc' = length acc.
Proof.
  intros Hl HU. induction Hl as [|n l Hn Hl IH]; intros acc; simpl.
  - exists acc. split; reflexivity.
  - destruct (reshape_column X Y U acc n) as [acc1|e] eqn:E.
    + destruct (IH acc1) as (acc' & Hfe & Hlen). exists acc'.
      split; [exact Hfe|]. rewrite Hlen. eapply reshape_column_length, E.
    + exfalso. unfold reshape_column in E.
      destruct (shape2 X) as [Nx Ny]. simpl in HU.
      destruct (Nat.ltb_spec n (snd (shape2 U))); [|lia].
      rewrite HU, Nat.eqb_refl in E. discriminate.
Qed.

(** in range, the two-dimensional solve returns what [eigsh] found *)
Lemma solve_2d_in_range eigsh (X Y V : list (list R)) (Nx Ny : nat)
  (dx dy mass hbar : R) (K : Z) :
  shape2 X = (Nx, Ny) -> (1 <= Nx)%nat -> (1 <= Ny)%nat ->
  spacing_2d X Y = Ok (dx, dy) ->
  length (ravel V) = (Nx * Ny)%nat -> mass <> 0%R ->
  (forall Hm, hamiltonian_2d Nx Ny dx dy V mass hbar = Ok Hm ->
              eigsh_shape_contract Hm K (eigsh Hm K SM)) ->
  (0 < K < Z.of_nat (Nx * Ny))%Z ->
  exists Hm E U W,
    hamiltonian_2d Nx Ny dx dy V mass hbar = Ok Hm
    /\ eigsh Hm K SM = Ok (E, U)
    /\ solve_time_independent_2d eigsh X Y V mass hbar K = Ok (E, W)
    /\ length E = Z.to_nat K /\ Sorted Rle E /\ length W = Z.to_nat K.
Proof.
  intros HX Hx Hy Hsp HV Hm Hc HK.
  pose proof (hamiltonian_2d_R Nx Ny dx dy V mass hbar Hx Hy HV Hm) as HH.
  specialize (Hc _ HH). unfold eigsh_shape_contract in Hc. cbn [sp_rows] in Hc.
  assert (Hb : ((K <=? 0)%Z || (Z.of_nat (Ny * Nx) <=? K)%Z) = false).
  { apply orb_false_iff. split; apply Z.leb_gt; lia. }
  rewrite Hb in Hc. destruct Hc as (E & U & Hres & HE & HU & HUr & Hsorted).
  assert (HUs : shape2 U = ((Ny * Nx)%nat, Z.to_nat K)).
  { unfold shape2. rewrite HU. f_equal.
    destruct U as [|r U]; [simpl in HU; lia|]. apply Forall_inv in HUr. exact HUr. }
  destruct (reshape_columns_ok X Y U (py_range K)) with
    (acc := repeat (repeat (repeat (s0 : R) Ny) Nx) (Z.to_nat K))
    as (W & Hfe & HW).
  { rewrite HUs. apply (seq_Forall_lt 0). }
  { rewrite HX, HU. apply Nat.mul_comm. }
  eexists _, E, U, W. split; [exact HH|]. split; [exact Hres|].
  split.
  - unfold solve_time_independent_2d. rewrite HX, Hsp. step.
    rewrite HH. step. rewrite Hres. step. rewrite Hfe. reflexivity.
  - rewrite HW, repeat_length. auto.
Qed.

(** out of range, [eigsh] refuses [k] and the solve fails *)
Lemma solve_2d_out_of_range eigsh (X Y V : list (list R)) (Nx Ny : nat)
  (dx dy mass hbar : R) (K : Z) :
  shape2 X = (Nx, Ny) -> (1 <= Nx)%nat -> (1 <= Ny)%nat ->
  spacing_2d X Y = Ok (dx, dy) ->
  length (ravel V) = (Nx * Ny)%nat -> mass <> 0%R ->
  (forall Hm, hamiltonian_2d Nx Ny dx dy V mass hbar = Ok Hm ->
              eigsh_shape_contract Hm K (eigsh Hm K SM)) ->
  (K <= 0 \/ Z.of_nat (Nx * Ny) <= K)%Z ->
  exists e, solve_time_independent_2d eigsh X Y V mass hbar K = Err e.
Proof.
  intros HX Hx Hy Hsp HV Hm Hc HK.
  pose proof (hamiltonian_2d_R Nx Ny dx dy V mass hbar Hx Hy HV Hm) as HH.
  specialize (Hc _ HH). unfold eigsh_shape_contract in Hc. cbn [sp_rows] in Hc.
  assert (Hb : ((K <=? 0)%Z || (Z.of_nat (Ny * Nx) <=? K)%Z) = true).
  { apply orb_true_iff. destruct HK; [left | right]; apply Z.leb_le; lia. }
  rewrite Hb in Hc. destruct Hc as [e He]. exists e.
  unfold solve_time_independent_2d. rewrite HX, Hsp. step.
  rewrite HH. step. rewrite He. reflexivity.
Qed.

Lemma lapack_two_point_contract (Hm : spmatrix R) :
  hamiltonian_1d (length two_point_grid)
    (nth 1 two_point_grid 0 - nth 0 two_point_grid 0)%R
    two_point_potential 1%R 1%R = Ok Hm ->
  lapack_contract (toarray Hm) (lapack_two_point (toarray Hm)).
Proof.
  rewrite hamiltonian_1d_R by (try reflexivity; try lra; simpl; lia).
  intros [= <-]. unfold lapack_contract, lapack_two_point.
  eexists _, _. split; [reflexivity|]. rewrite toarray_length. cbn [sp_rows].
  repeat split; try reflexivity.
  - repeat constructor.
  - repeat constructor. lra.
Qed.

Lemma eigsh_square_shape (Hm : spmatrix R) :
  hamiltonian_2d 2 2 (1 - 0)%R (1 - 0)%R square_V 1%R 1%R = Ok Hm ->
  eigsh_shape_contract Hm 1 (eigsh_square_SM Hm 1 SM).
Proof.
  rewrite hamiltonian_2d_R by (try reflexivity; try lra; simpl; lia).
  intros [= <-]. unfold eigsh_shape_contract, eigsh_square_SM. cbn [sp_rows].
  simpl orb. cbv iota.
  eexists _, _. split; [reflexivity|].
  repeat split; try reflexivity; repeat constructor.
Qed.




(** ** Which eigenvalues the two-dimensional stationary solve returns *)

(** the Hamiltonian of the 2 x 2 grid, applied to a vector *)
Lemma square_hamiltonian_dot (Hm : spmatrix R) (a b c d : R) :
  hamiltonian_2d 2 2 (1 - 0)%R (1 - 0)%R square_V 1%R 1%R = Ok Hm ->
  sp_rows Hm = 4%nat /\ sp_cols Hm = 4%nat
  /\ sp_dot Hm [a; b; c; d]
     = [(- (1 / 4) * a - 1 / 2 * b - 1 / 2 * c)%R;
        (- (1 / 2) * a - 1 / 4 * b - 1 / 2 * d)%R;
        (- (1 / 2) * a - 1 / 4 * c - 1 / 2 * d)%R;
        (- (1 / 2) * b - 1 / 2 * c - 1 / 4 * d)%R].
Proof.
  rewrite hamiltonian_2d_R by (try reflexivity; try lra; simpl; lia).
  intros [= <-]. split; [reflexivity|]. split; [reflexivity|].
  cbv -[Rplus Rminus Rmult Rdiv Ropp Rinv IZR].
  repeat (apply (f_equal2 cons); [field|]). reflexivity.
Qed.

Lemma list_of_length_4 {A} (v : list A) :
  length v = 4%nat -> exists a b c d, v = [a; b; c; d].
Proof.
  destruct v as [|a [|b [|c [|d [|e v]]]]]; try discriminate.
  intros _. exists a, b, c, d. reflexivity.
Qed.

(** the spectrum of that Hamiltonian is [{-5/4, -1/4, 3/4}] *)
Lemma square_spectrum (Hm : spmatrix R) (lam : R) :
  hamiltonian_2d 2 2 (1 - 0)%R (1 - 0)%R square_V 1%R 1%R = Ok Hm ->
  is_eigenvalue Hm lam ->
  lam = (-5 / 4)%R \/ lam = (-1 / 4)%R \/ lam = (3 / 4)%R.
Proof.
  intros HH (v & Hlen & (i & Hnz) & Hdot).
  destruct (square_hamiltonian_dot Hm 0 0 0 0 HH) as (_ & Hcols & _).
  rewrite Hcols in Hlen.
  destruct (list_of_length_4 v Hlen) as (a & b & c & d & ->).
  destruct (square_hamiltonian_dot Hm a b c d HH) as (_ & _ & Hd).
  rewrite Hd in Hdot. injection Hdot as E1 E2 E3 E4.
  assert (S1 : ((lam + 5 / 4) * (a + b + c + d) = 0)%R) by lra.
  assert (S2 : ((lam + 1 / 4) * (a - b + c - d) = 0)%R) by lra.
  assert (S3 : ((lam + 1 / 4) * (a + b - c - d) = 0)%R) by lra.
  assert (S4 : ((lam - 3 / 4) * (a - b - c + d) = 0)%R) by lra.
  destruct (Req_dec lam (-5 / 4)) as [?|N1]; [left; assumption|].
  destruct (Req_dec lam (-1 / 4)) as [?|N2]; [right; left; assumption|].
  destruct (Req_dec lam (3 / 4)) as [?|N3]; [right; right; assumption|].
  exfalso.
  apply Rmult_integral in S1, S2, S3, S4.
  destruct S1 as [?|S1]; [lra|]. destruct S2 as [?|S2]; [lra|].
  destruct S3 as [?|S3]; [lra|]. destruct S4 as [?|S4]; [lra|].
  assert (a = 0 /\ b = 0 /\ c = 0 /\ d = 0)%R as (-> & -> & -> & ->)
    by (repeat split; lra).
  apply Hnz. destruct i as [|[|[|[|[|i]]]]]; reflexivity.
Qed.

Lemma square_eigenpair (Hm : spmatrix R) (lam a b c d : R) :
  hamiltonian_2d 2 2 (1 - 0)%R (1 - 0)%R square_V 1%R 1%R = Ok Hm ->
  a <> 0%R ->
  (- (1 / 4) * a - 1 / 2 * b - 1 / 2 * c = lam * a)%R ->
  (- (1 / 2) * a - 1 / 4 * b - 1 / 2 * d = lam * b)%R ->
  (- (1 / 2) * a - 1 / 4 * c - 1 / 2 * d = lam * c)%R ->
  (- (1 / 2) * b - 1 / 2 * c - 1 / 4 * d = lam * d)%R ->
  is_eigenpair Hm lam [a; b; c; d].
Proof.
  intros HH Ha E1 E2 E3 E4.
  destruct (square_hamiltonian_dot Hm a b c d HH) as (_ & Hcols & Hd).
  split; [rewrite Hcols; reflexivity|].
  split; [exists O; exact Ha|].
  rewrite Hd. simpl. rewrite E1, E2, E3, E4. reflexivity.
Qed.

(** the ground state [-5/4] and the first excited level [-1/4] *)
Lemma square_ground_state (Hm : spmatrix R) :
  hamiltonian_2d 2 2 (1 - 0)%R (1 - 0)%R square_V 1%R 1%R = Ok Hm ->
  is_eigenpair Hm (-5 / 4)%R [1; 1; 1; 1]%R
  /\ is_eigenpair Hm (-1 / 4)%R [1 / 2; -1 / 2; 1 / 2; -1 / 2]%R.
Proof.
  intros HH. split; apply square_eigenpair; try exact HH; lra.
Qed.

Lemma Rabs_quarter : Rabs (-1 / 4) = (1 / 4)%R.
Proof. unfold Rabs. destruct (Rcase_abs (-1 / 4)); lra. Qed.

Lemma eigsh_square_selection (Hm : spmatrix R) :
  hamiltonian_2d 2 2 (1 - 0)%R (1 - 0)%R square_V 1%R 1%R = Ok Hm ->
  eigsh_selection_contract SM Hm (eigsh_square_SM Hm 1 SM).
Proof.
  intros HH E U [= <- <-]. split.
  - intros [|n] Hn; [|simpl in Hn; lia].
    apply (square_ground_state Hm HH).
  - intros mu Hmu. destruct (square_spectrum Hm mu HH Hmu) as [-> | [-> | ->]].
    + right. repeat constructor. simpl. rewrite Rabs_quarter.
      unfold Rabs. destruct (Rcase_abs (-5 / 4)); lra.
    + left. left. reflexivity.
    + right. repeat constructor. simpl. rewrite Rabs_quarter.
      unfold Rabs. destruct (Rcase_abs (3 / 4)); lra.
Qed.

(** C2 (the code at a Hamiltonian with eigenvalues of both signs). On the
    grid of 2 x 2 points with the constant potential [-9/4] the
    Hamiltonian has the eigenvalues [-5/4], [-1/4], [-1/4] and [3/4].  The
    solver asks [eigsh] for [which = 'SM']; with [K = 1] it returns
    [-1/4], the eigenvalue of smallest magnitude, and not the
    algebraically smallest eigenvalue [-5/4]. *)
Theorem solve_2d_returns_smallest_magnitude
  (eigsh : spmatrix R -> Z -> eigsh_which -> result (list R * list (list R))) :
  (forall Hm,
      hamiltonian_2d 2 2 (1 - 0)%R (1 - 0)%R square_V 1%R 1%R = Ok Hm ->
      eigsh_shape_contract Hm 1 (eigsh Hm 1%Z SM)
      /\ eigsh_selection_contract SM Hm (eigsh Hm 1%Z SM)) ->
  exists (Hm : spmatrix R) (W : list (list (list R))),
    hamiltonian_2d 2 2 (1 - 0)%R (1 - 0)%R square_V 1%R 1%R = Ok Hm
    /\ solve_time_independent_2d eigsh square_X square_Y square_V 1%R 1%R 1%Z
       = Ok ([(-1 / 4)%R], W)
    /\ is_eigenvalue Hm (-5 / 4)%R
    /\ (forall mu, is_eigenvalue Hm mu -> (-5 / 4 <= mu)%R)
    /\ (-5 / 4 < -1 / 4)%R.
Proof.
  intros Hc.
  destruct (solve_2d_in_range eigsh square_X square_Y square_V 2 2
              (1 - 0)%R (1 - 0)%R 1%R 1%R 1%Z)
    as (Hm & E & U & W & HH & Hres & Hsolve & HE & _ & _);
    try reflexivity; try lia; try lra.
  { intros Hm HH. apply (Hc Hm HH). }
  destruct (Hc Hm HH) as [_ Hsel]. destruct (Hsel E U Hres) as [Hpairs Hmin].
  destruct E as [|e [|e' E]]; try discriminate HE. clear HE.
  assert (He : is_eigenvalue Hm e).
  { eexists. apply (Hpairs O). simpl. lia. }
  destruct (square_ground_state Hm HH) as [Hg Hx].
  assert (e = (-1 / 4)%R) as ->.
  { destruct (Hmin (-1 / 4)%R) as [Hin|Hall].
    - eexists. exact Hx.
    - destruct Hin as [Hin|Hin]; [exact Hin | destruct Hin].
    - apply Forall_inv in Hall. simpl in Hall. rewrite Rabs_quarter in Hall.
      destruct (square_spectrum Hm e HH He) as [-> | [-> | ->]].
      + exfalso. unfold Rabs in Hall. destruct (Rcase_abs (-5 / 4)); lra.
      + reflexivity.
      + exfalso. unfold Rabs in Hall. destruct (Rcase_abs (3 / 4)); lra. }
  exists Hm, W. split; [exact HH|]. split; [exact Hsolve|].
  split; [eexists; exact Hg|]. split; [|lra].
  intros mu Hmu. destruct (square_spectrum Hm mu HH Hmu) as [-> | [-> | ->]]; lra.
Qed.

Lemma solve_2d_returns_smallest_magnitude_witness :
  exists W : list (list (list R)),
    solve_time_independent_2d eigsh_square_SM square_X square_Y square_V
      1%R 1%R 1%Z = Ok ([(-1 / 4)%R], W).
Proof.
  destruct (solve_2d_returns_smallest_magnitude eigsh_square_SM)
    as (Hm & W & _ & Hsolve & _).
  - intros Hm HH. split.
    + apply eigsh_square_shape, HH.
    + apply eigsh_square_selection, HH.
  - exists W. exact Hsolve.
Defined.

(** ** Quadrature norm and its rescaling *)

Lemma trapz_cons2 (y0 y1 x0 x1 : R) (y x : list R) :
  trapz (y0 :: y1 :: y) (x0 :: x1 :: x)
  = ((x1 - x0) * (y1 + y0) / (1 + 1) + trapz (y1 :: y) (x1 :: x))%R.
Proof. reflexivity. Qed.

Lemma trapz_scale (c : R) (y x : list R) :
  trapz (map (fun a => (a * c)%R) y) x = (trapz y x * c)%R.
Proof.
  revert x. induction y as [|y0 y IH]; intros x; [simpl; lra|].
  destruct y as [|y1 y]; [destruct x; simpl; lra|].
  destruct x as [|x0 [|x1 x]]; try (simpl; lra).
  change (map (fun a => (a * c)%R) (y0 :: y1 :: y))
    with ((y0 * c)%R :: (y1 * c)%R :: map (fun a => (a * c)%R) y).
  rewrite !trapz_cons2.
  change ((y1 * c)%R :: map (fun a => (a * c)%R) y)
    with (map (fun a => (a * c)%R) (y1 :: y)).
  rewrite IH. lra.
Qed.

Lemma trapz_nonneg (y x : list R) :
  Sorted Rlt x -> Forall (fun a => (0 <= a)%R) y -> (0 <= trapz y x)%R.
Proof.
  revert x. induction y as [|y0 y IH]; intros x Hx Hy; [simpl; lra|].
  destruct y as [|y1 y]; [destruct x; simpl; lra|].
  destruct x as [|x0 [|x1 x]]; try (simpl; lra).
  rewrite trapz_cons2.
  apply Sorted_inv in Hx. destruct Hx as [Hx Hhd]. apply HdRel_inv in Hhd.
  pose proof (Forall_inv Hy) as H0. apply Forall_inv_tail in Hy.
  pose proof (Forall_inv Hy) as H1.
  specialize (IH (x1 :: x) Hx Hy). nra.
Qed.

(** on an increasing grid the trapezoidal integral of a non-negative
    array with a positive sample is positive *)
Lemma trapz_pos (y x : list R) :
  length y = length x -> (2 <= length x)%nat ->
  Sorted Rlt x -> Forall (fun a => (0 <= a)%R) y ->
  Exists (fun a => (0 < a)%R) y -> (0 < trapz y x)%R.
Proof.
  revert x. induction y as [|y0 y IH]; intros x Hlen Hn Hx Hy Hex;
    [inversion Hex|].
  destruct y as [|y1 y]; [simpl in Hlen; lia|].
  destruct x as [|x0 [|x1 x]]; try (simpl in Hn; lia).
  rewrite trapz_cons2.
  apply Sorted_inv in Hx. destruct Hx as [Hx Hhd]. apply HdRel_inv in Hhd.
  pose proof (Forall_inv Hy) as H0. apply Forall_inv_tail in Hy.
  pose proof (Forall_inv Hy) as H1.
  pose proof (trapz_nonneg (y1 :: y) (x1 :: x) Hx Hy) as Hrest.
  apply Exists_cons in Hex. destruct Hex as [Hp|Hex]; [nra|].
  destruct y as [|y2 y].
  - apply Exists_cons in Hex. destruct Hex as [Hp|Hex]; [nra | inversion Hex].
  - assert (0 < trapz (y1 :: y2 :: y) (x1 :: x))%R; [|nra].
    apply IH; try assumption.
    + simpl in *. lia.
    + simpl in *. lia.
Qed.

Lemma Cnorm2_nonneg (a : C) : (0 <= Cnorm2 a)%R.
Proof. unfold Cnorm2. nra. Qed.

Lemma Cnorm2_pos (a : C) : a <> RtoC 0 -> (0 < Cnorm2 a)%R.
Proof.
  intros Ha. unfold Cnorm2.
  destruct (Req_dec (Re a) 0) as [Hr|Hr]; [|nra].
  destruct (Req_dec (Im a) 0) as [Hi|Hi]; [|nra].
  exfalso. apply Ha. destruct a as [r i]. simpl in *. subst. reflexivity.
Qed.

Lemma Cnorm2_divr (a : C) (r : R) :
  Cnorm2 (divr a r) = (Cnorm2 a * (/ r * / r))%R.
Proof. unfold Cnorm2, divr. simpl. unfold Rdiv. ring. Qed.

Lemma divr_nonzero (a : C) (r : R) :
  r <> 0%R -> a <> RtoC 0 -> divr a r <> RtoC 0.
Proof.
  intros Hr Ha E. apply Ha. destruct a as [x y].
  unfold divr, RtoC in *. simpl in E. injection E as Ex Ey.
  assert (Hi : (/ r <> 0)%R) by (apply Rinv_neq_0_compat, Hr).
  unfold Rdiv in *.
  apply Rmult_integral in Ex, Ey.
  destruct Ex as [->|?]; [|contradiction].
  destruct Ey as [->|?]; [|contradiction]. reflexivity.
Qed.

Lemma abs2_Forall_nonneg (v : list C) :
  Forall (fun a => (0 <= a)%R) (map abs2 v).
Proof. apply List.Forall_forall. intros a Ha. apply in_map_iff in Ha.
  destruct Ha as (c & <- & _). apply Cnorm2_nonneg. Qed.

Lemma abs2_Exists_pos (v : list C) :
  nonzero v -> Exists (fun a => (0 < a)%R) (map abs2 v).
Proof.
  unfold nonzero. intros Hv. apply List.Exists_exists in Hv.
  destruct Hv as (c & Hc & Hnz). apply List.Exists_exists.
  exists (abs2 c). split; [apply in_map, Hc | apply Cnorm2_pos, Hnz].
Qed.

(** the squared quadrature norm of a non-zero vector is positive *)
Lemma quad_norm2_pos (v : list C) (x : list R) :
  length v = length x -> (2 <= length x)%nat -> Sorted Rlt x ->
  nonzero v -> (0 < trapz (map abs2 v) x)%R.
Proof.
  intros Hlen Hn Hx Hv. apply trapz_pos; try assumption.
  - rewrite length_map. exact Hlen.
  - apply abs2_Forall_nonneg.
  - apply abs2_Exists_pos, Hv.
Qed.

(** dividing by the quadrature norm gives quadrature norm one *)
Lemma quad_norm_1d_normalized (v : list C) (x : list R) :
  (0 < trapz (map abs2 v) x)%R ->
  quad_norm_1d (map (fun a => divr a (quad_norm_1d v x)) v) x = 1%R.
Proof.
  intros Hpos. unfold quad_norm_1d at 1. rewrite map_map.
  rewrite (map_ext _ (fun a => (abs2 a * (/ quad_norm_1d v x * / quad_norm_1d v x))%R))
    by (intros a; apply Cnorm2_divr).
  rewrite <- (map_map abs2 (fun a => (a * _)%R)), trapz_scale.
  unfold quad_norm_1d, ssqrt, R_sqrt.
  rewrite <- Rinv_mult, sqrt_sqrt by lra.
  rewrite Rinv_r by lra. apply sqrt_1.
Qed.

Lemma map_divr_nonzero (v : list C) (r : R) :
  r <> 0%R -> nonzero v -> nonzero (map (fun a => divr a r) v).
Proof.
  unfold nonzero. intros Hr Hv. apply List.Exists_exists in Hv.
  destruct Hv as (c & Hc & Hnz). apply List.Exists_exists.
  exists (divr c r).
  split; [apply (in_map (fun a => divr a r)), Hc | apply divr_nonzero; assumption].
Qed.

(** ** Finite sums and the matrix-vector product *)

Lemma lsum_ext (f g : nat -> R) (l : list nat) :
  (forall j, In j l -> f j = g j) -> lsum f l = lsum g l.
Proof.
  induction l as [|j l IH]; intros Hfg; simpl; [reflexivity|].
  rewrite Hfg by (left; reflexivity). rewrite IH; [reflexivity|].
  intros k Hk. apply Hfg. right. exact Hk.
Qed.

Lemma lsum_plus (f g : nat -> R) (l : list nat) :
  lsum (fun j => (f j + g j)%R) l = (lsum f l + lsum g l)%R.
Proof. induction l as [|j l IH]; simpl; [lra | rewrite IH; lra]. Qed.

Lemma lsum_scal (c : R) (f : nat -> R) (l : list nat) :
  lsum (fun j => (c * f j)%R) l = (c * lsum f l)%R.
Proof. induction l as [|j l IH]; simpl; [lra | rewrite IH; lra]. Qed.

Lemma lsum_zero (l : list nat) : lsum (fun _ => 0%R) l = 0%R.
Proof. induction l as [|j l IH]; simpl; [reflexivity | rewrite IH; lra]. Qed.

Lemma lsum_swap (f : nat -> nat -> R) (l1 l2 : list nat) :
  lsum (fun i => lsum (fun j => f i j) l2) l1
  = lsum (fun j => lsum (fun i => f i j) l1) l2.
Proof.
  induction l1 as [|i l1 IH]; simpl.
  - symmetry. apply lsum_zero.
  - rewrite IH. symmetry. apply lsum_plus.
Qed.

Lemma lsum_delta (g : nat -> R) (i : nat) (l : list nat) :
  List.NoDup l -> In i l ->
  lsum (fun j => ((if (i =? j)%nat then 1 else 0) * g j)%R) l = g i.
Proof.
  induction 1 as [|j l Hj Hl IH]; intros Hi; [destruct Hi|].
  simpl. destruct Hi as [->|Hi].
  - rewrite Nat.eqb_refl.
    rewrite (lsum_ext _ (fun _ => 0%R)), lsum_zero; [lra|].
    intros k Hk. destruct (Nat.eqb_spec i k) as [->|_]; [contradiction | lra].
  - destruct (Nat.eqb_spec i j) as [->|_]; [contradiction|].
    rewrite IH by exact Hi. lra.
Qed.

Lemma lsum_nonneg_zero (f : nat -> R) (l : list nat) :
  (forall j, (0 <= f j)%R) -> lsum f l = 0%R -> forall j, In j l -> f j = 0%R.
Proof.
  intros Hf. induction l as [|k l IH]; intros Hs j Hj; [destruct Hj|].
  simpl in Hs.
  assert (Hl : (0 <= lsum f l)%R).
  { clear -Hf. induction l as [|k' l IH]; simpl; [lra|]. specialize (Hf k'). lra. }
  pose proof (Hf k) as Hk.
  destruct Hj as [<-|Hj]; [lra|]. apply IH; [lra | exact Hj].
Qed.

(** the rows of [A.dot(v)], real and imaginary parts *)
Lemma sp_dot_nth (A : spmatrix C) (v : list C) (i : nat) :
  (i < sp_rows A)%nat ->
  Re (nth i (sp_dot A v) (RtoC 0))
  = lsum (fun j => (Re (sp_entry A i j) * Re (nth j v (RtoC 0))
                    - Im (sp_entry A i j) * Im (nth j v (RtoC 0)))%R)
         (seq 0 (sp_cols A))
  /\ Im (nth i (sp_dot A v) (RtoC 0))
     = lsum (fun j => (Re (sp_entry A i j) * Im (nth j v (RtoC 0))
                       + Im (sp_entry A i j) * Re (nth j v (RtoC 0)))%R)
            (seq 0 (sp_cols A)).
Proof.
  intros Hi. unfold sp_dot. rewrite nth_map_seq by exact Hi. simpl Nat.add.
  change (@s0 C C_scalar) with (RtoC 0).
  change (@sadd C C_scalar) with Cadd. change (@smul C C_scalar) with Cmul.
  induction (seq 0 (sp_cols A)) as [|j l [IHr IHi]]; [split; reflexivity|].
  cbn [fold_right lsum].
  destruct (sp_get A i j) as [a|] eqn:E.
  - assert (Ha : sp_entry A i j = a) by (unfold sp_entry; rewrite E; reflexivity).
    rewrite Ha. cbn [Cadd Cmul Re Im].
    rewrite IHr, IHi. split; reflexivity.
  - assert (Ha : sp_entry A i j = RtoC 0) by (unfold sp_entry; rewrite E; reflexivity).
    rewrite Ha. cbn [RtoC Re Im]. rewrite IHr, IHi. unfold lsum. split; lra.
Qed.

Lemma sp_dot_length {T} `{Scalar T} (A : spmatrix T) (v : list T) :
  length (sp_dot A v) = sp_rows A.
Proof. unfold sp_dot. rewrite length_map, length_seq. reflexivity. Qed.

(** a matrix maps the zero vector to the zero vector *)
Lemma sp_dot_zero (A : spmatrix C) (v : list C) (i : nat) :
  Forall (fun a => a = RtoC 0) v ->
  nth i (sp_dot A v) (RtoC 0) = RtoC 0.
Proof.
  intros Hv.
  assert (Hz : forall j, nth j v (RtoC 0) = RtoC 0).
  { intros j. destruct (Nat.lt_ge_cases j (length v)) as [Hj|Hj].
    - rewrite List.Forall_forall in Hv. apply Hv, nth_In, Hj.
    - apply nth_overflow, Hj. }
  destruct (Nat.lt_ge_cases i (sp_rows A)) as [Hi|Hi].
  - destruct (sp_dot_nth A v i Hi) as [Hr Him].
    rewrite (lsum_ext _ (fun _ => 0%R)), lsum_zero in Hr
      by (intros j _; rewrite Hz; simpl; lra).
    rewrite (lsum_ext _ (fun _ => 0%R)), lsum_zero in Him
      by (intros j _; rewrite Hz; simpl; lra).
    destruct (nth i (sp_dot A v) (RtoC 0)) as [r m]. simpl in *. subst.
    reflexivity.
  - apply nth_overflow. rewrite sp_dot_length. exact Hi.
Qed.

Lemma C_zero_dec (a : C) : a = RtoC 0 \/ a <> RtoC 0.
Proof.
  destruct a as [r m].
  destruct (Req_dec r 0) as [->|Hr]; [destruct (Req_dec m 0) as [->|Hm]|].
  - left. reflexivity.
  - right. intros [= E]. contradiction.
  - right. intros [= E]. contradiction.
Qed.

Lemma nonzero_dec (v : list C) : nonzero v \/ Forall (fun a => a = RtoC 0) v.
Proof.
  unfold nonzero. induction v as [|a v [IH|IH]].
  - right. constructor.
  - left. apply Exists_cons_tl, IH.
  - destruct (C_zero_dec a) as [Ha|Ha].
    + right. constructor; assumption.
    + left. apply Exists_cons_hd, Ha.
Qed.

Lemma nonzero_nth (v : list C) :
  nonzero v <-> exists i, (i < length v)%nat /\ nth i v (RtoC 0) <> RtoC 0.
Proof.
  unfold nonzero. rewrite List.Exists_exists. split.
  - intros (a & Ha & Hnz). destruct (In_nth v a (RtoC 0) Ha) as (i & Hi & <-).
    exists i. split; assumption.
  - intros (i & Hi & Hnz). exists (nth i v (RtoC 0)).
    split; [apply nth_In, Hi | exact Hnz].
Qed.

(** an exact solve of [A x = b] with [b <> 0] is not zero *)
Lemma solve_nonzero (A : spmatrix C) (b psi : list C) :
  sp_dot A psi = b -> nonzero b -> nonzero psi.
Proof.
  intros Hsolve Hb.
  destruct (nonzero_dec psi) as [H|H]; [exact H|].
  exfalso. apply nonzero_nth in Hb. destruct Hb as (i & _ & Hnz).
  apply Hnz. rewrite <- Hsolve. apply sp_dot_zero, H.
Qed.

(** ** The Crank-Nicolson matrices *)

Lemma identity_entry (N i j : nat) :
  (i < N)%nat -> (j < N)%nat ->
  sp_get (sp_map RtoC (diags [np_ones N] [0%Z])) i j
  = if (i =? j)%nat then Some (RtoC 1) else None.
Proof.
  intros Hi Hj. unfold sp_map, diags, np_ones. cbn [sp_get sp_rows sp_cols].
  cbn [length combine diag_lookup Z.abs_nat]. rewrite repeat_length, Nat.add_0_r.
  destruct (Nat.ltb_spec i N) as [_|?]; [|lia].
  destruct (Nat.ltb_spec j N) as [_|?]; [|lia]. cbn [andb].
  destruct (Nat.eqb_spec i j) as [->|Hne].
  - rewrite Z.sub_diag. cbn [Z.eqb]. rewrite Nat.min_id.
    rewrite (nth_lookup_Some (repeat (s1 : R) N) j s1)
      by (rewrite repeat_length; exact Hj).
    rewrite nth_repeat. reflexivity.
  - destruct (Z.eqb_spec (Z.of_nat j - Z.of_nat i) 0) as [?|_]; [lia|].
    reflexivity.
Qed.

Lemma cn_matrices_R (N : nat) (Hm : spmatrix R) (dt hbar : R) :
  sp_rows Hm = N -> sp_cols Hm = N -> hbar <> 0%R ->
  exists A B : spmatrix C,
    cn_matrices N Hm dt hbar = Ok (A, B)
    /\ sp_rows A = N /\ sp_cols A = N /\ sp_rows B = N /\ sp_cols B = N
    /\ (forall i j,
          sp_get A i j
          = entry_add
              (sp_get (sp_map RtoC (diags [np_ones N] [0%Z])) i j)
              (option_map
                 (fun h => divr (Cmul (Cmul Ci (RtoC dt)) (RtoC h)) (2 * hbar)%R)
                 (sp_get Hm i j)))
    /\ (forall i j,
          sp_get B i j
          = entry_sub
              (sp_get (sp_map RtoC (diags [np_ones N] [0%Z])) i j)
              (option_map
                 (fun h => divr (Cmul (Cmul Ci (RtoC dt)) (RtoC h)) (2 * hbar)%R)
                 (sp_get Hm i j))).
Proof.
  intros Hr Hc Hh. unfold cn_matrices, cn_increment. complex_carrier.
  change (@smul R R_scalar (@s2 R R_scalar) hbar) with (2 * hbar)%R.
  change (szerob (2 * hbar)%R) with (Rzerob (2 * hbar)).
  rewrite Rzerob_false by lra. step.
  assert (Hid : sp_rows (sp_map RtoC (diags [np_ones N] [0%Z])) = N
                /\ sp_cols (sp_map RtoC (diags [np_ones N] [0%Z])) = N).
  { unfold sp_map, diags, np_ones. cbn [sp_rows sp_cols length Z.abs_nat].
    rewrite repeat_length. lia. }
  destruct Hid as [Hir Hic].
  rewrite sp_add_ok by (unfold sp_map at 2 3; cbn [sp_rows sp_cols]; congruence).
  do 2 step.
  rewrite sp_sub_ok by (unfold sp_map at 2 3; cbn [sp_rows sp_cols]; congruence).
  step. eexists _, _. split; [reflexivity|]. cbn [sp_rows sp_cols sp_get].
  repeat (split; [assumption|]).
  split; intros i j; unfold sp_map at 2 3; cbn [sp_get];
    destruct (sp_get Hm i j); reflexivity.
Qed.

(** [B = I - i g] entry by entry, with [g = dt * H / (2 * hbar)] *)
Lemma cn_B_entry (N : nat) (Hm : spmatrix R) (dt hbar : R) (B : spmatrix C) :
  (forall i j,
      sp_get B i j
      = entry_sub
          (sp_get (sp_map RtoC (diags [np_ones N] [0%Z])) i j)
          (option_map
             (fun h => divr (Cmul (Cmul Ci (RtoC dt)) (RtoC h)) (2 * hbar)%R)
             (sp_get Hm i j))) ->
  forall i j, (i < N)%nat -> (j < N)%nat ->
    Re (sp_entry B i j) = (if (i =? j)%nat then 1 else 0)%R
    /\ Im (sp_entry B i j) = (- (dt * sp_entry Hm i j / (2 * hbar)))%R.
Proof.
  intros HB i j Hi Hj. unfold sp_entry. rewrite HB, identity_entry by assumption.
  destruct (i =? j)%nat; destruct (sp_get Hm i j) as [h|];
    simpl; unfold Rdiv; split; ring.
Qed.

(** [I - i g] with [g] real and symmetric has a trivial kernel: the
    Crank-Nicolson right-hand side of a non-zero state is not zero *)
Lemma cn_B_kernel (N : nat) (g : nat -> nat -> R) (B : spmatrix C) (psi : list C) :
  sp_rows B = N -> sp_cols B = N ->
  (forall i j, (i < N)%nat -> (j < N)%nat ->
     Re (sp_entry B i j) = (if (i =? j)%nat then 1 else 0)%R
     /\ Im (sp_entry B i j) = (- g i j)%R) ->
  (forall i j, g i j = g j i) ->
  (forall i, (i < N)%nat -> nth i (sp_dot B psi) (RtoC 0) = RtoC 0) ->
  forall i, (i < N)%nat -> nth i psi (RtoC 0) = RtoC 0.
Proof.
  intros Hr Hc HB Hsym Hzero.
  set (re := fun j => Re (nth j psi (RtoC 0))).
  set (im := fun j => Im (nth j psi (RtoC 0))).
  set (L := seq 0 N).
  assert (HL : forall j, In j L <-> (j < N)%nat).
  { intros j. subst L. rewrite in_seq. lia. }
  assert (E : forall i, (i < N)%nat ->
            re i = (- lsum (fun j => g i j * im j) L)%R
            /\ im i = lsum (fun j => (g i j * re j)%R) L).
  { intros i Hi.
    destruct (sp_dot_nth B psi i) as [Er Ei]; [lia|].
    rewrite (Hzero i Hi), Hc in Er, Ei. cbn [RtoC Re Im] in Er, Ei.
    fold L in Er, Ei. fold re im in Er, Ei.
    rewrite (lsum_ext _ (fun j => ((if (i =? j)%nat then 1 else 0) * re j
                                   + g i j * im j)%R)) in Er.
    2:{ intros j Hjl. apply HL in Hjl. destruct (HB i j Hi Hjl) as [-> ->].
        fold (re j) (im j). lra. }
    rewrite (lsum_ext _ (fun j => ((if (i =? j)%nat then 1 else 0) * im j
                                   + - (g i j * re j))%R)) in Ei.
    2:{ intros j Hjl. apply HL in Hjl. destruct (HB i j Hi Hjl) as [-> ->].
        fold (re j) (im j). lra. }
    rewrite lsum_plus, lsum_delta in Er, Ei
      by (try apply seq_NoDup; apply HL; exact Hi).
    rewrite (lsum_ext (fun j => (- (g i j * re j))%R)
                      (fun j => (-1 * (g i j * re j))%R)) in Ei
      by (intros; lra).
    rewrite lsum_scal in Ei. split; lra. }
  assert (Hcross : lsum (fun i => (re i * lsum (fun j => g i j * im j) L)%R) L
                   = lsum (fun i => (im i * lsum (fun j => g i j * re j) L)%R) L).
  { rewrite (lsum_ext _ (fun i => lsum (fun j => (re i * (g i j * im j))%R) L))
      by (intros i _; symmetry; apply lsum_scal).
    rewrite (lsum_ext (fun i => (im i * _)%R)
                      (fun i => lsum (fun j => (im i * (g i j * re j))%R) L))
      by (intros i _; symmetry; apply lsum_scal).
    rewrite lsum_swap.
    apply lsum_ext. intros j _. apply lsum_ext. intros i _.
    rewrite (Hsym i j). ring. }
  assert (Htot : lsum (fun i => (re i * re i + im i * im i)%R) L = 0%R).
  { rewrite (lsum_ext _ (fun i => (-1 * (re i * lsum (fun j => g i j * im j) L)
                                   + im i * lsum (fun j => g i j * re j) L)%R)).
    2:{ intros i Hil. apply HL in Hil. destruct (E i Hil) as [E1 E2].
        rewrite E1 at 2. rewrite E2 at 2. ring. }
    rewrite lsum_plus, lsum_scal, Hcross. ring. }
  intros i Hi.
  pose proof (lsum_nonneg_zero (fun i => (re i * re i + im i * im i)%R) L
                ltac:(intros; nra) Htot i ltac:(apply HL; exact Hi)) as Hz.
  cbv beta in Hz. subst re im. cbv beta in Hz.
  destruct (nth i psi (RtoC 0)) as [r m]. cbn [Re Im] in Hz.
  assert (r = 0%R) by nra. assert (m = 0%R) by nra. subst. reflexivity.
Qed.

(** ** The Hamiltonians are symmetric *)

Lemma tridiagonal_lookup_symmetric {T} (off main : list T) (i j : nat) :
  diag_lookup [(off, (-1)%Z); (main, 0%Z); (off, 1%Z)] i j
  = diag_lookup [(off, (-1)%Z); (main, 0%Z); (off, 1%Z)] j i.
Proof.
  cbn [diag_lookup]. rewrite (Nat.min_comm j i).
  repeat match goal with
         | |- context [(?a =? ?b)%Z] => destruct (Z.eqb_spec a b)
         end; try lia; reflexivity.
Qed.

Lemma laplacian_1d_symmetric (n : nat) (d : R) :
  sp_symmetric (laplacian_1d n d).
Proof.
  split; [unfold laplacian_1d, sp_div, diags; reflexivity|].
  intros i j. unfold laplacian_1d, sp_div, diags. cbn [sp_get combine]. f_equal.
  rewrite (andb_comm (j <? _)%nat), tridiagonal_lookup_symmetric. reflexivity.
Qed.

Lemma diags_main_symmetric {T} `{Scalar T} (V : list T) :
  sp_symmetric (diags [V] [0%Z]).
Proof.
  split; [reflexivity|].
  intros i j. unfold diags. cbn [sp_get combine diag_lookup].
  rewrite (andb_comm (j <? _)%nat), (Nat.min_comm j i).
  destruct (_ && _); [|reflexivity].
  repeat match goal with
         | |- context [(?a =? ?b)%Z] => destruct (Z.eqb_spec a b)
         end; try lia; reflexivity.
Qed.

Lemma identity_symmetric {T} `{Scalar T} (n : nat) :
  sp_symmetric (identity (T := T) n).
Proof. apply diags_main_symmetric. Qed.

Lemma kron_symmetric {T} `{Scalar T} (A B : spmatrix T) :
  sp_symmetric A -> sp_symmetric B -> sp_symmetric (kron A B).
Proof.
  intros [HAs HA] [HBs HB]. split.
  - unfold kron. cbn [sp_rows sp_cols]. rewrite HAs, HBs. reflexivity.
  - intros i j. unfold kron. cbn [sp_get]. rewrite HAs, HBs.
    rewrite (andb_comm (j <? _)%nat).
    destruct (_ && _); [|reflexivity].
    rewrite (HA (j / _)%nat), (HB (j mod _)%nat). reflexivity.
Qed.

Lemma entry_add_symmetric {T} `{Scalar T} (A B : spmatrix T) (i j : nat) :
  sp_symmetric A -> sp_symmetric B ->
  entry_add (sp_get A i j) (sp_get B i j)
  = entry_add (sp_get A j i) (sp_get B j i).
Proof. intros [_ HA] [_ HB]. rewrite (HA i j), (HB i j). reflexivity. Qed.

Lemma hamiltonian_1d_symmetric (N : nat) (dx : R) (V : list R) (mass hbar : R)
  (Hm : spmatrix R) :
  (1 <= N)%nat -> length V = N -> mass <> 0%R ->
  hamiltonian_1d N dx V mass hbar = Ok Hm ->
  sp_rows Hm = N /\ sp_cols Hm = N
  /\ forall i j, sp_entry Hm i j = sp_entry Hm j i.
Proof.
  intros HN HV Hmass. rewrite hamiltonian_1d_R by assumption.
  intros E. apply Ok_inj in E. subst Hm.
  split; [reflexivity|]. split; [reflexivity|].
  intros i j. unfold sp_entry. sp_beta.
  destruct (laplacian_1d_symmetric N dx) as [_ HL].
  destruct (diags_main_symmetric V) as [_ HD].
  rewrite (HL i j), (HD i j). reflexivity.
Qed.

Lemma hamiltonian_2d_symmetric (Nx Ny : nat) (dx dy : R) (V : list (list R))
  (mass hbar : R) (Hm : spmatrix R) :
  (1 <= Nx)%nat -> (1 <= Ny)%nat -> length (ravel V) = (Nx * Ny)%nat ->
  mass <> 0%R ->
  hamiltonian_2d Nx Ny dx dy V mass hbar = Ok Hm ->
  sp_rows Hm = (Nx * Ny)%nat /\ sp_cols Hm = (Nx * Ny)%nat
  /\ forall i j, sp_entry Hm i j = sp_entry Hm j i.
Proof.
  intros Hx Hy HV Hmass. rewrite hamiltonian_2d_R by assumption.
  intros E. apply Ok_inj in E. subst Hm.
  split; [apply Nat.mul_comm|]. split; [apply Nat.mul_comm|].
  intros i j. unfold sp_entry. sp_beta.
  destruct (kron_symmetric (identity Ny) (laplacian_1d Nx dx)
              (identity_symmetric Ny) (laplacian_1d_symmetric Nx dx)) as [_ H1].
  destruct (kron_symmetric (laplacian_1d Ny dy) (identity Nx)
              (laplacian_1d_symmetric Ny dy) (identity_symmetric Nx)) as [_ H2].
  destruct (diags_main_symmetric (ravel V)) as [_ HD].
  rewrite (H1 i j), (H2 i j), (HD i j). reflexivity.
Qed.

(** ** One Crank-Nicolson step keeps the state non-zero *)

Lemma cn_step_nonzero (N : nat) (Hm : spmatrix R) (dt hbar : R)
  (A B : spmatrix C) (lu_solve : list C -> list C) (psi : list C) :
  sp_rows Hm = N -> sp_cols Hm = N ->
  (forall i j, sp_entry Hm i j = sp_entry Hm j i) ->
  hbar <> 0%R ->
  cn_matrices N Hm dt hbar = Ok (A, B) ->
  (forall b, length b = sp_rows A ->
             length (lu_solve b) = sp_rows A /\ sp_dot A (lu_solve b) = b) ->
  length psi = N -> nonzero psi ->
  length (lu_solve (sp_dot B psi)) = N /\ nonzero (lu_solve (sp_dot B psi)).
Proof.
  intros Hr Hc Hsym Hh Hcn Hlu Hlen Hnz.
  destruct (cn_matrices_R N Hm dt hbar Hr Hc Hh)
    as (A' & B' & Hcn' & HAr & HAc & HBr & HBc & _ & HBe).
  rewrite Hcn in Hcn'. injection Hcn' as <- <-.
  assert (Hb : length (sp_dot B psi) = sp_rows A)
    by (rewrite sp_dot_length; congruence).
  destruct (Hlu _ Hb) as [Hl Hsolve]. split; [congruence|].
  apply (solve_nonzero A (sp_dot B psi)); [exact Hsolve|].
  destruct (nonzero_dec (sp_dot B psi)) as [Hnb|Hzb]; [exact Hnb|].
  exfalso. apply nonzero_nth in Hnz. destruct Hnz as (i & Hi & Hne).
  apply Hne.
  apply (cn_B_kernel N (fun i j => (dt * sp_entry Hm i j / (2 * hbar))%R) B psi
           HBr HBc); [| | |lia].
  - apply (cn_B_entry N Hm dt hbar B HBe).
  - intros a b. rewrite (Hsym a b). reflexivity.
  - intros k Hk. rewrite List.Forall_forall in Hzb. apply Hzb, nth_In.
    rewrite sp_dot_length. lia.
Qed.

(** ** The propagation loops *)

Lemma nth_insert_eq {A} (l : list A) (n : nat) (v d : A) :
  (n < length l)%nat -> nth n (<[n := v]> l) d = v.
Proof. intros Hn. rewrite nth_lookup, list_lookup_insert_eq by exact Hn. reflexivity. Qed.

Lemma nth_insert_ne {A} (l : list A) (n m : nat) (v d : A) :
  n <> m -> nth m (<[n := v]> l) d = nth m l d.
Proof. intros Hn. rewrite !nth_lookup, list_lookup_insert_ne by exact Hn. reflexivity. Qed.

(** a loop over [range(a, a + len)] that keeps an invariant runs through *)
Lemma for_each_invariant {S} (body : S -> nat -> result S)
  (P : nat -> S -> Prop) (len a : nat) (s : S) :
  P a s ->
  (forall n s, (a <= n < a + len)%nat -> P n s ->
               exists s', body s n = Ok s' /\ P (Datatypes.S n) s') ->
  exists s', for_each body s (seq a len) = Ok s' /\ P (a + len)%nat s'.
Proof.
  revert a s. induction len as [|len IH]; intros a s HP Hstep.
  - exists s. rewrite Nat.add_0_r. split; [reflexivity | exact HP].
  - destruct (Hstep a s ltac:(lia) HP) as (s1 & Hb & HP1).
    destruct (IH (Datatypes.S a) s1 HP1) as (s' & Hfe & HP').
    { intros n s2 Hn. apply Hstep. lia. }
    exists s'. simpl. rewrite Hb. simpl.
    split; [exact Hfe|]. replace (a + Datatypes.S len)%nat with (Datatypes.S a + len)%nat by lia.
    exact HP'.
Qed.

Lemma quad_norm_sqrt_nonzero (s : R) : (0 < s)%R -> sqrt s <> 0%R.
Proof. intros Hs E. apply sqrt_eq_0 in E; lra. Qed.

Lemma cn_loop_1d (N M : nat) (Hm : spmatrix R) (dt hbar : R)
  (A B : spmatrix C) (lu_solve : list C -> list C)
  (x : list R) (psi0 : list C) :
  sp_rows Hm = N -> sp_cols Hm = N ->
  (forall i j, sp_entry Hm i j = sp_entry Hm j i) ->
  hbar <> 0%R ->
  cn_matrices N Hm dt hbar = Ok (A, B) ->
  (forall b, length b = sp_rows A ->
             length (lu_solve b) = sp_rows A /\ sp_dot A (lu_solve b) = b) ->
  valid_grid_1d x -> length x = N ->
  length psi0 = N -> nonzero psi0 -> (1 <= M)%nat ->
  exists psi_t,
    for_each (cn_step_1d B lu_solve x)
      (<[O := psi0]> (repeat (repeat (RtoC 0) N) M)) (py_range1 M) = Ok psi_t
    /\ length psi_t = M
    /\ nth 0 psi_t [] = psi0
    /\ forall n, (1 <= n < M)%nat -> quad_norm_1d (nth n psi_t []) x = 1%R.
Proof.
  intros Hr Hc Hsym Hh Hcn Hlu [Hx2 Hxs] HxN Hp0 Hnz HM.
  set (P := fun (n : nat) (psi_t : list (list C)) =>
              length psi_t = M
              /\ nth 0 psi_t [] = psi0
              /\ (forall m, (m < n)%nat ->
                            length (nth m psi_t []) = N /\ nonzero (nth m psi_t []))
              /\ (forall m, (1 <= m < n)%nat ->
                            quad_norm_1d (nth m psi_t []) x = 1%R)).
  destruct (for_each_invariant (cn_step_1d B lu_solve x) P (M - 1) 1
              (<[O := psi0]> (repeat (repeat (RtoC 0) N) M)))
    as (psi_t & Hfe & HP).
  - unfold P. rewrite length_insert, repeat_length.
    assert (H0 : nth 0 (<[O := psi0]> (repeat (repeat (RtoC 0) N) M)) [] = psi0)
      by (apply nth_insert_eq; rewrite repeat_length; lia).
    split; [reflexivity|]. split; [exact H0|]. split.
    + intros m Hm1. assert (m = O) as -> by lia. rewrite H0. auto.
    + intros m Hm1. lia.
  - intros n psi_t Hn (Hlen & H0 & Hrows & Hnorm).
    unfold cn_step_1d. eexists. split; [reflexivity|].
    destruct (Hrows (n - 1)%nat ltac:(lia)) as [Hl Hz].
    destruct (cn_step_nonzero N Hm dt hbar A B lu_solve (nth (n - 1) psi_t [])
                Hr Hc Hsym Hh Hcn Hlu Hl Hz) as [Hl' Hz'].
    set (psi_n := lu_solve (sp_dot B (nth (n - 1) psi_t []))) in *.
    assert (Hpos : (0 < trapz (map abs2 psi_n) x)%R)
      by (apply quad_norm2_pos; try assumption; congruence).
    unfold P. rewrite length_insert.
    split; [exact Hlen|]. split; [rewrite nth_insert_ne by lia; exact H0|].
    split.
    + intros m Hm1. destruct (Nat.eq_dec m n) as [->|Hne].
      * rewrite nth_insert_eq by lia. rewrite length_map. split; [exact Hl'|].
        apply map_divr_nonzero; [|exact Hz'].
        apply quad_norm_sqrt_nonzero, Hpos.
      * rewrite nth_insert_ne by lia. apply Hrows. lia.
    + intros m Hm1. destruct (Nat.eq_dec m n) as [->|Hne].
      * rewrite nth_insert_eq by lia. apply quad_norm_1d_normalized, Hpos.
      * rewrite nth_insert_ne by lia. apply Hnorm. lia.
  - exists psi_t. unfold py_range1. split; [exact Hfe|].
    destruct HP as (Hlen & H0 & _ & Hnorm).
    split; [exact Hlen|]. split; [exact H0|].
    intros n Hn. apply Hnorm. lia.
Qed.

Lemma reshape_map {A B} (f : A -> B) (Nx Ny : nat) (v : list A) :
  reshape Nx Ny (map f v) = map (map f) (reshape Nx Ny v).
Proof.
  revert v. induction Nx as [|Nx IH]; intros v; simpl; [reflexivity|].
  rewrite firstn_map, skipn_map, IH. reflexivity.
Qed.

Lemma trapz_rows_scale (c : R) (z : list (list R)) (y : list R) :
  trapz_rows (map (map (fun a => (a * c)%R)) z) y
  = map (fun a => (a * c)%R) (trapz_rows z y).
Proof.
  unfold trapz_rows. rewrite !map_map. apply map_ext. intros r.
  apply trapz_scale.
Qed.

Lemma trapz_rows_length (z : list (list R)) (y : list R) :
  length (trapz_rows z y) = length z.
Proof. unfold trapz_rows. apply length_map. Qed.

(** the squared two-dimensional quadrature norm of a non-zero state *)
Lemma quad_norm2_2d_pos (Nx Ny : nat) (v : list C) (xs ys : list R) :
  length v = (Nx * Ny)%nat -> nonzero v ->
  (2 <= Nx)%nat -> (2 <= Ny)%nat ->
  length xs = Nx -> Sorted Rlt xs -> length ys = Ny -> Sorted Rlt ys ->
  (0 < trapz (trapz_rows (map (map abs2) (reshape Nx Ny v)) ys) xs)%R.
Proof.
  intros Hv Hnz HNx HNy Hxl Hxs Hyl Hys.
  pose proof (reshape_rows Nx Ny v Hv) as Hrows.
  apply trapz_pos.
  - rewrite trapz_rows_length, length_map, reshape_length. congruence.
  - lia.
  - exact Hxs.
  - unfold trapz_rows. rewrite map_map. apply List.Forall_forall.
    intros a Ha. apply in_map_iff in Ha. destruct Ha as (r & <- & _).
    apply trapz_nonneg; [exact Hys | apply abs2_Forall_nonneg].
  - unfold nonzero in Hnz. rewrite <- (ravel_reshape Nx Ny v Hv) in Hnz.
    unfold ravel in Hnz. apply Exists_concat in Hnz.
    apply List.Exists_exists in Hnz. destruct Hnz as (r & Hr & Hrz).
    apply List.Exists_exists. exists (trapz (map abs2 r) ys). split.
    + unfold trapz_rows. rewrite map_map.
      apply (in_map (fun r => trapz (map abs2 r) ys)), Hr.
    + rewrite List.Forall_forall in Hrows.
      apply quad_norm2_pos; try assumption.
      * rewrite (Hrows r Hr). congruence.
      * lia.
Qed.

(** dividing the flattened state by the two-dimensional quadrature norm
    gives a snapshot of norm one *)
Lemma quad_norm_2d_normalized (Nx Ny : nat) (v : list C) (X Y : list (list R)) :
  (0 < trapz (trapz_rows (map (map abs2) (reshape Nx Ny v)) (row Y 0))
             (column 0%R X 0))%R ->
  quad_norm_2d
    (reshape Nx Ny (map (fun a => divr a (quad_norm_2d (reshape Nx Ny v) X Y)) v))
    X Y = 1%R.
Proof.
  intros Hpos. unfold quad_norm_2d at 1.
  set (nrm := quad_norm_2d (reshape Nx Ny v) X Y).
  rewrite reshape_map, map_map.
  rewrite (map_ext _ (fun r => map (fun a => (a * (/ nrm * / nrm))%R) (map abs2 r))).
  2:{ intros r. rewrite !map_map. apply map_ext. intros a. apply Cnorm2_divr. }
  rewrite <- (map_map (map abs2) (map (fun a => (a * _)%R))).
  rewrite trapz_rows_scale, trapz_scale.
  subst nrm. unfold quad_norm_2d, ssqrt, R_sqrt.
  change (@s0 R R_scalar) with 0%R.
  rewrite <- Rinv_mult, sqrt_sqrt by lra.
  rewrite Rinv_r by lra. apply sqrt_1.
Qed.

Lemma cn_loop_2d (Nx Ny M : nat) (Hm : spmatrix R) (dt hbar : R)
  (A B : spmatrix C) (lu_solve : list C -> list C)
  (X Y : list (list R)) (psi0 : list (list C)) :
  sp_rows Hm = (Nx * Ny)%nat -> sp_cols Hm = (Nx * Ny)%nat ->
  (forall i j, sp_entry Hm i j = sp_entry Hm j i) ->
  hbar <> 0%R ->
  cn_matrices (Nx * Ny) Hm dt hbar = Ok (A, B) ->
  (forall b, length b = sp_rows A ->
             length (lu_solve b) = sp_rows A /\ sp_dot A (lu_solve b) = b) ->
  valid_grid_2d X Y Nx Ny ->
  grid_shaped Nx Ny psi0 -> nonzero (ravel psi0) -> (1 <= M)%nat ->
  exists st,
    for_each (cn_step_2d B lu_solve X Y Nx Ny)
      (<[O := psi0]> (repeat (repeat (repeat (RtoC 0) Ny) Nx) M), ravel psi0)
      (py_range1 M) = Ok st
    /\ length (fst st) = M
    /\ nth 0 (fst st) [] = psi0
    /\ forall n, (1 <= n < M)%nat -> quad_norm_2d (nth n (fst st) []) X Y = 1%R.
Proof.
  intros Hr Hc Hsym Hh Hcn Hlu (HNx & HNy & [HXl HXr] & [HYl HYr] & Hxs & Hys)
    [Hpl Hpr] Hnz HM.
  assert (Hxl : length (column 0%R X 0) = Nx)
    by (unfold column; rewrite length_map; exact HXl).
  assert (Hyl : length (row Y 0) = Ny).
  { unfold row. rewrite List.Forall_forall in HYr. apply HYr, nth_In. lia. }
  set (P := fun (n : nat) (st : list (list (list C)) * list C) =>
              length (fst st) = M
              /\ nth 0 (fst st) [] = psi0
              /\ length (snd st) = (Nx * Ny)%nat /\ nonzero (snd st)
              /\ (forall m, (1 <= m < n)%nat ->
                            quad_norm_2d (nth m (fst st) []) X Y = 1%R)).
  destruct (for_each_invariant (cn_step_2d B lu_solve X Y Nx Ny) P (M - 1) 1
              (<[O := psi0]> (repeat (repeat (repeat (RtoC 0) Ny) Nx) M),
               ravel psi0))
    as (st & Hfe & HP).
  - unfold P. cbn [fst snd]. rewrite length_insert, repeat_length.
    split; [reflexivity|].
    split; [apply nth_insert_eq; rewrite repeat_length; lia|].
    split; [rewrite (ravel_length psi0 Ny Hpr), Hpl; reflexivity|].
    split; [exact Hnz|]. intros m Hm1. lia.
  - intros n [psi_t vec] Hn (Hlen & H0 & Hl & Hz & Hnorm). cbn [fst snd] in *.
    assert (HBc : sp_cols B = (Nx * Ny)%nat).
    { destruct (cn_matrices_R (Nx * Ny) Hm dt hbar Hr Hc Hh)
        as (A' & B' & E & _ & _ & _ & HB & _).
      rewrite Hcn in E. injection E as <- <-. exact HB. }
    unfold cn_step_2d. rewrite Hl, HBc, Nat.eqb_refl. cbn [negb].
    eexists. split; [reflexivity|].
    destruct (cn_step_nonzero (Nx * Ny) Hm dt hbar A B lu_solve vec
                Hr Hc Hsym Hh Hcn Hlu Hl Hz) as [Hl' Hz'].
    set (psi_n := lu_solve (sp_dot B vec)) in *.
    assert (Hpos : (0 < trapz (trapz_rows (map (map abs2) (reshape Nx Ny psi_n))
                                 (row Y 0)) (column 0%R X 0))%R)
      by (apply quad_norm2_2d_pos; assumption).
    unfold P. cbn [fst snd]. rewrite length_insert.
    split; [exact Hlen|]. split; [rewrite nth_insert_ne by lia; exact H0|].
    split; [rewrite length_map; exact Hl'|].
    split.
    + apply map_divr_nonzero; [|exact Hz'].
      apply quad_norm_sqrt_nonzero, Hpos.
    + intros m Hm1. destruct (Nat.eq_dec m n) as [->|Hne].
      * rewrite nth_insert_eq by lia. apply quad_norm_2d_normalized, Hpos.
      * rewrite nth_insert_ne by lia. apply Hnorm. lia.
  - exists st. unfold py_range1. split; [exact Hfe|].
    destruct HP as (Hlen & H0 & _ & _ & Hnorm).
    split; [exact Hlen|]. split; [exact H0|].
    intros n Hn. apply Hnorm. lia.
Qed.

(** ** The time-dependent solvers *)

Lemma spacing_1d_R (x : list R) :
  (2 <= length x)%nat ->
  spacing_1d x = Ok (nth 1 x 0 - nth 0 x 0)%R.
Proof.
  intros Hx. unfold spacing_1d.
  rewrite (getitem_nth x 1 0%R), (getitem_nth x 0 0%R) by lia. reflexivity.
Qed.

Lemma getitem2_nth {A} (a : list (list A)) (Nx Ny i j : nat) (d : A) :
  grid_shaped Nx Ny a -> (i < Nx)%nat -> (j < Ny)%nat ->
  getitem2 a i j = Ok (nth j (nth i a []) d).
Proof.
  intros [Hl Hr] Hi Hj. unfold getitem2.
  rewrite (getitem_nth a i []) by lia. step.
  apply getitem_nth. rewrite List.Forall_forall in Hr.
  rewrite (Hr (nth i a [])) by (apply nth_In; lia). exact Hj.
Qed.

Lemma spacing_2d_R (X Y : list (list R)) (Nx Ny : nat) :
  valid_grid_2d X Y Nx Ny ->
  spacing_2d X Y
  = Ok ((nth 0 (nth 1 X []) 0 - nth 0 (nth 0 X []) 0)%R,
        (nth 1 (nth 0 Y []) 0 - nth 0 (nth 0 Y []) 0)%R)
  /\ shape2 X = (Nx, Ny).
Proof.
  intros (HNx & HNy & HX & HY & _ & _). split.
  - unfold spacing_2d.
    rewrite (getitem2_nth X Nx Ny 1 0 0%R HX), (getitem2_nth X Nx Ny 0 0 0%R HX),
      (getitem2_nth Y Nx Ny 0 1 0%R HY), (getitem2_nth Y Nx Ny 0 0 0%R HY) by lia.
    reflexivity.
  - destruct HX as [Hl Hr]. unfold shape2. rewrite Hl. f_equal.
    destruct X as [|r X]; [simpl in Hl; lia|]. apply Forall_inv in Hr. exact Hr.
Qed.

Lemma np_broadcast_to_same {A} (n : nat) (a : list A) :
  length a = n -> np_broadcast_to n a = Ok a.
Proof. intros Hl. unfold np_broadcast_to. rewrite Hl, Nat.eqb_refl. reflexivity. Qed.

Lemma map_result_broadcast_same {A} (n : nat) (l : list (list A)) :
  Forall (fun r => length r = n) l -> map_result (np_broadcast_to n) l = Ok l.
Proof.
  induction 1 as [|r l Hr _ IH]; [reflexivity|].
  cbn [map_result]. rewrite (np_broadcast_to_same n r Hr). step.
  rewrite IH. reflexivity.
Qed.

Lemma assign_first_2d_ok {A} (psi_t : list (list (list A))) (Nx Ny : nat)
  (psi0 : list (list A)) :
  grid_shaped Nx Ny psi0 ->
  assign_first_2d psi_t Nx Ny psi0 = Ok (<[O := psi0]> psi_t).
Proof.
  intros [Hl Hr]. unfold assign_first_2d.
  rewrite (np_broadcast_to_same Nx psi0 Hl). step.
  rewrite (map_result_broadcast_same Ny psi0 Hr). reflexivity.
Qed.

(** C4 (as the code has it). On a grid of increasing points, with an
    initial wavefunction of the grid's shape that is not zero, a real
    finite potential of the same shape, non-zero mass and [hbar], at least
    two time points and an exact sparse factorisation, both Crank-Nicolson
    solvers return one snapshot per time point; the first snapshot is the
    initial wavefunction, and every later snapshot has trapezoidal
    quadrature norm one, the result of each step being divided by its
    norm.  The solvers test none of these conditions. *)
Theorem crank_nicolson_snapshots
  (splu : spmatrix C -> result (list C -> list C))
  (x : list R) (psi0 : list C) (V : list R)
  (X Y : list (list R)) (Nx Ny : nat)
  (psi0_2d : list (list C)) (V_2d : list (list R))
  (times : list R) (mass hbar : R) :
  (2 <= length times)%nat -> mass <> 0%R -> hbar <> 0%R ->
  valid_grid_1d x -> length psi0 = length x -> nonzero psi0 ->
  length V = length x ->
  valid_grid_2d X Y Nx Ny -> grid_shaped Nx Ny psi0_2d ->
  nonzero (ravel psi0_2d) -> grid_shaped Nx Ny V_2d ->
  (forall Hm A B,
      hamiltonian_1d (length x) (nth 1 x 0 - nth 0 x 0)%R V mass hbar = Ok Hm ->
      cn_matrices (length x) Hm (nth 1 times 0 - nth 0 times 0)%R hbar = Ok (A, B) ->
      splu_exact splu A) ->
  (forall Hm A B,
      hamiltonian_2d Nx Ny
        (nth 0 (nth 1 X []) 0 - nth 0 (nth 0 X []) 0)%R
        (nth 1 (nth 0 Y []) 0 - nth 0 (nth 0 Y []) 0)%R V_2d mass hbar = Ok Hm ->
      cn_matrices (Nx * Ny) Hm (nth 1 times 0 - nth 0 times 0)%R hbar = Ok (A, B) ->
      splu_exact splu A) ->
  (exists psi_t,
      solve_time_dependent_1d splu x psi0 V times mass hbar "crank-nicolson"
      = Ok psi_t
      /\ length psi_t = length times
      /\ nth 0 psi_t [] = psi0
      /\ forall n, (1 <= n < length times)%nat ->
                   quad_norm_1d (nth n psi_t []) x = 1%R)
  /\ (exists psi_t,
         solve_time_dependent_2d splu X Y psi0_2d V_2d times mass hbar
           "crank-nicolson" = Ok psi_t
         /\ length psi_t = length times
         /\ nth 0 psi_t [] = psi0_2d
         /\ forall n, (1 <= n < length times)%nat ->
                      quad_norm_2d (nth n psi_t []) X Y = 1%R).
Proof.
  intros Ht Hmass Hh Hx Hp0 Hnz HV HXY Hp2 Hnz2 HV2 Hlu1 Hlu2. split.
  - pose proof Hx as [Hx2 _].
    set (dx := (nth 1 x 0 - nth 0 x 0)%R) in *.
    set (dt := (nth 1 times 0 - nth 0 times 0)%R) in *.
    assert (HN1 : (1 <= length x)%nat) by lia.
    pose proof (hamiltonian_1d_R (length x) dx V mass hbar HN1 HV Hmass) as HH.
    destruct (hamiltonian_1d_symmetric (length x) dx V mass hbar _ HN1 HV Hmass HH)
      as (Hr & Hc & Hsym).
    destruct (cn_matrices_R (length x) _ dt hbar Hr Hc Hh)
      as (A & B & Hcn & HAr & _).
    destruct (Hlu1 _ A B HH Hcn) as (lu_solve & Hsplu & Hexact).
    destruct (cn_loop_1d (length x) (length times) _ dt hbar A B lu_solve x psi0
                Hr Hc Hsym Hh Hcn Hexact Hx eq_refl Hp0 Hnz ltac:(lia))
      as (psi_t & Hfe & Hres).
    exists psi_t. split; [|exact Hres].
    unfold solve_time_dependent_1d. rewrite String.eqb_refl. cbn [negb].
    complex_carrier.
    rewrite spacing_1d_R by exact Hx2. step.
    rewrite (getitem_nth times 1 0%R), (getitem_nth times 0 0%R) by lia.
    do 2 step. unfold assign_first. rewrite (np_broadcast_to_same _ _ Hp0). do 2 step.
    fold dx. rewrite HH. step. fold dt. rewrite Hcn. step.
    rewrite Hsplu. step. exact Hfe.
  - destruct (spacing_2d_R X Y Nx Ny HXY) as [Hsp Hshape].
    pose proof HXY as (HNx & HNy & _).
    set (dx := (nth 0 (nth 1 X []) 0 - nth 0 (nth 0 X []) 0)%R) in *.
    set (dy := (nth 1 (nth 0 Y []) 0 - nth 0 (nth 0 Y []) 0)%R) in *.
    set (dt := (nth 1 times 0 - nth 0 times 0)%R) in *.
    assert (HNx1 : (1 <= Nx)%nat) by lia. assert (HNy1 : (1 <= Ny)%nat) by lia.
    assert (HVl : length (ravel V_2d) = (Nx * Ny)%nat).
    { destruct HV2 as [Hl Hrw]. rewrite (ravel_length V_2d Ny Hrw), Hl. reflexivity. }
    pose proof (hamiltonian_2d_R Nx Ny dx dy V_2d mass hbar HNx1 HNy1 HVl Hmass) as HH.
    destruct (hamiltonian_2d_symmetric Nx Ny dx dy V_2d mass hbar _ HNx1 HNy1 HVl Hmass HH)
      as (Hr & Hc & Hsym).
    destruct (cn_matrices_R (Nx * Ny) _ dt hbar Hr Hc Hh)
      as (A & B & Hcn & HAr & _).
    destruct (Hlu2 _ A B HH Hcn) as (lu_solve & Hsplu & Hexact).
    destruct (cn_loop_2d Nx Ny (length times) _ dt hbar A B lu_solve X Y psi0_2d
                Hr Hc Hsym Hh Hcn Hexact HXY Hp2 Hnz2 ltac:(lia))
      as (st & Hfe & Hres).
    exists (fst st). split; [|exact Hres].
    unfold solve_time_dependent_2d. rewrite String.eqb_refl. cbn [negb].
    complex_carrier.
    rewrite Hshape, Hsp. step.
    rewrite (getitem_nth times 1 0%R), (getitem_nth times 0 0%R) by lia.
    do 2 step. rewrite assign_first_2d_ok by exact Hp2. step.
    rewrite HH. step. fold dt. rewrite Hcn. step.
    rewrite Hsplu. step. rewrite Hfe. reflexivity.
Qed.

(** [lu_solve_small] solves the two systems exactly *)
Lemma splu_small_exact_1d (Hm : spmatrix R) (A B : spmatrix C) :
  hamiltonian_1d 2 (1 - 0)%R cn_potential_1d 1%R 1%R = Ok Hm ->
  cn_matrices 2 Hm (2 - 0)%R 1%R = Ok (A, B) ->
  splu_exact splu_small A.
Proof.
  intros HH Hcn.
  rewrite hamiltonian_1d_R in HH by (try reflexivity; try lra; lia).
  apply Ok_inj in HH. subst Hm.
  match type of Hcn with cn_matrices _ ?H _ _ = _ =>
    destruct (cn_matrices_R 2 H (2 - 0)%R 1%R eq_refl eq_refl ltac:(lra))
      as (A' & B' & Hcn' & HAr & HAc & _ & _ & HAe & _)
  end.
  pose proof (eq_trans (eq_sym Hcn') Hcn) as E. injection E as -> _.
  exists lu_solve_small. split; [reflexivity|].
  intros b Hb. rewrite HAr in *.
  destruct b as [|[r0 m0] [|[r1 m1] [|? ?]]]; try discriminate Hb.
  split; [reflexivity|].
  unfold sp_dot. rewrite HAr, HAc. cbn [seq map fold_right]. rewrite !HAe.
  cbv -[Rplus Rminus Rmult Rdiv Ropp Rinv IZR].
  repeat (apply (f_equal2 cons)); try reflexivity; f_equal; field.
Qed.

Lemma splu_small_exact_2d (Hm : spmatrix R) (A B : spmatrix C) :
  hamiltonian_2d 2 2 (1 - 0)%R (1 - 0)%R cn_potential_2d 1%R 1%R = Ok Hm ->
  cn_matrices (2 * 2) Hm (2 - 0)%R 1%R = Ok (A, B) ->
  splu_exact splu_small A.
Proof.
  intros HH Hcn.
  rewrite hamiltonian_2d_R in HH by (try reflexivity; try lra; lia).
  apply Ok_inj in HH. subst Hm.
  match type of Hcn with cn_matrices _ ?H _ _ = _ =>
    destruct (cn_matrices_R 4 H (2 - 0)%R 1%R eq_refl eq_refl ltac:(lra))
      as (A' & B' & Hcn' & HAr & HAc & _ & _ & HAe & _)
  end.
  pose proof (eq_trans (eq_sym Hcn') Hcn) as E. injection E as -> _.
  exists lu_solve_small. split; [reflexivity|].
  intros b Hb. rewrite HAr in *.
  destruct b as [|[r0 m0] [|[r1 m1] [|[r2 m2] [|[r3 m3] [|? ?]]]]];
    try discriminate Hb.
  split; [reflexivity|].
  unfold sp_dot. rewrite HAr, HAc. cbn [seq map fold_right]. rewrite !HAe.
  cbv -[Rplus Rminus Rmult Rdiv Ropp Rinv IZR].
  repeat (apply (f_equal2 cons)); try reflexivity; f_equal; field.
Qed.

Lemma crank_nicolson_snapshots_witness :
  (exists psi_t,
      solve_time_dependent_1d splu_small cn_grid_1d cn_psi0_1d cn_potential_1d
        cn_times 1%R 1%R "crank-nicolson" = Ok psi_t
      /\ length psi_t = 2%nat
      /\ nth 0 psi_t [] = cn_psi0_1d
      /\ quad_norm_1d (nth 1 psi_t []) cn_grid_1d = 1%R)
  /\ (exists psi_t,
         solve_time_dependent_2d splu_small square_X square_Y cn_psi0_2d
           cn_potential_2d cn_times 1%R 1%R "crank-nicolson" = Ok psi_t
         /\ length psi_t = 2%nat
         /\ nth 0 psi_t [] = cn_psi0_2d
         /\ quad_norm_2d (nth 1 psi_t []) square_X square_Y = 1%R).
Proof.
  assert (Hone : RtoC 1 <> RtoC 0) by (intros [= E]; lra).
  destruct (crank_nicolson_snapshots splu_small cn_grid_1d cn_psi0_1d
              cn_potential_1d square_X square_Y 2 2 cn_psi0_2d cn_potential_2d
              cn_times 1 1) as [H1 H2].
  - simpl; lia.
  - lra.
  - lra.
  - split; [simpl; lia|]. repeat constructor. lra.
  - reflexivity.
  - left. exact Hone.
  - reflexivity.
  - repeat split; try (simpl; lia); repeat constructor; simpl; lra.
  - split; [reflexivity | repeat constructor].
  - left. exact Hone.
  - split; [reflexivity | repeat constructor].
  - exact splu_small_exact_1d.
  - exact splu_small_exact_2d.
  - split.
    + destruct H1 as (psi_t & Hs & Hl & H0 & Hn). exists psi_t.
      repeat split; try assumption. apply Hn. simpl; lia.
    + destruct H2 as (psi_t & Hs & Hl & H0 & Hn). exists psi_t.
      repeat split; try assumption. apply Hn. simpl; lia.
Defined.

(** ** The zero wavefunction on binary64 values *)

Lemma xfinite_inv (v : xreal) : xfinite v = true -> exists r, v = Fin r.
Proof. destruct v; try discriminate. intros _. eexists; reflexivity. Qed.

Lemma xCfinite_inv (z : xC) :
  xCfinite z = true -> exists p q, z = mkxC (Fin p) (Fin q).
Proof.
  destruct z as [[p| | |] [q| | |]]; try discriminate.
  intros _. eexists _, _; reflexivity.
Qed.

Lemma diag_lookup_Forall {T} (P : T -> Prop) (ds : list (list T * Z)) i j v :
  Forall (fun dk => Forall P (fst dk)) ds ->
  diag_lookup ds i j = Some v -> P v.
Proof.
  induction 1 as [|[d k] ds Hd _ IH]; [discriminate|].
  cbn [diag_lookup]. destruct (_ =? _)%Z; [|exact IH].
  intros Hv. exact (Forall_lookup_1 _ _ _ _ Hd Hv).
Qed.

(** an entry of [diags(diagonals, offsets)] is an entry of a diagonal *)
Lemma diags_Forall {T} `{Scalar T} (P : T -> Prop)
  (diagonals : list (list T)) (offsets : list Z) i j v :
  Forall (Forall P) diagonals ->
  sp_get (diags diagonals offsets) i j = Some v -> P v.
Proof.
  intros HP. unfold diags. cbn [sp_get]. destruct (_ && _); [|discriminate].
  apply diag_lookup_Forall. apply List.Forall_forall. intros [d k] Hin.
  apply in_combine_l in Hin. rewrite List.Forall_forall in HP.
  exact (HP d Hin).
Qed.

Lemma Forall_repeat {T} (P : T -> Prop) (a : T) (n : nat) :
  P a -> Forall P (repeat a n).
Proof.
  intros Ha. apply List.Forall_forall. intros b Hb.
  apply repeat_spec in Hb. subst b. exact Ha.
Qed.

(** on finite values with a spacing and a mass that are not zero the
    Hamiltonian is assembled as over the reals: no stored value is an
    infinity or a [nan] *)
Lemma hamiltonian_1d_finite (N : nat) (V : list R) (dx m h : R) :
  dx <> 0%R -> m <> 0%R -> length V = N -> (1 <= N)%nat ->
  exists Hm : spmatrix xreal,
    hamiltonian_1d N (Fin dx) (map Fin V) (Fin m) (Fin h) = Ok Hm
    /\ sp_rows Hm = N /\ sp_cols Hm = N /\ finite_entries Hm.
Proof.
  intros Hdx0 Hm0 HV HN.
  assert (Hc : kinetic_factor (Fin m) (Fin h)
               = Ok (Fin (- (h * h) / ((1 + 1) * m)))).
  { unfold kinetic_factor, pydiv. simpl.
    rewrite !Rzerob_false by lra. reflexivity. }
  destruct (laplacian_1d_shape N (Fin dx)) as [Hr Hcl]; [lia|].
  unfold hamiltonian_1d. rewrite Hc. simpl mbind.
  destruct (diags_main_shape (map Fin V)) as [HVr HVc].
  rewrite length_map in HVr, HVc.
  rewrite sp_add_ok
    by (unfold sp_scale; cbn [sp_rows sp_cols]; congruence).
  eexists. split; [reflexivity|].
  unfold sp_scale; cbn [sp_rows sp_cols sp_get].
  split; [exact Hr|]. split; [exact Hcl|].
  intros i j v. cbn [sp_get].
  assert (HL : forall a, sp_get (laplacian_1d N (Fin dx)) i j = Some a ->
                         exists r, a = Fin r).
  { intros a. unfold laplacian_1d, sp_div. cbn [sp_get].
    destruct (sp_get (diags _ _) i j) as [b|] eqn:Eb; [|discriminate].
    assert (Hb : xfinite b = true).
    { revert Eb. apply (diags_Forall (fun v => xfinite v = true)).
      repeat constructor; apply Forall_repeat; reflexivity. }
    destruct (xfinite_inv b Hb) as [r ->].
    intros [= <-]. simpl. rewrite Rzerob_false by nra. eexists; reflexivity. }
  assert (HD : forall a, sp_get (diags [map Fin V] [0%Z]) i j = Some a ->
                         exists r, a = Fin r).
  { intros a Ea. apply xfinite_inv. revert Ea.
    apply (diags_Forall (fun v => xfinite v = true)).
    repeat constructor. apply List.Forall_forall. intros b Hb.
    apply in_map_iff in Hb. destruct Hb as (r & <- & _). reflexivity. }
  destruct (sp_get (laplacian_1d N (Fin dx)) i j) as [a|];
    destruct (sp_get (diags [map Fin V] [0%Z]) i j) as [b|];
    cbn [option_map entry_add]; try discriminate; intros [= <-].
  - destruct (HL a eq_refl) as [r ->]. destruct (HD b eq_refl) as [r' ->].
    reflexivity.
  - destruct (HL a eq_refl) as [r ->]. reflexivity.
  - destruct (HD b eq_refl) as [r' ->]. reflexivity.
Qed.

Lemma xCmul_finite (a b : xC) :
  xCfinite a = true -> xCfinite b = true -> xCfinite (xCmul a b) = true.
Proof.
  intros Ha Hb. destruct (xCfinite_inv a Ha) as (p & q & ->).
  destruct (xCfinite_inv b Hb) as (p' & q' & ->). reflexivity.
Qed.

Lemma xCadd_finite (a b : xC) :
  xCfinite a = true -> xCfinite b = true -> xCfinite (xCadd a b) = true.
Proof.
  intros Ha Hb. destruct (xCfinite_inv a Ha) as (p & q & ->).
  destruct (xCfinite_inv b Hb) as (p' & q' & ->). reflexivity.
Qed.

Lemma xCsub_finite (a b : xC) :
  xCfinite a = true -> xCfinite b = true -> xCfinite (xCsub a b) = true.
Proof.
  intros Ha Hb. destruct (xCfinite_inv a Ha) as (p & q & ->).
  destruct (xCfinite_inv b Hb) as (p' & q' & ->). reflexivity.
Qed.

Lemma xCopp_finite (a : xC) : xCfinite a = true -> xCfinite (xCopp a) = true.
Proof. intros Ha. destruct (xCfinite_inv a Ha) as (p & q & ->). reflexivity. Qed.

(** a finite complex value divided by a real that is not zero is finite *)
Lemma xCdiv_real_finite (z : xC) (t : R) :
  xCfinite z = true -> t <> 0%R -> xCfinite (divr z (Fin t)) = true.
Proof.
  intros Hz Ht. destruct (xCfinite_inv z Hz) as (p & q & ->).
  assert (Hle : (Rabs 0 <= Rabs t)%R) by (rewrite Rabs_R0; apply Rabs_pos).
  assert (Hnz : Rabs t <> 0%R) by (apply Rabs_no_R0; exact Ht).
  cbv [divr xC_amplitude xCdiv xRe xIm xRtoC xabs xleb xzerob xdiv xmul xadd
       xsub xopp].
  rewrite (Rltb_false _ _ Hle). cbn [negb].
  rewrite (Rzerob_false _ Hnz). cbn [andb].
  rewrite (Rzerob_false _ Ht).
  rewrite (Rzerob_false (t + 0 * (0 / t))%R) by lra.
  reflexivity.
Qed.

(** the zero wavefunction divided by a zero norm: [0/0], [nan] in both
    components *)
Lemma xCdiv_zero_by_zero :
  divr (xRtoC (Fin 0)) (Fin 0) = mkxC NaN NaN.
Proof.
  cbv [divr xC_amplitude xCdiv xRe xIm xRtoC xabs xleb xzerob xdiv xmul xadd
       xsub xopp xinf_signed].
  rewrite (Rltb_false (Rabs 0) (Rabs 0)) by lra. cbn [negb].
  rewrite (Rzerob_true (Rabs 0)) by apply Rabs_R0. cbn [andb].
  rewrite (Rzerob_true 0%R) by reflexivity. reflexivity.
Qed.

Lemma cn_matrices_finite (N : nat) (Hm : spmatrix xreal) (dt hbar : R) :
  sp_rows Hm = N -> sp_cols Hm = N -> finite_entries Hm -> hbar <> 0%R ->
  exists A B : spmatrix xC,
    cn_matrices N Hm (Fin dt) (Fin hbar) = Ok (A, B)
    /\ sp_rows A = N /\ sp_cols A = N /\ sp_rows B = N /\ sp_cols B = N
    /\ finite_entries A /\ finite_entries B.
Proof.
  intros Hr Hc Hfin Hh. unfold cn_matrices, cn_increment.
  change (@szerob xreal xreal_scalar
            (@smul xreal xreal_scalar (@s2 xreal xreal_scalar) (Fin hbar)))
    with (Rzerob ((1 + 1) * hbar)).
  rewrite Rzerob_false by lra. step.
  assert (Hid : sp_rows (sp_map (@of_real xC xreal _) (diags [np_ones N] [0%Z])) = N
                /\ sp_cols (sp_map (@of_real xC xreal _) (diags [np_ones N] [0%Z])) = N).
  { unfold sp_map, diags, np_ones. cbn [sp_rows sp_cols length Z.abs_nat].
    rewrite repeat_length. lia. }
  destruct Hid as [Hir Hic].
  rewrite sp_add_ok by (unfold sp_map at 2 3; cbn [sp_rows sp_cols]; congruence).
  do 2 step.
  rewrite sp_sub_ok by (unfold sp_map at 2 3; cbn [sp_rows sp_cols]; congruence).
  step. eexists _, _. split; [reflexivity|]. cbn [sp_rows sp_cols].
  repeat (split; [assumption|]).
  assert (HI : forall i j a,
            sp_get (sp_map (@of_real xC xreal _) (diags [np_ones N] [0%Z])) i j
            = Some a -> xCfinite a = true).
  { intros i j a. unfold sp_map at 1. cbn [sp_get].
    destruct (sp_get (diags _ _) i j) as [b|] eqn:Eb; [|discriminate].
    assert (Hb : xfinite b = true).
    { revert Eb. apply (diags_Forall (fun v => xfinite v = true)).
      repeat constructor; apply Forall_repeat; reflexivity. }
    destruct (xfinite_inv b Hb) as [r ->]. intros [= <-]. reflexivity. }
  assert (HS : forall i j a,
            sp_get (sp_map (fun z : xC => divr z (s2 * Fin hbar)%S)
                      (sp_map (fun h : xreal =>
                                 (imag_unit * of_real (Fin dt) * of_real h)%S) Hm))
                   i j = Some a ->
            xCfinite a = true).
  { intros i j a. unfold sp_map. cbn [sp_get].
    destruct (sp_get Hm i j) as [b|] eqn:Eb; [|discriminate].
    destruct (xfinite_inv b (Hfin i j b Eb)) as [r ->].
    cbn [option_map]. intros [= <-].
    apply (xCdiv_real_finite _ ((1 + 1) * hbar)%R); [reflexivity | lra]. }
  split; intros i j v; cbn [sp_get];
    destruct (sp_get (sp_map of_real _) i j) as [a|] eqn:Ea;
    destruct (sp_get (sp_map (fun z : xC => divr z _) _) i j) as [b|] eqn:Eb;
    cbn [entry_add entry_sub]; try discriminate; intros [= <-];
    try (apply HI in Ea); try (apply HS in Eb).
  - apply xCadd_finite; assumption.
  - assumption.
  - assumption.
  - apply xCsub_finite; assumption.
  - assumption.
  - apply xCopp_finite; assumption.
Qed.

Lemma fold_right_fixed {E I} (f : I -> E -> E) (e : E) (l : list I) :
  (forall i, f i e = e) -> fold_right f e l = e.
Proof.
  intros Hf. induction l as [|i l IH]; [reflexivity|].
  cbn [fold_right]. rewrite IH. apply Hf.
Qed.

(** a matrix of finite values sends the zero vector to the zero vector *)
Lemma sp_dot_zero_vector (M : spmatrix xC) (n : nat) :
  finite_entries M ->
  sp_dot M (repeat (xRtoC (Fin 0)) n) = repeat (xRtoC (Fin 0)) (sp_rows M).
Proof.
  intros Hfin. unfold sp_dot.
  rewrite (map_ext _ (fun _ => xRtoC (Fin 0))).
  - generalize (sp_rows M) at 1 2. intros k. generalize 0%nat.
    induction k as [|k IH]; intros a; [reflexivity|].
    cbn [seq map repeat]. rewrite IH. reflexivity.
  - intros i. apply fold_right_fixed. intros j.
    destruct (sp_get M i j) as [a|] eqn:Ea; [|reflexivity].
    destruct (xCfinite_inv a (Hfin i j a Ea)) as (p & q & ->).
    replace (nth j (repeat (xRtoC (Fin 0)) n) s0) with (xRtoC (Fin 0)).
    2:{ symmetry. apply (nth_repeat (xRtoC (Fin 0)) n j). }
    cbv [smul sadd s0 xC_scalar xCmul xCadd xRtoC xRe xIm xmul xadd xsub xopp].
    f_equal; f_equal; ring.
Qed.

Lemma zero_run_norm : quad_norm_1d zero_run_psi0 zero_run_grid = Fin 0.
Proof.
  unfold quad_norm_1d, zero_run_psi0, zero_run_grid.
  cbv [map abs2 xC_amplitude xCnorm2 xRtoC xRe xIm trapz ssub sadd smul sdiv
       s0 s1 s2 xreal_scalar xsub xadd xmul xdiv xopp ssqrt xreal_sqrt xsqrt].
  rewrite (Rzerob_false (1 + 1)%R) by lra. cbv iota.
  rewrite Rltb_false by lra. f_equal.
  replace ((1 + - 0) * (0 * 0 + 0 * 0 + (0 * 0 + 0 * 0)) / (1 + 1) + 0)%R
    with 0%R by lra.
  apply sqrt_0.
Qed.

(** C4, as stated, fails.  The zero wavefunction on the grid [0, 1] with
    the time points [0, 1] is accepted: the solver returns two snapshots,
    the step from the zero state is the zero vector, its trapezoidal norm
    is [0.0], and the division by that norm leaves [nan + nanj] at every
    grid point of the second snapshot, whose norm is [nan], not one.  The
    factorisation used is exact on this run: [A] applied to what [solve]
    returned is the right-hand side. *)
Lemma crank_nicolson_zero_state_not_normalised :
  exists (psi_t : list (list xC)) (Hm : spmatrix xreal) (A B : spmatrix xC)
         (lu_solve : list xC -> list xC),
    solve_time_dependent_1d splu_zero_rhs zero_run_grid zero_run_psi0
      zero_run_potential zero_run_times (Fin 1) (Fin 1) "crank-nicolson"
    = Ok psi_t
    /\ length psi_t = length zero_run_times
    /\ nth 0 psi_t [] = zero_run_psi0
    /\ nth 1 psi_t [] = [mkxC NaN NaN; mkxC NaN NaN]
    /\ quad_norm_1d (nth 1 psi_t []) zero_run_grid = NaN
    /\ quad_norm_1d (nth 1 psi_t []) zero_run_grid <> Fin 1
    /\ hamiltonian_1d 2 (Fin 1 - Fin 0)%S zero_run_potential (Fin 1) (Fin 1)
       = Ok Hm
    /\ cn_matrices 2 Hm (Fin 1 - Fin 0)%S (Fin 1) = Ok (A, B)
    /\ splu_zero_rhs A = Ok lu_solve
    /\ sp_dot A (lu_solve (sp_dot B zero_run_psi0)) = sp_dot B zero_run_psi0.
Proof.
  destruct (hamiltonian_1d_finite 2 [0; 0]%R (1 + - 0) 1 1
              ltac:(lra) ltac:(lra) eq_refl ltac:(lia))
    as (Hm & HH & Hr & Hc & Hfin).
  destruct (cn_matrices_finite 2 Hm (1 + - 0) 1 Hr Hc Hfin ltac:(lra))
    as (A & B & Hcn & HAr & HAc & HBr & HBc & HAf & HBf).
  assert (HB0 : sp_dot B zero_run_psi0 = zero_run_psi0).
  { change zero_run_psi0 with (repeat (xRtoC (Fin 0)) 2).
    rewrite (sp_dot_zero_vector B 2 HBf), HBr. reflexivity. }
  assert (HA0 : sp_dot A zero_run_psi0 = zero_run_psi0).
  { change zero_run_psi0 with (repeat (xRtoC (Fin 0)) 2).
    rewrite (sp_dot_zero_vector A 2 HAf), HAr. reflexivity. }
  assert (Hrun :
    solve_time_dependent_1d splu_zero_rhs zero_run_grid zero_run_psi0
      zero_run_potential zero_run_times (Fin 1) (Fin 1) "crank-nicolson"
    = Ok [zero_run_psi0; [mkxC NaN NaN; mkxC NaN NaN]]).
  { unfold solve_time_dependent_1d.
    change (String.eqb "crank-nicolson" "crank-nicolson") with true.
    cbn [negb].
    change (spacing_1d zero_run_grid) with (Ok (Fin (1 + - 0))). step.
    change (getitem zero_run_times 1) with (Ok (Fin 1)).
    change (getitem zero_run_times 0) with (Ok (Fin 0)). do 2 step.
    change (assign_first
              (repeat (repeat s0 (length zero_run_grid)) (length zero_run_times))
              (length zero_run_grid) zero_run_psi0)
      with (Ok [zero_run_psi0; zero_run_psi0]). step.
    change (length zero_run_grid) with 2%nat.
    change zero_run_potential with (map Fin [0; 0]%R).
    rewrite HH. step.
    change (Fin 1 - Fin 0)%S with (Fin (1 + - 0)). rewrite Hcn. step.
    unfold splu_zero_rhs. step.
    change (py_range1 (length zero_run_times)) with [1%nat].
    cbn [for_each]. unfold cn_step_1d.
    change (nth (1 - 1) [zero_run_psi0; zero_run_psi0] []) with zero_run_psi0.
    rewrite HB0, zero_run_norm. step.
    unfold zero_run_psi0 at 1. cbn [map]. rewrite xCdiv_zero_by_zero.
    reflexivity. }
  assert (Hnan : quad_norm_1d [mkxC NaN NaN; mkxC NaN NaN] zero_run_grid = NaN)
    by reflexivity.
  exists [zero_run_psi0; [mkxC NaN NaN; mkxC NaN NaN]], Hm, A, B, (fun b => b).
  split; [exact Hrun|]. split; [reflexivity|]. split; [reflexivity|].
  split; [reflexivity|]. cbn [nth].
  split; [exact Hnan|]. split; [rewrite Hnan; discriminate|].
  split; [exact HH|]. split; [exact Hcn|]. split; [reflexivity|].
  rewrite HB0. exact HA0.
Qed.
(** ** Grids with increasing bounds *)

Lemma Sorted_nth_lt (l : list R) :
  (forall i, (S i < length l)%nat -> (nth i l 0 < nth (S i) l 0)%R) ->
  Sorted Rlt l.
Proof.
  induction l as [|a l IH]; intros Hl; [constructor|].
  constructor.
  - apply IH. intros i Hi. apply (Hl (S i)). simpl. lia.
  - destruct l as [|b l]; constructor.
    apply (Hl O). simpl. lia.
Qed.

Lemma linspace_sorted (a b : R) (n : nat) :
  (2 <= n)%nat -> (a < b)%R -> Sorted Rlt (linspace a b n).
Proof.
  intros Hn Hab. apply Sorted_nth_lt. intros i Hi.
  rewrite linspace_length in Hi by lia.
  rewrite !linspace_nth by lia. rewrite S_INR.
  assert (0 < INR (n - 1))%R by (apply lt_0_INR; lia).
  assert (0 < / INR (n - 1))%R by (apply Rinv_0_lt_compat; assumption).
  unfold Rdiv. nra.
Qed.

Lemma linspace_last (a b : R) (n : nat) :
  (2 <= n)%nat -> nth (n - 1) (linspace a b n) 0%R = b.
Proof.
  intros Hn. rewrite linspace_nth by lia.
  assert (INR (n - 1) <> 0)%R by (apply not_0_INR; lia).
  field. assumption.
Qed.

Lemma linspace_spacing (a b : R) (n : nat) :
  (2 <= n)%nat ->
  spacing_1d (linspace a b n) = Ok ((b - a) / INR (n - 1))%R.
Proof.
  intros Hn. unfold spacing_1d.
  rewrite (getitem_nth _ _ 0%R) by (rewrite linspace_length; lia).
  rewrite (getitem_nth _ _ 0%R) by (rewrite linspace_length; lia).
  simpl. rewrite !linspace_nth by lia. f_equal. simpl.
  assert (INR (n - 1) <> 0)%R by (apply not_0_INR; lia).
  field. assumption.
Qed.

(** X1. For at least two points and [xmin < xmax], [create_1d_grid]
    returns the uniform grid: [num_points] samples, the first [xmin], the
    last [xmax], sample [i] at [xmin + i * dx] with the returned spacing
    [dx = (xmax - xmin) / (num_points - 1) > 0].  The samples increase
    strictly, and the spacing the solvers read back from the grid
    ([x[1] - x[0]]) is the returned [dx]. *)
Theorem create_1d_grid_uniform (xmin xmax : R) (num_points : Z) :
  (2 <= num_points)%Z -> (xmin < xmax)%R ->
  exists (x : list R) (dx : R),
    create_1d_grid xmin xmax num_points = Ok (x, dx)
    /\ length x = Z.to_nat num_points
    /\ dx = ((xmax - xmin) / (IZR num_points - 1))%R
    /\ (0 < dx)%R
    /\ (forall i, (i < length x)%nat -> nth i x 0%R = (xmin + INR i * dx)%R)
    /\ nth 0 x 0%R = xmin
    /\ nth (length x - 1) x 0%R = xmax
    /\ valid_grid_1d x
    /\ spacing_1d x = Ok dx.
Proof.
  intros Hn Hlt.
  set (n := Z.to_nat num_points). assert (Hn2 : (2 <= n)%nat) by (subst n; lia).
  assert (Hpos : (0 < INR (n - 1))%R) by (apply lt_0_INR; lia).
  assert (HIZR : (IZR num_points - 1)%R = INR (n - 1)).
  { rewrite minus_INR by lia. subst n. rewrite INR_IZR_INZ, Z2Nat.id by lia.
    simpl. reflexivity. }
  exists (linspace xmin xmax n), ((xmax - xmin) / INR (n - 1))%R.
  rewrite linspace_length by lia.
  split; [apply create_1d_grid_ok, Hn|].
  split; [reflexivity|].
  split; [rewrite HIZR; reflexivity|].
  split.
  { assert (0 < / INR (n - 1))%R by (apply Rinv_0_lt_compat, Hpos).
    unfold Rdiv. nra. }
  split; [intros i Hi; apply linspace_nth; lia|].
  split; [rewrite linspace_nth by lia; simpl; lra|].
  split; [apply linspace_last; lia|].
  split.
  { split; [rewrite linspace_length; lia | apply linspace_sorted; assumption]. }
  apply linspace_spacing; lia.
Qed.

Lemma create_1d_grid_uniform_witness :
  exists (x : list R) (dx : R),
    create_1d_grid (-1)%R 1%R 3 = Ok (x, dx)
    /\ length x = 3%nat /\ dx = ((1 - -1) / (3 - 1))%R /\ valid_grid_1d x.
Proof.
  destruct (create_1d_grid_uniform (-1)%R 1%R 3 ltac:(lia) ltac:(lra))
    as (x & dx & Hc & Hl & Hd & _ & _ & _ & _ & Hv & _).
  exists x, dx. repeat split; try assumption; apply Hv.
Defined.

(** ** The meshgrid of [create_2d_grid] *)

Lemma meshgrid_shape {T} (x y : list T) :
  grid_shaped (length x) (length y) (fst (meshgrid_ij x y))
  /\ grid_shaped (length x) (length y) (snd (meshgrid_ij x y)).
Proof.
  unfold meshgrid_ij, grid_shaped. simpl. rewrite !length_map.
  repeat split; apply List.Forall_forall; intros r Hr;
    apply in_map_iff in Hr as (a & <- & _); [apply length_map | reflexivity].
Qed.

Lemma nth_map_in {A B} (f : A -> B) (l : list A) (i : nat) (d : A) (d' : B) :
  (i < length l)%nat -> nth i (map f l) d' = f (nth i l d).
Proof.
  revert i; induction l as [|a l IH]; intros [|i] Hi; simpl in *; try lia.
  - reflexivity.
  - apply IH. lia.
Qed.

Lemma meshgrid_X_nth {T} (x y : list T) (i j : nat) (d : T) :
  (i < length x)%nat -> (j < length y)%nat ->
  nth j (nth i (fst (meshgrid_ij x y)) []) d = nth i x d.
Proof.
  intros Hi Hj. unfold meshgrid_ij. simpl.
  rewrite (nth_map_in _ x i d) by exact Hi.
  rewrite (nth_map_in _ y j d) by exact Hj. reflexivity.
Qed.

Lemma meshgrid_Y_nth {T} (x y : list T) (i j : nat) (d : T) :
  (i < length x)%nat ->
  nth j (nth i (snd (meshgrid_ij x y)) []) d = nth j y d.
Proof.
  intros Hi. unfold meshgrid_ij. simpl.
  rewrite (nth_map_in _ x i d) by exact Hi. reflexivity.
Qed.

Lemma meshgrid_column {T} (x y : list T) (d : T) :
  (1 <= length y)%nat -> column d (fst (meshgrid_ij x y)) 0 = x.
Proof.
  intros Hy. unfold column, meshgrid_ij. simpl. rewrite map_map.
  rewrite <- (map_id x) at 2. apply map_ext. intros a.
  destruct y as [|b y]; [simpl in Hy; lia | reflexivity].
Qed.

Lemma meshgrid_row {T} (x y : list T) :
  (1 <= length x)%nat -> row (snd (meshgrid_ij x y)) 0 = y.
Proof.
  intros Hx. unfold row, meshgrid_ij.
  destruct x as [|a x]; [simpl in Hx; lia | reflexivity].
Qed.

Lemma create_2d_grid_ok (xmin xmax ymin ymax : R) (num_x num_y : Z) :
  (2 <= num_x)%Z -> (2 <= num_y)%Z ->
  create_2d_grid xmin xmax num_x ymin ymax num_y
  = Ok (fst (meshgrid_ij (linspace xmin xmax (Z.to_nat num_x))
                         (linspace ymin ymax (Z.to_nat num_y))),
        snd (meshgrid_ij (linspace xmin xmax (Z.to_nat num_x))
                         (linspace ymin ymax (Z.to_nat num_y))),
        ((xmax - xmin) / INR (Z.to_nat num_x - 1))%R,
        ((ymax - ymin) / INR (Z.to_nat num_y - 1))%R).
Proof.
  intros Hx Hy. unfold create_2d_grid.
  destruct (Z.ltb_spec num_x 2); [lia|]. destruct (Z.ltb_spec num_y 2); [lia|].
  cbn [orb].
  pose proof (linspace_spacing xmin xmax (Z.to_nat num_x) ltac:(lia)) as Sx.
  pose proof (linspace_spacing ymin ymax (Z.to_nat num_y) ltac:(lia)) as Sy.
  unfold spacing_1d in Sx, Sy.
  rewrite !(getitem_nth (linspace xmin xmax (Z.to_nat num_x)) _ 0%R) in *
    by (rewrite linspace_length; lia).
  rewrite !(getitem_nth (linspace ymin ymax (Z.to_nat num_y)) _ 0%R) in *
    by (rewrite linspace_length; lia).
  rewrite !bind_ok in *. apply Ok_inj in Sx, Sy.
  cbv beta iota zeta. rewrite Sx, Sy. reflexivity.
Qed.

(** X2. For at least two points per axis and increasing bounds,
    [create_2d_grid] returns two arrays of shape [(num_x, num_y)] with
    [X[i, j] = xmin + i * dx] (constant along [j]) and
    [Y[i, j] = ymin + j * dy] (constant along [i]); the returned spacings
    are [(xmax - xmin) / (num_x - 1)] and [(ymax - ymin) / (num_y - 1)],
    both positive, and they are the ones the two-dimensional solvers read
    back as [X[1,0] - X[0,0]] and [Y[0,1] - Y[0,0]]. *)
Theorem create_2d_grid_meshgrid (xmin xmax ymin ymax : R) (num_x num_y : Z) :
  (2 <= num_x)%Z -> (2 <= num_y)%Z -> (xmin < xmax)%R -> (ymin < ymax)%R ->
  exists (X Y : list (list R)) (dx dy : R),
    create_2d_grid xmin xmax num_x ymin ymax num_y = Ok (X, Y, dx, dy)
    /\ dx = ((xmax - xmin) / (IZR num_x - 1))%R
    /\ dy = ((ymax - ymin) / (IZR num_y - 1))%R
    /\ (0 < dx)%R /\ (0 < dy)%R
    /\ shape2 X = (Z.to_nat num_x, Z.to_nat num_y)
    /\ (forall i j, (i < Z.to_nat num_x)%nat -> (j < Z.to_nat num_y)%nat ->
          nth j (nth i X []) 0%R = (xmin + INR i * dx)%R
          /\ nth j (nth i Y []) 0%R = (ymin + INR j * dy)%R)
    /\ valid_grid_2d X Y (Z.to_nat num_x) (Z.to_nat num_y)
    /\ spacing_2d X Y = Ok (dx, dy).
Proof.
  intros Hx Hy Hltx Hlty.
  set (nx := Z.to_nat num_x). set (ny := Z.to_nat num_y).
  assert (Hnx : (2 <= nx)%nat) by (subst nx; lia).
  assert (Hny : (2 <= ny)%nat) by (subst ny; lia).
  assert (Hpx : (0 < INR (nx - 1))%R) by (apply lt_0_INR; lia).
  assert (Hpy : (0 < INR (ny - 1))%R) by (apply lt_0_INR; lia).
  assert (HIx : (IZR num_x - 1)%R = INR (nx - 1)).
  { rewrite minus_INR by lia. subst nx. rewrite INR_IZR_INZ, Z2Nat.id by lia.
    simpl. reflexivity. }
  assert (HIy : (IZR num_y - 1)%R = INR (ny - 1)).
  { rewrite minus_INR by lia. subst ny. rewrite INR_IZR_INZ, Z2Nat.id by lia.
    simpl. reflexivity. }
  set (x := linspace xmin xmax nx). set (y := linspace ymin ymax ny).
  assert (Lx : length x = nx) by (apply linspace_length; lia).
  assert (Ly : length y = ny) by (apply linspace_length; lia).
  destruct (meshgrid_shape x y) as [SX SY]. rewrite Lx, Ly in SX, SY.
  assert (HX : forall i j, (i < nx)%nat -> (j < ny)%nat ->
             nth j (nth i (fst (meshgrid_ij x y)) []) 0%R
             = (xmin + INR i * ((xmax - xmin) / INR (nx - 1)))%R).
  { intros i j Hi Hj. rewrite meshgrid_X_nth by lia.
    apply linspace_nth; lia. }
  assert (HY : forall i j, (i < nx)%nat -> (j < ny)%nat ->
             nth j (nth i (snd (meshgrid_ij x y)) []) 0%R
             = (ymin + INR j * ((ymax - ymin) / INR (ny - 1)))%R).
  { intros i j Hi Hj. rewrite meshgrid_Y_nth by lia.
    apply linspace_nth; lia. }
  assert (Hvalid : valid_grid_2d (fst (meshgrid_ij x y)) (snd (meshgrid_ij x y)) nx ny).
  { split; [exact Hnx|]. split; [exact Hny|]. split; [exact SX|].
    split; [exact SY|]. split.
    - rewrite meshgrid_column by lia. apply linspace_sorted; assumption.
    - rewrite meshgrid_row by lia. apply linspace_sorted; assumption. }
  exists (fst (meshgrid_ij x y)), (snd (meshgrid_ij x y)),
    ((xmax - xmin) / INR (nx - 1))%R, ((ymax - ymin) / INR (ny - 1))%R.
  split; [apply create_2d_grid_ok; assumption|].
  split; [rewrite HIx; reflexivity|].
  split; [rewrite HIy; reflexivity|].
  split.
  { assert (0 < / INR (nx - 1))%R by (apply Rinv_0_lt_compat, Hpx).
    unfold Rdiv. nra. }
  split.
  { assert (0 < / INR (ny - 1))%R by (apply Rinv_0_lt_compat, Hpy).
    unfold Rdiv. nra. }
  split.
  { unfold shape2, meshgrid_ij. simpl. rewrite length_map, Lx.
    destruct x as [|a x']; [simpl in Lx; lia|]. simpl.
    rewrite length_map, Ly. reflexivity. }
  split; [intros i j Hi Hj; split; [apply HX | apply HY]; assumption|].
  split; [exact Hvalid|].
  destruct (spacing_2d_R _ _ _ _ Hvalid) as [-> _].
  rewrite !HX, !HY by lia. simpl. do 2 f_equal; field; lra.
Qed.

Lemma create_2d_grid_meshgrid_witness :
  exists (X Y : list (list R)) (dx dy : R),
    create_2d_grid (-1)%R 1%R 2 0%R 1%R 3 = Ok (X, Y, dx, dy)
    /\ shape2 X = (2%nat, 3%nat)
    /\ spacing_2d X Y = Ok (dx, dy).
Proof.
  destruct (create_2d_grid_meshgrid (-1)%R 1%R 0%R 1%R 2 3
              ltac:(lia) ltac:(lia) ltac:(lra) ltac:(lra))
    as (X & Y & dx & dy & Hc & _ & _ & _ & _ & Hs & _ & _ & Hsp).
  exists X, Y, dx, dy. repeat split; assumption.
Defined.

(** X3. The two grid builders fail exactly when a point count is below
    two, and then with [ValueError]; the bounds play no part in it. *)
Theorem create_grid_refuses_iff
  (xmin xmax ymin ymax : R) (num_points num_x num_y : Z) :
  (is_ok (create_1d_grid xmin xmax num_points) = false
   <-> (num_points < 2)%Z)
  /\ (is_ok (create_1d_grid xmin xmax num_points) = false ->
      create_1d_grid xmin xmax num_points = Err ValueError)
  /\ (is_ok (create_2d_grid xmin xmax num_x ymin ymax num_y) = false
      <-> (num_x < 2 \/ num_y < 2)%Z)
  /\ (is_ok (create_2d_grid xmin xmax num_x ymin ymax num_y) = false ->
      create_2d_grid xmin xmax num_x ymin ymax num_y = Err ValueError).
Proof.
  assert (H1 : (num_points < 2)%Z \/ (2 <= num_points)%Z) by lia.
  assert (H2 : (num_x < 2 \/ num_y < 2)%Z \/ (2 <= num_x /\ 2 <= num_y)%Z) by lia.
  assert (E2 : (num_x < 2 \/ num_y < 2)%Z ->
               create_2d_grid xmin xmax num_x ymin ymax num_y = Err ValueError).
  { intros Hlt. unfold create_2d_grid.
    destruct (Z.ltb_spec num_x 2); [reflexivity|].
    destruct (Z.ltb_spec num_y 2); [reflexivity | lia]. }
  repeat split.
  - intros Hf. destruct H1 as [Hlt|Hge]; [exact Hlt|].
    rewrite create_1d_grid_ok in Hf by exact Hge. discriminate.
  - intros Hlt. rewrite create_1d_grid_refuses by exact Hlt. reflexivity.
  - intros Hf. destruct H1 as [Hlt|Hge]; [apply create_1d_grid_refuses, Hlt|].
    rewrite create_1d_grid_ok in Hf by exact Hge. discriminate.
  - intros Hf. destruct H2 as [Hlt|[Hgx Hgy]]; [exact Hlt|].
    rewrite create_2d_grid_ok in Hf by assumption. discriminate.
  - intros Hlt. rewrite E2 by exact Hlt. reflexivity.
  - intros Hf. destruct H2 as [Hlt|[Hgx Hgy]]; [apply E2, Hlt|].
    rewrite create_2d_grid_ok in Hf by assumption. discriminate.
Qed.
(** ** Potentials *)

Lemma linspace_bounds (a b : R) (n i : nat) :
  (2 <= n)%nat -> (a <= b)%R -> (i < n)%nat ->
  (a <= nth i (linspace a b n) 0 <= b)%R.
Proof.
  intros Hn Hab Hi. rewrite linspace_nth by lia.
  assert (Hp : (0 < INR (n - 1))%R) by (apply lt_0_INR; lia).
  assert (Hi0 : (0 <= INR i)%R) by apply pos_INR.
  assert (Hi1 : (INR i <= INR (n - 1))%R) by (apply le_INR; lia).
  assert (Ht : (0 <= INR i / INR (n - 1) <= 1)%R).
  { split.
    - apply Rmult_le_pos; [exact Hi0 | left; apply Rinv_0_lt_compat, Hp].
    - apply (Rmult_le_reg_r (INR (n - 1))); [exact Hp|].
      unfold Rdiv. rewrite Rmult_assoc, Rinv_l by lra. lra. }
  replace (INR i * ((b - a) / INR (n - 1)))%R
    with ((b - a) * (INR i / INR (n - 1)))%R by (field; lra).
  nra.
Qed.

Lemma create_1d_grid_inv (xmin xmax : R) (num_points : Z) (x : list R) (dx : R) :
  create_1d_grid xmin xmax num_points = Ok (x, dx) ->
  (2 <= num_points)%Z /\ x = linspace xmin xmax (Z.to_nat num_points).
Proof.
  intros Hc. assert (Hn : (2 <= num_points)%Z).
  { destruct (Z.lt_ge_cases num_points 2) as [Hlt|Hge]; [|exact Hge].
    rewrite create_1d_grid_refuses in Hc by exact Hlt. discriminate. }
  split; [exact Hn|].
  rewrite create_1d_grid_ok in Hc by exact Hn. congruence.
Qed.

Lemma infinite_well_1d_Fin (x : list R) (a b : R) :
  infinite_well_1d (map Fin x) (Fin a) (Fin b)
  = map (fun xi => if Rltb xi a || Rltb b xi then PInf else Fin 0) x.
Proof. unfold infinite_well_1d. rewrite map_map. reflexivity. Qed.

Lemma infinite_well_1d_wall (x : list R) (a b : R) :
  In PInf (infinite_well_1d (map Fin x) (Fin a) (Fin b))
  <-> exists xi, In xi x /\ (xi < a \/ b < xi)%R.
Proof.
  rewrite infinite_well_1d_Fin, in_map_iff. split.
  - intros (xi & Hv & Hin). exists xi. split; [exact Hin|].
    unfold Rltb in Hv.
    destruct (Rlt_dec xi a); [left; assumption|].
    destruct (Rlt_dec b xi); [right; assumption | discriminate].
  - intros (xi & Hin & Hout). exists xi. split; [|exact Hin].
    unfold Rltb. destruct Hout as [Hl|Hr].
    + destruct (Rlt_dec xi a); [reflexivity | contradiction].
    + destruct (Rlt_dec xi a); [reflexivity|].
      destruct (Rlt_dec b xi); [reflexivity | contradiction].
Qed.

Lemma infinite_well_1d_inside (x : list R) (a b : R) :
  Forall (fun xi => (a <= xi <= b)%R) x ->
  infinite_well_1d (map Fin x) (Fin a) (Fin b) = repeat (Fin 0) (length x).
Proof.
  intros Hx. rewrite infinite_well_1d_Fin.
  induction Hx as [|xi x [Ha Hb] _ IH]; [reflexivity|].
  simpl. rewrite IH, (Rltb_false xi a), (Rltb_false b xi) by assumption.
  reflexivity.
Qed.

(** X4. On a grid built by [create_1d_grid] over [[xmin, xmax]],
    [infinite_well_1d] with the walls [a] and [b] holds an infinity exactly
    when a wall lies strictly inside the grid ([xmin < a] or [b < xmax]);
    with the walls at the bounds of the grid, or beyond, the potential is
    zero at every point. *)
Theorem infinite_well_1d_on_grid
  (xmin xmax a b : R) (num_points : Z) (x : list R) (dx : R) :
  (xmin < xmax)%R ->
  create_1d_grid xmin xmax num_points = Ok (x, dx) ->
  (In PInf (infinite_well_1d (map Fin x) (Fin a) (Fin b))
   <-> (xmin < a \/ b < xmax)%R)
  /\ ((a <= xmin)%R -> (xmax <= b)%R ->
      infinite_well_1d (map Fin x) (Fin a) (Fin b) = repeat (Fin 0) (length x)).
Proof.
  intros Hlt Hc. apply create_1d_grid_inv in Hc as [Hn ->].
  set (n := Z.to_nat num_points). assert (Hn2 : (2 <= n)%nat) by (subst n; lia).
  assert (Hb : forall xi, In xi (linspace xmin xmax n) -> (xmin <= xi <= xmax)%R).
  { intros xi Hin. apply (In_nth _ _ 0%R) in Hin as (i & Hi & <-).
    rewrite linspace_length in Hi by lia.
    apply linspace_bounds; [lia | lra | exact Hi]. }
  split.
  - rewrite infinite_well_1d_wall. split.
    + intros (xi & Hin & Hout). specialize (Hb xi Hin). lra.
    + intros [Hl|Hr].
      * exists xmin. split; [|left; exact Hl].
        assert (E : nth 0 (linspace xmin xmax n) 0%R = xmin)
          by (rewrite linspace_nth by lia; simpl; lra).
        rewrite <- E at 1. apply nth_In. rewrite linspace_length; lia.
      * exists xmax. split; [|right; exact Hr].
        pose proof (linspace_last xmin xmax n Hn2) as E.
        rewrite <- E at 1. apply nth_In. rewrite linspace_length; lia.
  - intros Ha Hbb. apply infinite_well_1d_inside.
    apply List.Forall_forall. intros xi Hin. specialize (Hb xi Hin). lra.
Qed.

Lemma infinite_well_1d_on_grid_witness :
  exists (x : list R) (dx : R),
    create_1d_grid (-1)%R 1%R 3 = Ok (x, dx)
    /\ infinite_well_1d (map Fin x) (Fin (-1)) (Fin 1) = repeat (Fin 0) (length x).
Proof.
  exists (linspace (-1)%R 1%R 3), ((1 - -1) / INR (Z.to_nat 3 - 1))%R.
  assert (Hc : create_1d_grid (-1)%R 1%R 3
               = Ok (linspace (-1)%R 1%R 3, ((1 - -1) / INR (Z.to_nat 3 - 1))%R))
    by (apply create_1d_grid_ok; lia).
  split; [exact Hc|].
  apply (infinite_well_1d_on_grid (-1) 1 (-1) 1 3 _ _ ltac:(lra) Hc); lra.
Defined.

Lemma xleb_not_lt (u v : xreal) :
  u <> NaN -> v <> NaN -> xleb u v = negb (xltb v u).
Proof. intros Hu Hv. destruct u, v; try reflexivity; congruence. Qed.

(** X5. With its default levels ([V0 = 0], [V_out = np.inf]),
    [finite_square_well_1d] is [infinite_well_1d] on every grid free of
    [nan]; at a [nan] grid point the two differ: every comparison is
    false there, so the finite well keeps [V_out = inf] while the infinite
    well keeps its zero. *)
Theorem finite_square_well_default_is_infinite_well (x : list xreal) (a b : xreal) :
  (Forall (fun xi => xi <> NaN) x -> a <> NaN -> b <> NaN ->
   finite_square_well_1d x a b (Fin 0) PInf = infinite_well_1d x a b)
  /\ finite_square_well_1d [NaN] a b (Fin 0) PInf = [PInf]
  /\ infinite_well_1d [NaN] a b = [Fin 0].
Proof.
  split; [|split].
  - intros Hx Ha Hb. unfold finite_square_well_1d, infinite_well_1d.
    apply map_ext_in. intros xi Hin.
    pose proof (proj1 (List.Forall_forall _ _) Hx xi Hin) as Hxi.
    rewrite (xleb_not_lt a xi), (xleb_not_lt xi b) by assumption.
    destruct (xltb xi a), (xltb b xi); reflexivity.
  - unfold finite_square_well_1d. simpl. destruct a; reflexivity.
  - unfold infinite_well_1d. simpl. destruct b; reflexivity.
Qed.

Lemma finite_square_well_default_is_infinite_well_witness :
  finite_square_well_1d [Fin (-1); Fin 0; PInf] (Fin 0) (Fin 1) (Fin 0) PInf
  = infinite_well_1d [Fin (-1); Fin 0; PInf] (Fin 0) (Fin 1).
Proof.
  apply (finite_square_well_default_is_infinite_well
           [Fin (-1); Fin 0; PInf] (Fin 0) (Fin 1));
    [repeat constructor; discriminate | discriminate | discriminate].
Defined.

Lemma double_well_test (xi c w : R) :
  xleb (xabs (xsub (Fin xi) (Fin c))) (xdiv (Fin w) (Fin 2))
  = negb (Rltb (w / 2) (Rabs (xi + - c))).
Proof.
  assert (H2 : Rzerob 2 = false) by (apply Rzerob_false; lra).
  simpl. rewrite H2. reflexivity.
Qed.

(** X6. In [double_well_1d] the two centres play the same role.  With a
    negative width there is no well at all: every grid point gets
    [V_out].  With a width that is not negative, every grid point that
    sits on one of the two centres gets [V0]. *)
Theorem double_well_1d_centres (x : list R) (c1 c2 w : R) (V0 V_out : xreal) :
  double_well_1d (map Fin x) (Fin c1) (Fin c2) (Fin w) V0 V_out
  = double_well_1d (map Fin x) (Fin c2) (Fin c1) (Fin w) V0 V_out
  /\ ((w < 0)%R ->
      double_well_1d (map Fin x) (Fin c1) (Fin c2) (Fin w) V0 V_out
      = repeat V_out (length x))
  /\ ((0 <= w)%R ->
      forall i, (i < length x)%nat ->
        nth i x 0%R = c1 \/ nth i x 0%R = c2 ->
        nth i (double_well_1d (map Fin x) (Fin c1) (Fin c2) (Fin w) V0 V_out)
            V_out = V0).
Proof.
  split; [|split].
  - unfold double_well_1d. apply map_ext. intros xi. rewrite orb_comm. reflexivity.
  - intros Hw. unfold double_well_1d. rewrite map_map.
    induction x as [|xi x IH]; [reflexivity|].
    cbn [map length repeat]. rewrite IH, !double_well_test.
    rewrite (Rltb_true (w / 2) (Rabs (xi + - c1)))
      by (pose proof (Rabs_pos (xi + - c1)); lra).
    rewrite (Rltb_true (w / 2) (Rabs (xi + - c2)))
      by (pose proof (Rabs_pos (xi + - c2)); lra).
    reflexivity.
  - intros Hw i Hi Hc. unfold double_well_1d. rewrite map_map.
    rewrite (nth_map_in _ x i 0%R) by exact Hi.
    rewrite !double_well_test.
    assert (Hz : forall c, nth i x 0%R = c ->
                   Rltb (w / 2) (Rabs (nth i x 0%R + - c)) = false).
    { intros c ->. apply Rltb_false.
      replace (c + - c)%R with 0%R by ring. rewrite Rabs_R0. lra. }
    destruct Hc as [Hc|Hc]; rewrite (Hz _ Hc); cbn [negb orb];
      [reflexivity | rewrite orb_true_r; reflexivity].
Qed.

Lemma np_broadcast_same_length {A B D} (f : A -> B -> D) (a : list A) (b : list B) :
  length a = length b -> np_broadcast f a b = Ok (zip_with f a b).
Proof.
  intros Hl. unfold np_broadcast. rewrite Hl, Nat.eqb_refl. reflexivity.
Qed.

Lemma np_broadcast2_same_shape {A B D} (f : A -> B -> D)
  (a : list (list A)) (b : list (list B)) :
  Forall2 (fun ra rb => length ra = length rb) a b ->
  np_broadcast2 f a b = Ok (zip_with (zip_with f) a b).
Proof.
  intros Hab. unfold np_broadcast2.
  rewrite np_broadcast_same_length by (eapply Forall2_length; exact Hab).
  rewrite bind_ok. induction Hab as [|ra rb a b Hr _ IH]; [reflexivity|].
  simpl. rewrite (np_broadcast_same_length f ra rb Hr), bind_ok, IH.
  reflexivity.
Qed.

Lemma meshgrid_rows_paired {T} (g h : T -> T) (x y : list T) :
  Forall2 (fun ra rb : list T => length ra = length rb)
    (map (map g) (fst (meshgrid_ij x y))) (map (map h) (snd (meshgrid_ij x y))).
Proof.
  unfold meshgrid_ij. simpl. induction x as [|a x IH]; simpl; constructor.
  - rewrite !length_map. reflexivity.
  - exact IH.
Qed.

(** X7. On the meshgrid of two axes [x] and [y] the two-dimensional
    harmonic oscillator is the sum of the one-dimensional ones:
    [V[i, j] = harmonic_oscillator_1d(x)[i] + harmonic_oscillator_1d(y)[j]],
    for the same mass and frequency. *)
Theorem harmonic_oscillator_2d_separable (x y : list R) (m omega : R) :
  harmonic_oscillator_2d (fst (meshgrid_ij x y)) (snd (meshgrid_ij x y)) m omega
  = Ok (map (fun vx => map (fun vy => (vx + vy)%R)
                           (harmonic_oscillator_1d y m omega))
            (harmonic_oscillator_1d x m omega)).
Proof.
  unfold harmonic_oscillator_2d.
  rewrite np_broadcast2_same_shape by apply meshgrid_rows_paired.
  rewrite bind_ok. f_equal.
  unfold meshgrid_ij, harmonic_oscillator_1d. simpl.
  induction x as [|a x IH]; [reflexivity|].
  simpl. f_equal; [|exact IH].
  clear IH. rewrite !map_map.
  induction y as [|b y IHy]; [reflexivity|].
  simpl. f_equal; [|exact IHy].
  change (@s1 R R_scalar) with 1%R. change (@s2 R R_scalar) with (1 + 1)%R. lra.
Qed.

Lemma exp_nonpos_range (t : R) : (t <= 0)%R -> (0 < exp t <= 1)%R.
Proof.
  intros Ht. split; [apply exp_pos|].
  destruct (Rle_lt_or_eq_dec _ _ Ht) as [Hlt| ->].
  - left. rewrite <- exp_0. apply exp_increasing, Hlt.
  - rewrite exp_0. lra.
Qed.

Lemma gaussian_exponent_nonpos (xi c w : R) :
  w <> 0%R -> (- ((xi - c) * (xi - c)) / (2 * (w * w)) <= 0)%R.
Proof.
  intros Hw.
  assert (0 < w * w)%R by (destruct (Rtotal_order w 0) as [?|[?|?]]; [nra | contradiction | nra]).
  assert (Hk : (0 < / (2 * (w * w)))%R) by (apply Rinv_0_lt_compat; lra).
  pose proof (Rle_0_sqr (xi - c)) as Hs. unfold Rsqr in Hs.
  unfold Rdiv. rewrite <- Ropp_mult_distr_l.
  pose proof (Rmult_le_pos _ _ Hs (Rlt_le _ _ Hk)). lra.
Qed.

(** X8. For a non-zero width and a height [h >= 0], every value of
    [gaussian_barrier_1d] lies between [0]
    and [h], the height being reached at the centre; [gaussian_well_1d]
    with depth [h] is the barrier of height [h] with the sign changed, so
    its values lie between [-h] and [0]. *)
Theorem gaussian_1d_range (x : list R) (c w h : R) :
  w <> 0%R -> (0 <= h)%R ->
  Forall (fun v => (0 <= v <= h)%R) (gaussian_barrier_1d x c w h)
  /\ gaussian_barrier_1d [c] c w h = [h]
  /\ gaussian_well_1d x c w h = map Ropp (gaussian_barrier_1d x c w h)
  /\ Forall (fun v => (- h <= v <= 0)%R) (gaussian_well_1d x c w h).
Proof.
  intros Hw Hh.
  assert (Hb : Forall (fun v => (0 <= v <= h)%R) (gaussian_barrier_1d x c w h)).
  { unfold gaussian_barrier_1d. apply List.Forall_forall. intros v Hv.
    apply in_map_iff in Hv as (xi & <- & _).
    pose proof (exp_nonpos_range _ (gaussian_exponent_nonpos xi c w Hw)). nra. }
  assert (Hwell : gaussian_well_1d x c w h = map Ropp (gaussian_barrier_1d x c w h)).
  { unfold gaussian_well_1d, gaussian_barrier_1d. rewrite map_map.
    apply map_ext. intros xi. lra. }
  split; [exact Hb|]. split.
  - unfold gaussian_barrier_1d. simpl.
    replace (- ((c - c) * (c - c)) / (2 * (w * w)))%R with 0%R
      by (field; exact Hw).
    rewrite exp_0. f_equal. lra.
  - split; [exact Hwell|]. rewrite Hwell.
    apply List.Forall_forall. intros v Hv.
    apply in_map_iff in Hv as (u & <- & Hu).
    pose proof (proj1 (List.Forall_forall _ _) Hb u Hu). simpl in *. lra.
Qed.

Lemma gaussian_1d_range_witness :
  Forall (fun v => (0 <= v <= 5)%R) (gaussian_barrier_1d [0; 1]%R 0 (1 / 5) 5)
  /\ Forall (fun v => (- 5 <= v <= 0)%R) (gaussian_well_1d [0; 1]%R 0 (1 / 5) 5).
Proof.
  destruct (gaussian_1d_range [0; 1]%R 0 (1 / 5) 5 ltac:(lra) ltac:(lra))
    as (Hb & _ & _ & Hw).
  split; assumption.
Defined.

(** X9. For a non-zero period, [periodic_cosine_1d] takes the same values
    on a grid and on the grid moved by one period, and every value lies
    between [-|amplitude|] and [|amplitude|]. *)
Theorem periodic_cosine_1d_periodic (x : list R) (amplitude period : R) :
  period <> 0%R ->
  periodic_cosine_1d (map (fun xi => (xi + period)%R) x) amplitude period
  = periodic_cosine_1d x amplitude period
  /\ Forall (fun v => (Rabs v <= Rabs amplitude)%R)
            (periodic_cosine_1d x amplitude period).
Proof.
  intros Hp. unfold periodic_cosine_1d. split.
  - rewrite map_map. apply map_ext. intros xi.
    replace (2 * PI * (xi + period) / period)%R
      with (2 * PI * xi / period + 2 * PI)%R by (field; exact Hp).
    rewrite cos_plus, cos_2PI, sin_2PI. f_equal. ring.
  - apply List.Forall_forall. intros v Hv.
    apply in_map_iff in Hv as (xi & <- & _).
    rewrite Rabs_mult.
    pose proof (COS_bound (2 * PI * xi / period)) as [Hl Hu].
    assert (Rabs (cos (2 * PI * xi / period)) <= 1)%R
      by (apply Rabs_le; split; assumption).
    pose proof (Rabs_pos amplitude). nra.
Qed.

Lemma periodic_cosine_1d_periodic_witness :
  periodic_cosine_1d (map (fun xi => (xi + 1)%R) [0; 1 / 2]%R) 1 1
  = periodic_cosine_1d [0; 1 / 2]%R 1 1.
Proof.
  apply (periodic_cosine_1d_periodic [0; 1 / 2]%R 1 1). lra.
Defined.

(** ** Names handed to the expression evaluator *)

Ltac shadow_lookup :=
  cbv [default from_option Datatypes.id]; apply map_eq; intros k;
  repeat match goal with
         | |- context [<[?n := _]> _ !! k] =>
             destruct (decide (n = k)) as [<-|?];
             [rewrite !lookup_insert_eq; reflexivity
             |rewrite !(lookup_insert_ne _ n k) by assumption]
         end;
  repeat match goal with
         | |- context [delete ?n _ !! k] =>
             rewrite !(lookup_delete_ne _ n k) by assumption
         end;
  reflexivity.

Lemma env_1d_own_names {T A} (x : list T) (psi : list A)
  (d : gmap string (pyvalue T A)) :
  env_1d x psi (delete "x" (delete "psi" (delete "abs" (delete "real"
    (delete "imag" (delete "conj" (delete "np" d)))))))
  = env_1d x psi d.
Proof. unfold env_1d, with_numpy_names. shadow_lookup. Qed.

Lemma env_2d_own_names {T A} (X Y : list (list T)) (psi : list (list A))
  (d : gmap string (pyvalue T A)) :
  env_2d X Y psi (delete "X" (delete "Y" (delete "psi" (delete "abs"
    (delete "real" (delete "imag" (delete "conj" (delete "np" d))))))))
  = env_2d X Y psi d.
Proof. unfold env_2d, with_numpy_names. shadow_lookup. Qed.

(** X10. The names the source binds itself win over the caller's
    [local_dict]: [custom_potential_expr_1d] evaluates the expression
    with its own [x] and [np] whatever [local_dict] binds these two names
    to, [custom_potential_expr_2d] with its own [X], [Y] and [np], and the
    two expectation functions with their own grid, [psi], [abs], [real],
    [imag], [conj] and [np]; leaving [local_dict] out is passing the empty
    dictionary. *)
Theorem custom_expr_own_names_win
  (A : Type) (amp : Amplitude A R)
  (ne_evaluate : string -> gmap string (pyvalue R A) -> result (ndarray R))
  (x : list R) (X Y : list (list R)) (psi : list A) (psi2 : list (list A))
  (expr : string) (d : gmap string (pyvalue R A)) :
  custom_potential_expr_1d ne_evaluate x expr (Some d)
  = custom_potential_expr_1d ne_evaluate x expr
      (Some (delete "x" (delete "np" d)))
  /\ custom_potential_expr_2d ne_evaluate X Y expr (Some d)
     = custom_potential_expr_2d ne_evaluate X Y expr
         (Some (delete "X" (delete "Y" (delete "np" d))))
  /\ expectation_custom_expr_1d ne_evaluate x psi expr (Some d)
     = expectation_custom_expr_1d ne_evaluate x psi expr
         (Some (delete "x" (delete "psi" (delete "abs" (delete "real"
            (delete "imag" (delete "conj" (delete "np" d))))))))
  /\ expectation_custom_expr_2d ne_evaluate X Y psi2 expr (Some d)
     = expectation_custom_expr_2d ne_evaluate X Y psi2 expr
         (Some (delete "X" (delete "Y" (delete "psi" (delete "abs"
            (delete "real" (delete "imag" (delete "conj" (delete "np" d)))))))))
  /\ custom_potential_expr_1d ne_evaluate x expr None
     = custom_potential_expr_1d ne_evaluate x expr (Some ∅)
  /\ custom_potential_expr_2d ne_evaluate X Y expr None
     = custom_potential_expr_2d ne_evaluate X Y expr (Some ∅).
Proof.
  repeat split.
  - unfold custom_potential_expr_1d. f_equal. shadow_lookup.
  - unfold custom_potential_expr_2d. f_equal. shadow_lookup.
  - unfold expectation_custom_expr_1d. cbv [default from_option Datatypes.id].
    rewrite env_1d_own_names. reflexivity.
  - unfold expectation_custom_expr_2d. cbv [default from_option Datatypes.id].
    rewrite env_2d_own_names. reflexivity.
Qed.

(** ** The two-dimensional infinite well *)

Lemma mask_rows_match {A B} (m : list (list A)) (X : list (list B)) :
  Forall2 (fun r s => length r = length s) m X ->
  (length m =? length X)%nat
  && forallb (fun p => (length (fst p) =? length (snd p))%nat) (combine m X)
  = true.
Proof.
  intros H. rewrite (Forall2_length _ _ _ H), Nat.eqb_refl. cbn [andb].
  induction H as [|r s m X Hrs _ IH]; [reflexivity|].
  cbn [combine forallb fst snd]. rewrite Hrs, Nat.eqb_refl. exact IH.
Qed.

(** X11. On the meshgrid of two axes the two-dimensional infinite well is
    built from the one-dimensional ones: [V[i, j]] is zero where
    [infinite_well_1d] is zero at [x[i]] (walls [xmin], [xmax]) and at
    [y[j]] (walls [ymin], [ymax]), and [np.inf] where one of the two is
    infinite. *)
Theorem infinite_well_2d_separable (x y : list xreal) (xmin xmax ymin ymax : xreal) :
  infinite_well_2d (fst (meshgrid_ij x y)) (snd (meshgrid_ij x y))
    xmin xmax ymin ymax
  = Ok (map (fun vx => map (fun vy => if xfinite vx && xfinite vy
                                      then Fin 0 else PInf)
                           (infinite_well_1d y ymin ymax))
            (infinite_well_1d x xmin xmax)).
Proof.
  unfold infinite_well_2d.
  set (fx := fun a => xltb a xmin || xltb xmax a).
  set (fy := fun a => xltb a ymin || xltb ymax a).
  assert (Hsh : Forall2 (fun ra rb : list bool => length ra = length rb)
                  (map (map fx) (fst (meshgrid_ij x y)))
                  (map (map fy) (snd (meshgrid_ij x y)))).
  { unfold meshgrid_ij. simpl. induction x as [|a x IH]; simpl; constructor.
    - rewrite !length_map. reflexivity.
    - exact IH. }
  rewrite np_broadcast2_same_shape by exact Hsh. rewrite bind_ok.
  rewrite mask_rows_match.
  2:{ unfold meshgrid_ij. simpl. clear Hsh.
      induction x as [|a x IH]; simpl; constructor.
      - rewrite length_zip_with, !length_map. lia.
      - exact IH. }
  f_equal. unfold meshgrid_ij, infinite_well_1d. simpl. clear Hsh.
  rewrite !map_map.
  induction x as [|a x IH]; [reflexivity|].
  simpl. f_equal; [|exact IH]. clear IH. rewrite !map_map.
  induction y as [|b y IHy]; [reflexivity|].
  simpl. f_equal; [|exact IHy].
  fold (fx a) (fy b). destruct (fx a), (fy b); reflexivity.
Qed.
(** ** Expectation values *)

Lemma np_sum_nonneg (d : list R) :
  Forall (fun a => (0 <= a)%R) d -> (0 <= np_sum d)%R.
Proof.
  induction 1 as [|a d Ha _ IH]; simpl; [lra|].
  change (0 <= a + np_sum d)%R. lra.
Qed.

Lemma np_sum_pos (d : list R) :
  Forall (fun a => (0 <= a)%R) d -> Exists (fun a => (0 < a)%R) d ->
  (0 < np_sum d)%R.
Proof.
  intros Hd He. induction He as [a d Ha|a d _ IH].
  - apply Forall_cons_1 in Hd as [_ Hd]. apply np_sum_nonneg in Hd.
    change (0 < a + np_sum d)%R. lra.
  - apply Forall_cons_1 in Hd as [Ha Hd]. specialize (IH Hd).
    change (0 < a + np_sum d)%R. lra.
Qed.

Lemma density_sum_pos (psi : list C) :
  nonzero psi -> (0 < np_sum (map abs2 psi))%R.
Proof.
  intros Hnz. apply np_sum_pos;
    [apply abs2_Forall_nonneg | apply abs2_Exists_pos, Hnz].
Qed.

Lemma weighted_sum_bounds (a b : R) (x d : list R) :
  Forall (fun xi => (a <= xi <= b)%R) x -> length d = length x ->
  Forall (fun w => (0 <= w)%R) d ->
  (a * np_sum d <= np_sum (zip_with Rmult x d) <= b * np_sum d)%R.
Proof.
  intros Hx. revert d. induction Hx as [|xi x [Ha Hb] _ IH]; intros d Hl Hd.
  - destruct d; [simpl; change (@s0 R R_scalar) with 0%R; lra | discriminate].
  - destruct d as [|w d]; [discriminate|].
    apply Forall_cons_1 in Hd as [Hw Hd].
    specialize (IH d ltac:(simpl in Hl; lia) Hd). simpl.
    change (a * (w + np_sum d) <= xi * w + np_sum (zip_with Rmult x d)
            <= b * (w + np_sum d))%R. nra.
Qed.

Lemma Cnorm2_mul (c p : C) : Cnorm2 (Cmul c p) = (Cnorm2 c * Cnorm2 p)%R.
Proof. destruct c, p. unfold Cnorm2, Cmul. simpl. ring. Qed.

Lemma zip_with_scale (k : R) (x d : list R) :
  np_sum (zip_with Rmult x (map (Rmult k) d))
  = (k * np_sum (zip_with Rmult x d))%R.
Proof.
  revert d. induction x as [|xi x IH]; intros [|w d]; simpl;
    change (@s0 R R_scalar) with 0%R; try lra.
  change (xi * (k * w) + np_sum (zip_with Rmult x (map (Rmult k) d))
          = k * (xi * w + np_sum (zip_with Rmult x d)))%R.
  rewrite IH. ring.
Qed.

Lemma np_sum_map_scale (k : R) (d : list R) :
  np_sum (map (Rmult k) d) = (k * np_sum d)%R.
Proof.
  induction d as [|w d IH]; simpl; change (@s0 R R_scalar) with 0%R; [lra|].
  change (k * w + np_sum (map (Rmult k) d) = k * (w + np_sum d))%R.
  rewrite IH. ring.
Qed.

(** X12. For a wavefunction with a non-zero sample on a grid of the same
    length, [expectation_x] returns a weighted mean of the grid points:
    a value between any two bounds [a <= b] that enclose the grid.  The
    value does not change when the wavefunction is multiplied by a
    non-zero complex constant, so no normalisation is needed. *)
Theorem expectation_x_weighted_mean (x : list R) (psi : list C) (a b : R) (c : C) :
  length psi = length x -> nonzero psi ->
  Forall (fun xi => (a <= xi <= b)%R) x -> c <> RtoC 0 ->
  exists v : R,
    expectation_x x psi = Ok v
    /\ (a <= v <= b)%R
    /\ expectation_x x (map (Cmul c) psi) = Ok v.
Proof.
  intros Hl Hnz Hx Hc.
  pose proof (density_sum_pos psi Hnz) as Hpos.
  pose proof (weighted_sum_bounds a b x (map abs2 psi) Hx
                ltac:(rewrite length_map; exact Hl) (abs2_Forall_nonneg psi))
    as [Hlo Hhi].
  exists (np_sum (zip_with Rmult x (map abs2 psi)) / np_sum (map abs2 psi))%R.
  assert (Hinv : (0 < / np_sum (map abs2 psi))%R)
    by (apply Rinv_0_lt_compat, Hpos).
  split; [|split].
  - unfold expectation_x, probability_density.
    rewrite np_broadcast_same_length by (rewrite length_map; lia).
    reflexivity.
  - split.
    + apply (Rmult_le_reg_r (np_sum (map abs2 psi))); [exact Hpos|].
      unfold Rdiv. rewrite Rmult_assoc, Rinv_l by lra. lra.
    + apply (Rmult_le_reg_r (np_sum (map abs2 psi))); [exact Hpos|].
      unfold Rdiv. rewrite Rmult_assoc, Rinv_l by lra. lra.
  - unfold expectation_x, probability_density.
    rewrite np_broadcast_same_length by (rewrite !length_map; lia).
    rewrite bind_ok. f_equal.
    assert (E : map abs2 (map (Cmul c) psi) = map (Rmult (Cnorm2 c)) (map abs2 psi)).
    { rewrite !map_map. apply map_ext. intros p. apply Cnorm2_mul. }
    rewrite E, zip_with_scale, np_sum_map_scale.
    pose proof (Cnorm2_pos c Hc).
    change (Cnorm2 c * np_sum (zip_with Rmult x (map abs2 psi))
            / (Cnorm2 c * np_sum (map abs2 psi))
            = np_sum (zip_with Rmult x (map abs2 psi)) / np_sum (map abs2 psi))%R.
    field. split; lra.
Qed.

Lemma expectation_x_weighted_mean_witness :
  exists v : R,
    expectation_x [0; 1; 2]%R [RtoC 1; RtoC 1; RtoC 2] = Ok v
    /\ (0 <= v <= 2)%R.
Proof.
  destruct (expectation_x_weighted_mean [0; 1; 2]%R [RtoC 1; RtoC 1; RtoC 2]
              0 2 Ci) as (v & Hv & Hb & _).
  - reflexivity.
  - apply Exists_cons_hd. intros E. apply (f_equal Re) in E. simpl in E. lra.
  - repeat constructor; lra.
  - intros E. apply (f_equal Im) in E. simpl in E. lra.
  - exists v. split; assumption.
Defined.

Lemma np_gradient_ok {T A} `{Scalar T} `{Scalar A} `{Amplitude A T}
  (f : list A) (h : T) :
  (2 <= length f)%nat ->
  exists g, np_gradient f h = Ok g /\ length g = length f
            /\ forall a, In a g ->
                 exists (u v : A) (k : T), a = divr (u - v)%S k
                   /\ (In u f \/ u = s0) /\ (In v f \/ v = s0).
Proof.
  intros Hn. unfold np_gradient.
  destruct (Nat.ltb_spec (length f) 2) as [?|_]; [lia|].
  eexists. split; [reflexivity|]. split; [rewrite length_map, length_seq; reflexivity|].
  intros a Ha. apply in_map_iff in Ha as (i & <- & _).
  assert (Hnth : forall j, In (nth j f s0) f \/ nth j f s0 = s0).
  { intros j. destruct (Nat.lt_ge_cases j (length f)) as [Hj|Hj].
    - left. apply nth_In, Hj.
    - right. apply nth_overflow, Hj. }
  destruct (i =? 0)%nat; [|destruct (i =? length f - 1)%nat];
    do 3 eexists; (split; [reflexivity|split; apply Hnth]).
Qed.

Lemma np_gradient_short {T A} `{Scalar T} `{Scalar A} `{Amplitude A T}
  (f : list A) (h : T) :
  (length f < 2)%nat -> np_gradient f h = Err ValueError.
Proof.
  intros Hn. unfold np_gradient.
  destruct (Nat.ltb_spec (length f) 2) as [_|?]; [reflexivity | lia].
Qed.

Lemma Re_np_sum_zero (l : list C) :
  Forall (fun z => Re z = 0%R) l -> Re (np_sum l) = 0%R.
Proof.
  induction 1 as [|z l Hz _ IH]; [reflexivity|].
  simpl. change (Re z + Re (np_sum l) = 0)%R. lra.
Qed.

Lemma Forall_zip_with {A B D} (P : A -> Prop) (Q : B -> Prop) (S : D -> Prop)
  (f : A -> B -> D) (a : list A) (b : list B) :
  (forall u v, P u -> Q v -> S (f u v)) ->
  Forall P a -> Forall Q b -> Forall S (zip_with f a b).
Proof.
  intros Hf Ha. revert b. induction Ha as [|u a Hu _ IH]; intros b Hb.
  - constructor.
  - destruct Hb as [|v b Hv Hb]; simpl; constructor; auto.
Qed.

(** X13. The momentum of a real wavefunction is zero: when every sample
    of [psi] has a zero imaginary part, [np.conj(psi) * (-1j * hbar *
    dpsi_dx)] is purely imaginary at every point, so the [.real] of its
    sum vanishes and [expectation_p] returns [0], whatever the grid (of
    at least two points with [x[1] <> x[0]]) and the value of [hbar]. *)
Theorem expectation_p_real_wavefunction (x : list R) (psi : list C) (hbar : R) :
  (2 <= length x)%nat -> nth 1 x 0%R <> nth 0 x 0%R ->
  (2 <= length psi)%nat -> nonzero psi ->
  Forall (fun p => Im p = 0%R) psi ->
  expectation_p x psi hbar = Ok 0%R.
Proof.
  intros Hx Hdx Hpsi Hnz Hreal. unfold expectation_p.
  rewrite spacing_1d_R by exact Hx. rewrite bind_ok.
  destruct (np_gradient_ok psi (nth 1 x 0 - nth 0 x 0)%R Hpsi)
    as (g & -> & Hlen & Hg).
  rewrite bind_ok. f_equal.
  assert (Hgreal : Forall (fun d => Im d = 0%R) g).
  { apply List.Forall_forall. intros a Ha.
    destruct (Hg a Ha) as (u & v & k & -> & Hu & Hv).
    assert (Iu : Im u = 0%R).
    { destruct Hu as [Hu| ->]; [|reflexivity].
      exact (proj1 (List.Forall_forall _ _) Hreal u Hu). }
    assert (Iv : Im v = 0%R).
    { destruct Hv as [Hv| ->]; [|reflexivity].
      exact (proj1 (List.Forall_forall _ _) Hreal v Hv). }
    simpl. rewrite Iu, Iv. unfold Rdiv. ring. }
  rewrite Re_np_sum_zero; [unfold Rdiv; ring|].
  apply (Forall_zip_with (fun p => Im p = 0%R) (fun q => Re q = 0%R)).
  - intros u v Hu Hv. simpl. rewrite Hu, Hv. ring.
  - apply List.Forall_forall. intros p Hp.
    apply in_map_iff in Hp as (q & <- & Hq). simpl.
    rewrite (proj1 (List.Forall_forall _ _) Hreal q Hq). ring.
  - apply List.Forall_forall. intros p Hp.
    apply in_map_iff in Hp as (d & <- & Hd). simpl.
    rewrite (proj1 (List.Forall_forall _ _) Hgreal d Hd). ring.
Qed.

Lemma expectation_p_real_wavefunction_witness :
  expectation_p [0; 1; 2]%R [RtoC 1; RtoC 2; RtoC 1] 1 = Ok 0%R.
Proof.
  apply expectation_p_real_wavefunction.
  - simpl. lia.
  - simpl. lra.
  - simpl. lia.
  - apply Exists_cons_hd. intros E. apply (f_equal Re) in E. simpl in E. lra.
  - repeat constructor.
Defined.

Lemma np_sum_cons_C (z : C) (l : list C) : np_sum (z :: l) = Cadd z (np_sum l).
Proof. reflexivity. Qed.

Lemma np_sum_cons_R (a : R) (l : list R) : np_sum (a :: l) = (a + np_sum l)%R.
Proof. reflexivity. Qed.

Lemma energy_sum_shift (c : R) (psi K : list C) (V : list R) :
  length K = length psi -> length V = length psi ->
  Re (np_sum (zip_with Cmul (map Cconj psi)
                (zip_with Cadd K
                   (zip_with (fun v p => Cmul (RtoC v) p)
                             (map (fun v => (v + c)%R) V) psi))))
  = (Re (np_sum (zip_with Cmul (map Cconj psi)
                   (zip_with Cadd K
                      (zip_with (fun v p => Cmul (RtoC v) p) V psi))))
     + c * np_sum (map abs2 psi))%R.
Proof.
  revert K V. induction psi as [|p psi IH]; intros K V HK HV.
  - simpl. change (@s0 R R_scalar) with 0%R. lra.
  - destruct K as [|k K]; [discriminate|]. destruct V as [|v V]; [discriminate|].
    simpl in HK, HV.
    specialize (IH K V ltac:(lia) ltac:(lia)).
    cbn [map zip_with]. rewrite !np_sum_cons_C, np_sum_cons_R.
    cbn [Re Cadd]. rewrite IH.
    destruct p as [pr pi], k as [kr ki]. cbn.
    change (Cnorm2 {| Re := pr; Im := pi |}) with (pr * pr + pi * pi)%R. ring.
Qed.

Lemma density_sum_scale (psi : list C) (dx : R) :
  np_sum (map (fun p => (abs2 p * dx)%R) psi) = (np_sum (map abs2 psi) * dx)%R.
Proof.
  rewrite <- np_sum_scale, map_map. reflexivity.
Qed.

(** X14. Adding a constant [c] to the potential adds [c] to
    [expectation_energy]: for a grid of at least two points with
    [x[1] <> x[0]], a wavefunction of at least two samples, one of them
    non-zero, a potential of the same length and a non-zero mass, the
    call succeeds and the value for [V + c] is the value for [V] plus
    [c]. *)
Theorem expectation_energy_shift
  (x : list R) (psi : list C) (V : list R) (mass hbar c : R) :
  (2 <= length x)%nat -> nth 1 x 0%R <> nth 0 x 0%R ->
  (2 <= length psi)%nat -> nonzero psi ->
  length V = length psi -> mass <> 0%R ->
  exists e : R,
    expectation_energy x psi V mass hbar = Ok e
    /\ expectation_energy x psi (map (fun v => (v + c)%R) V) mass hbar
       = Ok (e + c)%R.
Proof.
  intros Hx Hdx Hpsi Hnz HV Hm. unfold expectation_energy.
  rewrite spacing_1d_R by exact Hx. rewrite !bind_ok.
  set (dx := (nth 1 x 0 - nth 0 x 0)%R) in *.
  destruct (np_gradient_ok psi dx Hpsi) as (g & -> & Hg & _).
  rewrite !bind_ok.
  destruct (np_gradient_ok g dx ltac:(lia)) as (g2 & -> & Hg2 & _).
  rewrite !bind_ok. unfold pydiv.
  change (szerob mass) with (Rzerob mass). rewrite (Rzerob_false mass Hm).
  rewrite !bind_ok.
  rewrite !(np_broadcast_same_length (fun v p => Cmul (RtoC v) p))
    by (rewrite ?length_map; lia).
  rewrite !bind_ok.
  rewrite !(np_broadcast_same_length Cadd)
    by (rewrite length_zip_with, !length_map; lia).
  rewrite !bind_ok.
  rewrite !(np_broadcast_same_length Cmul)
    by (rewrite !length_zip_with, !length_map; lia).
  rewrite !bind_ok.
  eexists. split; [reflexivity|]. f_equal.
  cbn [divr C_amplitude Re Cmul RtoC Im].
  rewrite energy_sum_shift by (rewrite ?length_map; lia).
  rewrite density_sum_scale.
  pose proof (density_sum_pos psi Hnz).
  field. split; [subst dx|]; lra.
Qed.

Lemma expectation_energy_shift_witness :
  exists e : R,
    expectation_energy [0; 1; 2]%R [RtoC 1; RtoC 2; RtoC 1] [0; 1; 0]%R 1 1
    = Ok e
    /\ expectation_energy [0; 1; 2]%R [RtoC 1; RtoC 2; RtoC 1]
         (map (fun v => (v + 3)%R) [0; 1; 0]%R) 1 1 = Ok (e + 3)%R.
Proof.
  apply expectation_energy_shift.
  - simpl. lia.
  - simpl. lra.
  - simpl. lia.
  - apply Exists_cons_hd. intros E. apply (f_equal Re) in E. simpl in E. lra.
  - reflexivity.
  - lra.
Defined.

Lemma spacing_1d_short {T} `{Scalar T} (x : list T) :
  (length x < 2)%nat -> spacing_1d x = Err IndexError.
Proof.
  intros Hx. unfold spacing_1d, getitem.
  destruct x as [|a [|b x]]; simpl in *; try reflexivity; lia.
Qed.

Lemma np_broadcast_mismatch {A B D} (f : A -> B -> D) (a : list A) (b : list B) :
  length a <> length b -> length a <> 1%nat -> length b <> 1%nat ->
  np_broadcast f a b = Err ValueError.
Proof.
  intros Hab Ha Hb. unfold np_broadcast.
  destruct (Nat.eqb_spec (length a) (length b)) as [?|_]; [contradiction|].
  destruct a as [|a0 [|a1 a]]; destruct b as [|b0 [|b1 b]];
    simpl in *; try reflexivity; congruence.
Qed.

(** X15. The exceptions of [expectation_p] and [expectation_energy], in
    the order the source meets them: a grid of fewer than two points is
    an [IndexError] ([x[1]]); then a wavefunction of fewer than two
    samples is a [ValueError] ([np.gradient]); then, for the energy, a
    zero mass is a [ZeroDivisionError] and a potential whose length is
    neither that of [psi] nor one is a [ValueError].  With two grid
    points and two samples [expectation_p] returns a value, whatever the
    length of the grid next to that of [psi]. *)
Theorem expectation_p_energy_errors
  (x : list R) (psi : list C) (V : list R) (mass hbar : R) :
  ((length x < 2)%nat ->
   expectation_p x psi hbar = Err IndexError
   /\ expectation_energy x psi V mass hbar = Err IndexError)
  /\ ((2 <= length x)%nat -> (length psi < 2)%nat ->
      expectation_p x psi hbar = Err ValueError
      /\ expectation_energy x psi V mass hbar = Err ValueError)
  /\ ((2 <= length x)%nat -> (2 <= length psi)%nat ->
      is_ok (expectation_p x psi hbar) = true
      /\ expectation_energy x psi V 0%R hbar = Err ZeroDivisionError
      /\ (mass <> 0%R -> length V <> length psi -> length V <> 1%nat ->
          expectation_energy x psi V mass hbar = Err ValueError)).
Proof.
  split; [|split].
  - intros Hx. unfold expectation_p, expectation_energy.
    rewrite spacing_1d_short by exact Hx. split; reflexivity.
  - intros Hx Hpsi. unfold expectation_p, expectation_energy.
    rewrite spacing_1d_R by exact Hx. rewrite !bind_ok.
    rewrite np_gradient_short by exact Hpsi. split; reflexivity.
  - intros Hx Hpsi. unfold expectation_p, expectation_energy.
    rewrite spacing_1d_R by exact Hx. rewrite !bind_ok.
    destruct (np_gradient_ok psi (nth 1 x 0 - nth 0 x 0)%R Hpsi)
      as (g & -> & Hg & _).
    rewrite !bind_ok.
    destruct (np_gradient_ok g (nth 1 x 0 - nth 0 x 0)%R ltac:(lia))
      as (g2 & -> & Hg2 & _).
    rewrite !bind_ok. split; [reflexivity|]. split.
    + unfold pydiv. change (szerob 0%R) with (Rzerob 0).
      rewrite (Rzerob_true 0) by reflexivity. reflexivity.
    + intros Hm HV1 HV2. unfold pydiv.
      change (szerob mass) with (Rzerob mass). rewrite (Rzerob_false mass Hm).
      rewrite bind_ok.
      rewrite np_broadcast_mismatch by (try assumption; lia). reflexivity.
Qed.

Lemma np_gradient_interior {T A} `{Scalar T} `{Scalar A} `{Amplitude A T}
  (f g : list A) (h : T) (i : nat) :
  np_gradient f h = Ok g -> (1 <= i)%nat -> (i + 1 < length f)%nat ->
  length g = length f
  /\ nth i g s0 = divr (nth (i + 1) f s0 - nth (i - 1) f s0)%S (s2 * h)%S.
Proof.
  intros Hg Hi Hn. unfold np_gradient in Hg.
  destruct (Nat.ltb_spec (length f) 2) as [?|_]; [lia|].
  apply Ok_inj in Hg. subst g.
  split; [rewrite length_map, length_seq; reflexivity|].
  rewrite nth_map_seq by lia. cbn [Nat.add].
  destruct (Nat.eqb_spec i 0) as [?|_]; [lia|].
  destruct (Nat.eqb_spec i (length f - 1)) as [?|_]; [lia|]. reflexivity.
Qed.

(** X16. The second derivative inside [expectation_energy] is
    [np.gradient] applied twice, which away from the ends of the grid
    is the difference [(psi[i+2] - 2*psi[i] + psi[i-2]) / (4 * dx**2)] over
    the points two steps away, not the three-point difference over the
    neighbours that the Hamiltonian of the solvers uses. *)
Theorem expectation_energy_second_difference (psi : list C) (dx : R) (i : nat) :
  (2 <= i)%nat -> (i + 2 < length psi)%nat -> dx <> 0%R ->
  exists dpsi_dx d2psi_dx2 : list C,
    np_gradient psi dx = Ok dpsi_dx
    /\ np_gradient dpsi_dx dx = Ok d2psi_dx2
    /\ nth i d2psi_dx2 (RtoC 0)
       = divr (Csub (Cadd (nth (i + 2) psi (RtoC 0)) (nth (i - 2) psi (RtoC 0)))
                    (Cadd (nth i psi (RtoC 0)) (nth i psi (RtoC 0))))
              (4 * (dx * dx))%R.
Proof.
  intros Hi Hn Hdx.
  destruct (np_gradient_ok psi dx ltac:(lia)) as (g & Hg & Hlg & _).
  destruct (np_gradient_ok g dx ltac:(lia)) as (g2 & Hg2 & _ & _).
  exists g, g2. split; [exact Hg|]. split; [exact Hg2|].
  destruct (np_gradient_interior g g2 dx i Hg2 ltac:(lia) ltac:(lia)) as [_ E].
  destruct (np_gradient_interior psi g dx (i + 1) Hg ltac:(lia) ltac:(lia))
    as [_ E1].
  destruct (np_gradient_interior psi g dx (i - 1) Hg ltac:(lia) ltac:(lia))
    as [_ E2].
  change (@s0 C C_scalar) with (RtoC 0) in *.
  rewrite E, E1, E2.
  replace (i + 1 + 1)%nat with (i + 2)%nat by lia.
  replace (i + 1 - 1)%nat with i by lia.
  replace (i - 1 + 1)%nat with i by lia.
  replace (i - 1 - 1)%nat with (i - 2)%nat by lia.
  destruct (nth (i + 2) psi (RtoC 0)) as [ar ai].
  destruct (nth (i - 2) psi (RtoC 0)) as [br bi].
  destruct (nth i psi (RtoC 0)) as [cr ci].
  cbn. f_equal; field; exact Hdx.
Qed.

Lemma expectation_energy_second_difference_witness :
  exists dpsi_dx d2psi_dx2 : list C,
    np_gradient [RtoC 0; RtoC 0; RtoC 1; RtoC 0; RtoC 0] 1%R = Ok dpsi_dx
    /\ np_gradient dpsi_dx 1%R = Ok d2psi_dx2
    /\ nth 2 d2psi_dx2 (RtoC 0)
       = divr (Csub (Cadd (RtoC 0) (RtoC 0)) (Cadd (RtoC 1) (RtoC 1)))
              (4 * (1 * 1))%R.
Proof.
  apply (expectation_energy_second_difference
           [RtoC 0; RtoC 0; RtoC 1; RtoC 0; RtoC 0] 1 2).
  - lia.
  - simpl. lia.
  - lra.
Defined.

(** *** two dimensions *)

Lemma weighted_sum_bounds_2d (a b : R) (X D : list (list R)) :
  Forall2 (fun r d => length d = length r) X D ->
  Forall (Forall (fun xi => (a <= xi <= b)%R)) X ->
  Forall (Forall (fun w => (0 <= w)%R)) D ->
  (a * np_sum2 D <= np_sum2 (zip_with (zip_with Rmult) X D) <= b * np_sum2 D)%R.
Proof.
  intros Hsh. induction Hsh as [|r d X D Hl _ IH]; intros HX HD.
  - unfold np_sum2. simpl. change (@s0 R R_scalar) with 0%R. lra.
  - apply Forall_cons_1 in HX as [Hr HX]. apply Forall_cons_1 in HD as [Hd HD].
    specialize (IH HX HD).
    pose proof (weighted_sum_bounds a b r d Hr Hl Hd) as Hrow.
    unfold np_sum2 in *. cbn [zip_with map]. rewrite !np_sum_cons_R. nra.
Qed.

Lemma density_sum2_pos (psi : list (list C)) :
  nonzero (ravel psi) -> (0 < np_sum2 (map (map abs2) psi))%R.
Proof.
  intros Hnz. unfold nonzero, ravel in Hnz. apply Exists_concat in Hnz.
  unfold np_sum2. rewrite map_map. apply np_sum_pos.
  - apply List.Forall_forall. intros v Hv.
    apply in_map_iff in Hv as (r & <- & _).
    apply np_sum_nonneg, abs2_Forall_nonneg.
  - apply List.Exists_exists in Hnz as (r & Hr & Hrz).
    apply List.Exists_exists. exists (np_sum (map abs2 r)).
    split; [apply (in_map (fun r => np_sum (map abs2 r))), Hr|].
    apply density_sum_pos. exact Hrz.
Qed.

Lemma density_sum2_scale (psi : list (list C)) (dx dy : R) :
  np_sum2 (map (map (fun d => (d * dx * dy)%R)) (map (map abs2) psi))
  = (np_sum2 (map (map abs2) psi) * (dx * dy))%R.
Proof.
  rewrite <- np_sum2_scale. f_equal.
  apply map_ext. intros r. apply map_ext. intros d. ring.
Qed.

Lemma density_same_shape (Z : list (list R)) (psi : list (list C)) :
  Forall2 (fun r p => length p = length r) Z psi ->
  Forall2 (fun r d => length d = length r) Z (map (map abs2) psi)
  /\ Forall2 (fun ra rb : list R => length ra = length rb)
             Z (map (map abs2) psi).
Proof.
  intros HZ. induction HZ as [|r p Z psi Hl _ IH].
  - split; constructor.
  - split; (constructor; [rewrite length_map; congruence | apply IH]).
Qed.

(** X17. In two dimensions too the position expectations are weighted
    means: for [X], [Y] and [psi] of one shape, [psi] with a non-zero
    sample and non-zero spacings [X[1,0] - X[0,0]] and [Y[0,1] - Y[0,0]],
    [expectation_x_2d] returns a value between any two bounds that
    enclose the entries of [X], and [expectation_y_2d] one between any
    two bounds that enclose the entries of [Y]. *)
Theorem expectation_xy_2d_weighted_mean
  (X Y : list (list R)) (psi : list (list C)) (dx dy a b c d : R) :
  spacing_2d X Y = Ok (dx, dy) -> dx <> 0%R -> dy <> 0%R ->
  Forall2 (fun r p => length p = length r) X psi ->
  Forall2 (fun r p => length p = length r) Y psi ->
  nonzero (ravel psi) ->
  Forall (Forall (fun xi => (a <= xi <= b)%R)) X ->
  Forall (Forall (fun yi => (c <= yi <= d)%R)) Y ->
  exists vx vy : R,
    expectation_x_2d X Y psi = Ok vx /\ (a <= vx <= b)%R
    /\ expectation_y_2d X Y psi = Ok vy /\ (c <= vy <= d)%R.
Proof.
  intros Hsp Hdx Hdy HXs HYs Hnz HX HY.
  pose proof (density_sum2_pos psi Hnz) as Hpos.
  assert (Hnn : Forall (Forall (fun w => (0 <= w)%R)) (map (map abs2) psi)).
  { apply List.Forall_forall. intros r Hr.
    apply in_map_iff in Hr as (p & <- & _). apply abs2_Forall_nonneg. }
  pose proof (fun Z => density_same_shape Z psi) as Hshape.
  assert (Hbound : forall (Z : list (list R)) (lo hi : R),
             Forall2 (fun r p => length p = length r) Z psi ->
             Forall (Forall (fun z => (lo <= z <= hi)%R)) Z ->
             (lo <= np_sum2 (zip_with (zip_with Rmult) Z (map (map abs2) psi))
                    * dx * dy / (np_sum2 (map (map abs2) psi) * (dx * dy))
                 <= hi)%R).
  { intros Z lo hi HZs HZ.
    destruct (weighted_sum_bounds_2d lo hi Z (map (map abs2) psi)
                (proj1 (Hshape Z HZs)) HZ Hnn) as [Hlo Hhi].
    set (S := np_sum2 (zip_with (zip_with Rmult) Z (map (map abs2) psi))) in *.
    set (D := np_sum2 (map (map abs2) psi)) in *.
    replace (S * dx * dy / (D * (dx * dy)))%R with (S / D)%R
      by (field; repeat split; lra).
    split.
    - apply (Rmult_le_reg_r D); [exact Hpos|].
      unfold Rdiv. rewrite Rmult_assoc, Rinv_l by lra. lra.
    - apply (Rmult_le_reg_r D); [exact Hpos|].
      unfold Rdiv. rewrite Rmult_assoc, Rinv_l by lra. lra. }
  eexists _, _. split; [|split; [|split]].
  - unfold expectation_x_2d. rewrite Hsp, bind_ok. cbv beta iota.
    rewrite np_broadcast2_same_shape by (apply Hshape, HXs).
    rewrite bind_ok, density_sum2_scale. reflexivity.
  - apply Hbound; assumption.
  - unfold expectation_y_2d. rewrite Hsp, bind_ok. cbv beta iota.
    rewrite np_broadcast2_same_shape by (apply Hshape, HYs).
    rewrite bind_ok, density_sum2_scale. reflexivity.
  - apply Hbound; assumption.
Qed.

Lemma expectation_xy_2d_weighted_mean_witness :
  exists vx vy : R,
    expectation_x_2d square_X square_Y cn_psi0_2d = Ok vx
    /\ (0 <= vx <= 1)%R
    /\ expectation_y_2d square_X square_Y cn_psi0_2d = Ok vy
    /\ (0 <= vy <= 1)%R.
Proof.
  apply (expectation_xy_2d_weighted_mean square_X square_Y cn_psi0_2d
           (1 - 0)%R (1 - 0)%R 0 1 0 1).
  - reflexivity.
  - lra.
  - lra.
  - repeat constructor.
  - repeat constructor.
  - apply Exists_cons_hd. intros E. apply (f_equal Re) in E. simpl in E. lra.
  - unfold square_X. repeat constructor; lra.
  - unfold square_Y. repeat constructor; lra.
Defined.

(** *** a caller-supplied operator *)

Lemma conj_mul_self_sum (psi : list C) :
  np_sum (zip_with Cmul (map Cconj psi) psi) = RtoC (np_sum (map abs2 psi)).
Proof.
  induction psi as [|[pr pi] psi IH]; [reflexivity|].
  cbn [map zip_with]. rewrite np_sum_cons_C, np_sum_cons_R, IH.
  unfold Cadd, Cmul, Cconj, RtoC. cbn [Re Im abs2 C_amplitude].
  change (Cnorm2 {| Re := pr; Im := pi |}) with (pr * pr + pi * pi)%R.
  f_equal; ring.
Qed.

Lemma conj_mul_position_sum (x : list R) (psi : list C) :
  np_sum (zip_with Cmul (map Cconj psi)
            (zip_with (fun xi p => Cmul (RtoC xi) p) x psi))
  = RtoC (np_sum (zip_with Rmult x (map abs2 psi))).
Proof.
  revert x. induction psi as [|[pr pi] psi IH]; intros [|xi x]; try reflexivity.
  cbn [map zip_with]. rewrite np_sum_cons_C, np_sum_cons_R, IH.
  unfold Cadd, Cmul, Cconj, RtoC. cbn [Re Im abs2 C_amplitude].
  change (Cnorm2 {| Re := pr; Im := pi |}) with (pr * pr + pi * pi)%R.
  f_equal; ring.
Qed.

(** X18. [expectation_observable] with the identity operator returns
    [1], and with the operator that multiplies by the grid it returns
    the value of [expectation_x], as a complex number with zero imaginary
    part: for a grid of at least two points with [x[1] <> x[0]] and a
    wavefunction of the grid's length with a non-zero sample. *)
Theorem expectation_observable_identity_and_position (x : list R) (psi : list C) :
  (2 <= length x)%nat -> nth 1 x 0%R <> nth 0 x 0%R ->
  length psi = length x -> nonzero psi ->
  expectation_observable x psi (fun _ p => Ok p) = Ok (RtoC 1)
  /\ exists v : R,
       expectation_x x psi = Ok v
       /\ expectation_observable x psi
            (fun x p => np_broadcast (fun xi a => Cmul (RtoC xi) a) x p)
          = Ok (RtoC v).
Proof.
  intros Hx Hdx Hl Hnz.
  pose proof (density_sum_pos psi Hnz) as Hpos.
  split.
  - unfold expectation_observable. rewrite bind_ok.
    rewrite spacing_1d_R by exact Hx. rewrite bind_ok.
    rewrite np_broadcast_same_length by (rewrite length_map; reflexivity).
    rewrite bind_ok, conj_mul_self_sum, density_sum_scale. f_equal.
    unfold RtoC, Cmul. cbn [divr C_amplitude Re Im]. f_equal; field; split; lra.
  - eexists. split.
    + unfold expectation_x, probability_density.
      rewrite np_broadcast_same_length by (rewrite length_map; lia).
      reflexivity.
    + unfold expectation_observable.
      rewrite np_broadcast_same_length by lia. rewrite bind_ok.
      rewrite spacing_1d_R by exact Hx. rewrite bind_ok.
      rewrite np_broadcast_same_length
        by (rewrite length_zip_with, length_map; lia).
      rewrite bind_ok, conj_mul_position_sum, density_sum_scale. f_equal.
      unfold RtoC, Cmul. cbn [divr C_amplitude Re Im].
      change (@sdiv R R_scalar) with Rdiv. change (@smul R R_scalar) with Rmult.
      f_equal; field; split; lra.
Qed.

Lemma expectation_observable_identity_and_position_witness :
  expectation_observable [0; 1; 2]%R [RtoC 1; Ci; RtoC 2] (fun _ p => Ok p)
  = Ok (RtoC 1).
Proof.
  apply (expectation_observable_identity_and_position
           [0; 1; 2]%R [RtoC 1; Ci; RtoC 2]).
  - simpl. lia.
  - simpl. lra.
  - reflexivity.
  - apply Exists_cons_hd. intros E. apply (f_equal Re) in E. simpl in E. lra.
Defined.
(** ** The one-dimensional Hamiltonian, entry by entry *)

Lemma repeat_lookup {A} (a : A) (n k : nat) :
  (k < n)%nat -> repeat a n !! k = Some a.
Proof.
  intros Hk. rewrite (nth_lookup_Some (repeat a n) k a)
    by (rewrite repeat_length; exact Hk).
  rewrite nth_repeat. reflexivity.
Qed.

Lemma laplacian_1d_get (n : nat) (d : R) (i j : nat) :
  (i < n)%nat -> (j < n)%nat ->
  sp_get (laplacian_1d n d) i j
  = if (i =? j)%nat then Some (- (1 + 1) / (d * d))%R
    else if (S i =? j)%nat || (i =? S j)%nat then Some (1 / (d * d))%R
         else None.
Proof.
  intros Hi Hj. unfold laplacian_1d, sp_div, diags, np_ones, np_full.
  cbn [sp_get combine diag_lookup length Z.abs_nat]. rewrite repeat_length.
  destruct (Nat.ltb_spec i (n - 1 + Pos.to_nat 1)) as [_|?]; [|lia].
  destruct (Nat.ltb_spec j (n - 1 + Pos.to_nat 1)) as [_|?]; [|lia].
  cbn [andb].
  destruct (Nat.eqb_spec i j) as [Eij|Nij];
    destruct (Nat.eqb_spec (S i) j) as [Esij|Nsij];
    destruct (Nat.eqb_spec i (S j)) as [Eisj|Nisj]; try lia; cbn [orb];
    repeat match goal with
           | |- context [(?u =? ?v)%Z] => destruct (Z.eqb_spec u v); try lia
           end;
    try rewrite repeat_lookup by lia; reflexivity.
Qed.

Lemma diags_main_get {T} `{Scalar T} (V : list T) (i j : nat) :
  (i < length V)%nat -> (j < length V)%nat ->
  sp_get (diags [V] [0%Z]) i j = if (i =? j)%nat then V !! i else None.
Proof.
  intros Hi Hj. unfold diags.
  cbn [sp_get combine diag_lookup length Z.abs_nat]. rewrite Nat.add_0_r.
  destruct (Nat.ltb_spec i (length V)) as [_|?]; [|lia].
  destruct (Nat.ltb_spec j (length V)) as [_|?]; [|lia].
  cbn [andb].
  destruct (Nat.eqb_spec i j) as [->|Nij].
  - rewrite Z.sub_diag. cbn. rewrite Nat.min_id. reflexivity.
  - destruct (Z.eqb_spec (Z.of_nat j - Z.of_nat i) 0); [lia | reflexivity].
Qed.

(** X19. The matrix both one-dimensional solvers assemble is the
    three-point finite-difference Hamiltonian with the wavefunction
    fixed to zero outside the grid: on a grid of [N] points with a
    non-zero spacing and mass it has [hbar**2 / (mass * dx**2) + V[i]] on
    the diagonal, [-hbar**2 / (2 * mass * dx**2)] between neighbours and
    nothing else; in particular the first and the last point are not
    coupled (no periodic wrap-around). *)
Theorem hamiltonian_1d_entries (N : nat) (dx : R) (V : list R) (mass hbar : R) :
  (1 <= N)%nat -> length V = N -> mass <> 0%R -> dx <> 0%R ->
  exists Hm : spmatrix R,
    hamiltonian_1d N dx V mass hbar = Ok Hm
    /\ sp_rows Hm = N /\ sp_cols Hm = N
    /\ (forall i, (i < N)%nat ->
          sp_entry Hm i i = (hbar * hbar / (mass * (dx * dx)) + nth i V 0)%R)
    /\ (forall i, (S i < N)%nat ->
          sp_entry Hm i (S i) = (- (hbar * hbar) / (2 * mass * (dx * dx)))%R
          /\ sp_entry Hm (S i) i = (- (hbar * hbar) / (2 * mass * (dx * dx)))%R)
    /\ (forall i j, (i < N)%nat -> (j < N)%nat ->
          (S i < j)%nat \/ (S j < i)%nat -> sp_get Hm i j = None)
    /\ ((3 <= N)%nat ->
        sp_entry Hm 0 (N - 1) = 0%R /\ sp_entry Hm (N - 1) 0 = 0%R).
Proof.
  intros HN HV Hm Hdx.
  rewrite hamiltonian_1d_R by assumption. eexists. split; [reflexivity|].
  split; [reflexivity|]. split; [reflexivity|].
  assert (Hfar : forall i j, (i < N)%nat -> (j < N)%nat ->
            (S i < j)%nat \/ (S j < i)%nat ->
            entry_add
              (option_map (fun a => (- (hbar * hbar) / ((1 + 1) * mass) * a)%R)
                          (sp_get (laplacian_1d N dx) i j))
              (sp_get (diags [V] [0%Z]) i j) = None).
  { intros i j Hi Hj Hd.
    rewrite laplacian_1d_get, diags_main_get by lia.
    destruct (Nat.eqb_spec i j); [lia|].
    destruct (Nat.eqb_spec (S i) j); [lia|].
    destruct (Nat.eqb_spec i (S j)); [lia|]. reflexivity. }
  split; [|split; [|split]].
  - intros i Hi. unfold sp_entry. sp_beta.
    rewrite laplacian_1d_get, diags_main_get by lia.
    rewrite Nat.eqb_refl, (nth_lookup_Some V i 0%R) by lia.
    cbn. field. split; assumption.
  - intros i Hi. unfold sp_entry. sp_beta.
    rewrite !laplacian_1d_get, !diags_main_get by lia.
    destruct (Nat.eqb_spec i (S i)); [lia|].
    destruct (Nat.eqb_spec (S i) i); [lia|].
    rewrite !Nat.eqb_refl. cbn [orb]. rewrite orb_true_r.
    cbn. split; field; split; assumption.
  - intros i j Hi Hj Hd. sp_beta. apply Hfar; assumption.
  - intros H3. unfold sp_entry. sp_beta.
    rewrite !Hfar by lia. split; reflexivity.
Qed.

Lemma hamiltonian_1d_entries_witness :
  exists Hm : spmatrix R,
    hamiltonian_1d 3 1%R [0; 5; 0]%R 1%R 1%R = Ok Hm
    /\ sp_entry Hm 1 1 = (1 * 1 / (1 * (1 * 1)) + 5)%R
    /\ sp_entry Hm 0 2 = 0%R.
Proof.
  destruct (hamiltonian_1d_entries 3 1%R [0; 5; 0]%R 1%R 1%R
              ltac:(lia) ltac:(reflexivity) ltac:(lra) ltac:(lra))
    as (Hm & HH & _ & _ & Hd & _ & _ & Hw).
  exists Hm. split; [exact HH|]. split.
  - apply (Hd 1%nat). lia.
  - apply Hw. lia.
Defined.
(** ** The Crank-Nicolson step conserves the sum of squares *)

Lemma cn_A_entry (N : nat) (Hm : spmatrix R) (dt hbar : R) (A : spmatrix C) :
  (forall i j,
      sp_get A i j
      = entry_add
          (sp_get (sp_map RtoC (diags [np_ones N] [0%Z])) i j)
          (option_map
             (fun h => divr (Cmul (Cmul Ci (RtoC dt)) (RtoC h)) (2 * hbar)%R)
             (sp_get Hm i j))) ->
  forall i j, (i < N)%nat -> (j < N)%nat ->
    Re (sp_entry A i j) = (if (i =? j)%nat then 1 else 0)%R
    /\ Im (sp_entry A i j) = (dt * sp_entry Hm i j / (2 * hbar))%R.
Proof.
  intros HA i j Hi Hj. unfold sp_entry. rewrite HA, identity_entry by assumption.
  destruct (i =? j)%nat; destruct (sp_get Hm i j) as [h|];
    simpl; unfold Rdiv; split; ring.
Qed.

(** the rows of [(I + s i g) v] for a sign [s] *)
Lemma cn_rows (N : nat) (g : nat -> nat -> R) (s : R) (M : spmatrix C)
  (v : list C) (i : nat) :
  sp_rows M = N -> sp_cols M = N ->
  (forall i j, (i < N)%nat -> (j < N)%nat ->
     Re (sp_entry M i j) = (if (i =? j)%nat then 1 else 0)%R
     /\ Im (sp_entry M i j) = (s * g i j)%R) ->
  (i < N)%nat ->
  Re (nth i (sp_dot M v) (RtoC 0))
  = (Re (nth i v (RtoC 0))
     - s * lsum (fun j => g i j * Im (nth j v (RtoC 0)))%R (seq 0 N))%R
  /\ Im (nth i (sp_dot M v) (RtoC 0))
     = (Im (nth i v (RtoC 0))
        + s * lsum (fun j => g i j * Re (nth j v (RtoC 0)))%R (seq 0 N))%R.
Proof.
  intros Hr Hc HM Hi.
  assert (HL : forall j, In j (seq 0 N) <-> (j < N)%nat)
    by (intros j; rewrite in_seq; lia).
  destruct (sp_dot_nth M v i) as [Er Ei]; [lia|].
  rewrite Hc in Er, Ei. rewrite Er, Ei. split.
  - rewrite (lsum_ext _ (fun j => ((if (i =? j)%nat then 1 else 0)
                                     * Re (nth j v (RtoC 0))
                                   + - s * (g i j * Im (nth j v (RtoC 0))))%R)).
    2:{ intros j Hj. apply HL in Hj. destruct (HM i j Hi Hj) as [-> ->]. ring. }
    rewrite lsum_plus, lsum_scal.
    rewrite (lsum_delta (fun j => Re (nth j v (RtoC 0))))
      by (try apply seq_NoDup; apply HL; exact Hi).
    ring.
  - rewrite (lsum_ext _ (fun j => ((if (i =? j)%nat then 1 else 0)
                                     * Im (nth j v (RtoC 0))
                                   + s * (g i j * Re (nth j v (RtoC 0))))%R)).
    2:{ intros j Hj. apply HL in Hj. destruct (HM i j Hi Hj) as [-> ->]. ring. }
    rewrite lsum_plus, lsum_scal.
    rewrite (lsum_delta (fun j => Im (nth j v (RtoC 0))))
      by (try apply seq_NoDup; apply HL; exact Hi).
    ring.
Qed.

Lemma lsum_cross_symmetric (g : nat -> nat -> R) (u w : nat -> R) (L : list nat) :
  (forall i j, g i j = g j i) ->
  lsum (fun i => (u i * lsum (fun j => g i j * w j) L)%R) L
  = lsum (fun i => (w i * lsum (fun j => g i j * u j) L)%R) L.
Proof.
  intros Hsym.
  rewrite (lsum_ext _ (fun i => lsum (fun j => (u i * (g i j * w j))%R) L))
    by (intros i _; symmetry; apply lsum_scal).
  rewrite (lsum_ext (fun i => (w i * _)%R)
                    (fun i => lsum (fun j => (w i * (g i j * u j))%R) L))
    by (intros i _; symmetry; apply lsum_scal).
  rewrite lsum_swap.
  apply lsum_ext. intros j _. apply lsum_ext. intros i _.
  rewrite (Hsym i j). ring.
Qed.

Lemma cn_cayley_isometry (N : nat) (g : nat -> nat -> R) (A B : spmatrix C)
  (psi psi' : list C) :
  sp_rows A = N -> sp_cols A = N -> sp_rows B = N -> sp_cols B = N ->
  (forall i j, (i < N)%nat -> (j < N)%nat ->
     Re (sp_entry A i j) = (if (i =? j)%nat then 1 else 0)%R
     /\ Im (sp_entry A i j) = (1 * g i j)%R) ->
  (forall i j, (i < N)%nat -> (j < N)%nat ->
     Re (sp_entry B i j) = (if (i =? j)%nat then 1 else 0)%R
     /\ Im (sp_entry B i j) = (-1 * g i j)%R) ->
  (forall i j, g i j = g j i) ->
  sp_dot A psi' = sp_dot B psi ->
  lsum (fun i => Cnorm2 (nth i psi' (RtoC 0))) (seq 0 N)
  = lsum (fun i => Cnorm2 (nth i psi (RtoC 0))) (seq 0 N).
Proof.
  intros HAr HAc HBr HBc HA HB Hsym Heq.
  set (L := seq 0 N).
  set (re' := fun j => Re (nth j psi' (RtoC 0))).
  set (im' := fun j => Im (nth j psi' (RtoC 0))).
  set (re := fun j => Re (nth j psi (RtoC 0))).
  set (im := fun j => Im (nth j psi (RtoC 0))).
  set (sr := fun j => (re' j + re j)%R). set (si := fun j => (im' j + im j)%R).
  assert (E : forall i, In i L ->
            (re' i - re i = lsum (fun j => g i j * si j) L)%R
            /\ (im' i - im i = -1 * lsum (fun j => g i j * sr j) L)%R).
  { intros i Hi. apply in_seq in Hi.
    destruct (cn_rows N g 1 A psi' i HAr HAc HA ltac:(lia)) as [Ar Ai].
    destruct (cn_rows N g (-1) B psi i HBr HBc HB ltac:(lia)) as [Br Bi].
    rewrite Heq in Ar, Ai. rewrite Ar in Br. rewrite Ai in Bi.
    fold L re' im' re im in Br, Bi.
    unfold si, sr.
    rewrite (lsum_ext (fun j => (g i j * (im' j + im j))%R)
                      (fun j => (g i j * im' j + g i j * im j)%R))
      by (intros; ring).
    rewrite (lsum_ext (fun j => (g i j * (re' j + re j))%R)
                      (fun j => (g i j * re' j + g i j * re j)%R))
      by (intros; ring).
    rewrite !lsum_plus. unfold re', im', re, im. split; lra. }
  assert (D : lsum (fun i => (Cnorm2 (nth i psi' (RtoC 0))
                              - Cnorm2 (nth i psi (RtoC 0)))%R) L = 0%R).
  { rewrite (lsum_ext _ (fun i => (sr i * lsum (fun j => g i j * si j) L
                                   + -1 * (si i * lsum (fun j => g i j * sr j) L))%R)).
    2:{ intros i Hi. destruct (E i Hi) as [E1 E2].
        unfold Cnorm2. fold (re' i) (im' i) (re i) (im i).
        rewrite <- E1.
        replace (-1 * (si i * lsum (fun j => g i j * sr j) L))%R
          with (si i * (-1 * lsum (fun j => g i j * sr j) L))%R by ring.
        rewrite <- E2. unfold sr, si. ring. }
    rewrite lsum_plus, lsum_scal, (lsum_cross_symmetric g sr si L Hsym). ring. }
  rewrite (lsum_ext (fun i => (Cnorm2 (nth i psi' (RtoC 0))
                               - Cnorm2 (nth i psi (RtoC 0)))%R)
                    (fun i => (Cnorm2 (nth i psi' (RtoC 0))
                               + -1 * Cnorm2 (nth i psi (RtoC 0)))%R)) in D
    by (intros; ring).
  rewrite lsum_plus, lsum_scal in D. lra.
Qed.

Lemma lsum_seq_shift (f : nat -> R) (s n : nat) :
  lsum f (seq (S s) n) = lsum (fun i => f (S i)) (seq s n).
Proof.
  revert s. induction n as [|n IH]; intros s; [reflexivity|].
  cbn [seq lsum fold_right]. f_equal. apply IH.
Qed.

Lemma np_sum_abs2_lsum (v : list C) :
  np_sum (map abs2 v)
  = lsum (fun i => Cnorm2 (nth i v (RtoC 0))) (seq 0 (length v)).
Proof.
  induction v as [|a v IH]; [reflexivity|].
  cbn [map length seq]. rewrite np_sum_cons_R, IH.
  change (lsum (fun i => Cnorm2 (nth i (a :: v) (RtoC 0))) (0%nat :: seq 1 (length v)))
    with (Cnorm2 a + lsum (fun i => Cnorm2 (nth i (a :: v) (RtoC 0)))
                          (seq 1 (length v)))%R.
  rewrite lsum_seq_shift. reflexivity.
Qed.

Lemma cn_step_sum_of_squares (N : nat) (Hm : spmatrix R) (dt hbar : R)
  (A B : spmatrix C) (lu_solve : list C -> list C) (psi : list C) :
  sp_rows Hm = N -> sp_cols Hm = N ->
  (forall i j, sp_entry Hm i j = sp_entry Hm j i) ->
  hbar <> 0%R ->
  cn_matrices N Hm dt hbar = Ok (A, B) ->
  (forall b, length b = sp_rows A ->
             length (lu_solve b) = sp_rows A /\ sp_dot A (lu_solve b) = b) ->
  length psi = N ->
  np_sum (map abs2 (lu_solve (sp_dot B psi))) = np_sum (map abs2 psi).
Proof.
  intros Hr Hc Hsym Hh Hcn Hlu Hlen.
  destruct (cn_matrices_R N Hm dt hbar Hr Hc Hh)
    as (A' & B' & Hcn' & HAr & HAc & HBr & HBc & HAe & HBe).
  rewrite Hcn in Hcn'. injection Hcn' as <- <-.
  assert (Hb : length (sp_dot B psi) = sp_rows A)
    by (rewrite sp_dot_length; congruence).
  destruct (Hlu _ Hb) as [Hl Hsolve].
  rewrite !np_sum_abs2_lsum, Hl, HAr, Hlen.
  apply (cn_cayley_isometry N (fun i j => (dt * sp_entry Hm i j / (2 * hbar))%R)
           A B); try assumption.
  - intros i j Hi Hj.
    destruct (cn_A_entry N Hm dt hbar A HAe i j Hi Hj) as [-> ->]. split; ring.
  - intros i j Hi Hj.
    destruct (cn_B_entry N Hm dt hbar B HBe i j Hi Hj) as [-> ->]. split; ring.
  - intros i j. rewrite (Hsym i j). reflexivity.
Qed.

(** X20. One Crank-Nicolson update conserves the sum of squares: with the
    matrices [A] and [B] the two time-dependent solvers build from their
    Hamiltonian, and a factorisation that solves [A psi' = B psi]
    exactly, [lu.solve(B.dot(psi))] has the same [sum(abs(psi)**2)] as
    [psi] for every state on the grid, time step and potential.  The
    division by the trapezoidal norm that follows in the loop is what
    changes the scale of a snapshot, not the update itself. *)
Theorem crank_nicolson_update_conserves_sum (dt mass hbar : R) :
  mass <> 0%R -> hbar <> 0%R ->
  (forall (N : nat) (dx : R) (V : list R) (Hm : spmatrix R) (A B : spmatrix C)
          (lu_solve : list C -> list C) (psi : list C),
      (1 <= N)%nat -> length V = N ->
      hamiltonian_1d N dx V mass hbar = Ok Hm ->
      cn_matrices N Hm dt hbar = Ok (A, B) ->
      (forall b, length b = sp_rows A ->
                 length (lu_solve b) = sp_rows A /\ sp_dot A (lu_solve b) = b) ->
      length psi = N ->
      np_sum (map abs2 (lu_solve (sp_dot B psi))) = np_sum (map abs2 psi))
  /\ (forall (Nx Ny : nat) (dx dy : R) (V : list (list R)) (Hm : spmatrix R)
             (A B : spmatrix C) (lu_solve : list C -> list C) (psi_vec : list C),
         (1 <= Nx)%nat -> (1 <= Ny)%nat -> length (ravel V) = (Nx * Ny)%nat ->
         hamiltonian_2d Nx Ny dx dy V mass hbar = Ok Hm ->
         cn_matrices (Nx * Ny) Hm dt hbar = Ok (A, B) ->
         (forall b, length b = sp_rows A ->
                    length (lu_solve b) = sp_rows A /\ sp_dot A (lu_solve b) = b) ->
         length psi_vec = (Nx * Ny)%nat ->
         np_sum (map abs2 (lu_solve (sp_dot B psi_vec)))
         = np_sum (map abs2 psi_vec)).
Proof.
  intros Hmass Hh. split.
  - intros N dx V Hm A B lu_solve psi HN HV HH Hcn Hlu Hlen.
    destruct (hamiltonian_1d_symmetric N dx V mass hbar Hm HN HV Hmass HH)
      as (Hr & Hc & Hsym).
    exact (cn_step_sum_of_squares N Hm dt hbar A B lu_solve psi
             Hr Hc Hsym Hh Hcn Hlu Hlen).
  - intros Nx Ny dx dy V Hm A B lu_solve psi HNx HNy HV HH Hcn Hlu Hlen.
    destruct (hamiltonian_2d_symmetric Nx Ny dx dy V mass hbar Hm
                HNx HNy HV Hmass HH) as (Hr & Hc & Hsym).
    exact (cn_step_sum_of_squares (Nx * Ny) Hm dt hbar A B lu_solve psi
             Hr Hc Hsym Hh Hcn Hlu Hlen).
Qed.

Lemma crank_nicolson_update_conserves_sum_witness :
  exists (Hm : spmatrix R) (A B : spmatrix C),
    hamiltonian_1d 2 (1 - 0)%R cn_potential_1d 1%R 1%R = Ok Hm
    /\ cn_matrices 2 Hm (2 - 0)%R 1%R = Ok (A, B)
    /\ np_sum (map abs2 (lu_solve_small (sp_dot B cn_psi0_1d)))
       = np_sum (map abs2 cn_psi0_1d).
Proof.
  assert (H1 : (1 : R) <> 0%R) by lra.
  pose proof (hamiltonian_1d_R 2 (1 - 0)%R cn_potential_1d 1%R 1%R
                ltac:(lia) ltac:(reflexivity) H1) as HH.
  set (Hm := SpMatrix 2 2 _) in HH.
  destruct (cn_matrices_R 2 Hm (2 - 0)%R 1%R eq_refl eq_refl H1)
    as (A & B & Hcn & _).
  exists Hm, A, B. split; [exact HH|]. split; [exact Hcn|].
  destruct (splu_small_exact_1d Hm A B HH Hcn) as (lu & Hlu & Hex).
  apply Ok_inj in Hlu. subst lu.
  apply (proj1 (crank_nicolson_update_conserves_sum (2 - 0)%R 1%R 1%R H1 H1)
           2%nat (1 - 0)%R cn_potential_1d Hm A B lu_solve_small cn_psi0_1d);
    try reflexivity; try assumption. lia.
Defined.
(** ** Time points, mass and [hbar] in the solvers *)

Lemma getitem_eq {A} (l l' : list A) (i : nat) :
  l !! i = l' !! i -> getitem l i = getitem l' i.
Proof. intros E. unfold getitem. rewrite E. reflexivity. Qed.

Lemma getitem_short {A} (l : list A) (i : nat) :
  (length l <= i)%nat -> getitem l i = Err IndexError.
Proof.
  intros Hl. unfold getitem. rewrite (lookup_ge_None_2 l i) by exact Hl.
  reflexivity.
Qed.

(** X21. The time step is [times[1] - times[0]] and nothing else: two
    arrays of time points of the same length that agree on their first
    two entries give the same result, in one and in two dimensions.  Time
    points that are not equally spaced are stepped with the first
    interval all the same. *)
Theorem time_step_from_first_interval
  (splu : spmatrix C -> result (list C -> list C))
  (x : list R) (psi0 : list C) (V : list R)
  (X Y : list (list R)) (psi0_2d : list (list C)) (V_2d : list (list R))
  (times times' : list R) (mass hbar : R) (method : string) :
  length times = length times' ->
  times !! 0%nat = times' !! 0%nat -> times !! 1%nat = times' !! 1%nat ->
  solve_time_dependent_1d splu x psi0 V times mass hbar method
  = solve_time_dependent_1d splu x psi0 V times' mass hbar method
  /\ solve_time_dependent_2d splu X Y psi0_2d V_2d times mass hbar method
     = solve_time_dependent_2d splu X Y psi0_2d V_2d times' mass hbar method.
Proof.
  intros Hl H0 H1. unfold solve_time_dependent_1d, solve_time_dependent_2d.
  rewrite (getitem_eq times times' 1 H1), (getitem_eq times times' 0 H0), Hl.
  split; reflexivity.
Qed.

Lemma time_step_from_first_interval_witness :
  solve_time_dependent_1d splu_small cn_grid_1d cn_psi0_1d cn_potential_1d
    [0; 2; 3]%R 1%R 1%R "crank-nicolson"
  = solve_time_dependent_1d splu_small cn_grid_1d cn_psi0_1d cn_potential_1d
      [0; 2; 4]%R 1%R 1%R "crank-nicolson".
Proof.
  apply (time_step_from_first_interval splu_small cn_grid_1d cn_psi0_1d
           cn_potential_1d [] [] [] [] [0; 2; 3]%R [0; 2; 4]%R 1%R 1%R
           "crank-nicolson"); reflexivity.
Defined.

Lemma assign_first_same_length {A} (psi_t : list (list A)) (N : nat) (psi0 : list A) :
  length psi0 = N -> assign_first psi_t N psi0 = Ok (<[O := psi0]> psi_t).
Proof.
  intros Hl. unfold assign_first. rewrite (np_broadcast_to_same _ _ Hl).
  reflexivity.
Qed.

(** X22. What the one-dimensional solvers do with a degenerate time array,
    mass or [hbar], on a grid of at least two points: fewer than two time
    points are an [IndexError] ([times[1]]), not a result made of the
    initial state alone; a zero mass is a [ZeroDivisionError] in both
    solvers; a zero [hbar] is a [ZeroDivisionError] in the time-dependent
    solver (the division by [2 * hbar]), while the stationary solver
    accepts it and, on a grid with [x[1] <> x[0]], hands [eigh] the matrix
    that has [V] on its diagonal and zero elsewhere. *)
Theorem solver_1d_degenerate_parameters
  (lapack : list (list R) -> result (list R * list (list R)))
  (splu : spmatrix C -> result (list C -> list C))
  (x : list R) (psi0 : list C) (V : list R) (times : list R)
  (mass hbar : R) (num_eigen : Z) :
  (2 <= length x)%nat -> length V = length x -> length psi0 = length x ->
  ((length times < 2)%nat ->
   solve_time_dependent_1d splu x psi0 V times mass hbar "crank-nicolson"
   = Err IndexError)
  /\ ((2 <= length times)%nat ->
      solve_time_dependent_1d splu x psi0 V times 0%R hbar "crank-nicolson"
      = Err ZeroDivisionError)
  /\ ((2 <= length times)%nat -> mass <> 0%R ->
      solve_time_dependent_1d splu x psi0 V times mass 0%R "crank-nicolson"
      = Err ZeroDivisionError)
  /\ solve_time_independent_1d lapack x V 0%R hbar num_eigen
     = Err ZeroDivisionError
  /\ (mass <> 0%R -> nth 1 x 0%R <> nth 0 x 0%R ->
      exists Hm : spmatrix R,
        hamiltonian_1d (length x) (nth 1 x 0 - nth 0 x 0)%R V mass 0%R = Ok Hm
        /\ (forall i j, (i < length x)%nat -> (j < length x)%nat ->
              sp_entry Hm i j = if (i =? j)%nat then nth i V 0%R else 0%R)
        /\ solve_time_independent_1d lapack x V mass 0%R num_eigen
           = ('(energies, wavefuncs) ← lapack (toarray Hm);
              wavefuncs ← for_each (normalize_column x)
                             (map (py_take num_eigen) wavefuncs)
                             (py_range num_eigen);
              Ok (py_take num_eigen energies, wavefuncs))).
Proof.
  intros Hx HV Hpsi.
  assert (Hz : kinetic_factor 0%R hbar = Err ZeroDivisionError).
  { unfold kinetic_factor, pydiv. change (@szerob R R_scalar (@smul R R_scalar (@s2 R R_scalar) 0%R))
      with (Rzerob ((1 + 1) * 0)%R).
    rewrite (Rzerob_true ((1 + 1) * 0)%R) by lra. reflexivity. }
  split; [|split; [|split; [|split]]].
  - intros Ht. unfold solve_time_dependent_1d. cbn [String.eqb negb].
    change (String.eqb "crank-nicolson" "crank-nicolson") with true. cbn [negb].
    rewrite spacing_1d_R by exact Hx. rewrite bind_ok.
    destruct times as [|t0 [|t1 times]]; [reflexivity | reflexivity |].
    simpl in Ht. lia.
  - intros Ht. unfold solve_time_dependent_1d.
    change (String.eqb "crank-nicolson" "crank-nicolson") with true. cbn [negb].
    rewrite spacing_1d_R by exact Hx. rewrite bind_ok.
    rewrite (getitem_nth times 1 0%R), (getitem_nth times 0 0%R) by lia.
    rewrite !bind_ok, assign_first_same_length by exact Hpsi.
    rewrite bind_ok. unfold hamiltonian_1d. rewrite Hz. reflexivity.
  - intros Ht Hm. unfold solve_time_dependent_1d.
    change (String.eqb "crank-nicolson" "crank-nicolson") with true. cbn [negb].
    rewrite spacing_1d_R by exact Hx. rewrite bind_ok.
    rewrite (getitem_nth times 1 0%R), (getitem_nth times 0 0%R) by lia.
    rewrite !bind_ok, assign_first_same_length by exact Hpsi.
    rewrite bind_ok, hamiltonian_1d_R by (try assumption; lia).
    rewrite bind_ok. unfold cn_matrices, cn_increment.
    change (@szerob R R_scalar (@smul R R_scalar (@s2 R R_scalar) 0%R))
      with (Rzerob ((1 + 1) * 0)%R).
    rewrite (Rzerob_true ((1 + 1) * 0)%R) by lra. reflexivity.
  - unfold solve_time_independent_1d.
    rewrite spacing_1d_R by exact Hx. rewrite bind_ok.
    unfold hamiltonian_1d. rewrite Hz. reflexivity.
  - intros Hm Hdx. rewrite hamiltonian_1d_R by (try assumption; lia).
    eexists. split; [reflexivity|]. split.
    + intros i j Hi Hj. unfold sp_entry. sp_beta.
      rewrite laplacian_1d_get, diags_main_get by lia.
      destruct (Nat.eqb_spec i j) as [->|Nij].
      * rewrite (nth_lookup_Some V j 0%R) by lia. cbn. unfold Rdiv. ring.
      * destruct ((S i =? j)%nat || (i =? S j)%nat); cbn; unfold Rdiv;
          [ring | reflexivity].
    + unfold solve_time_independent_1d.
      rewrite spacing_1d_R by exact Hx. rewrite bind_ok.
      rewrite hamiltonian_1d_R by (try assumption; lia).
      rewrite bind_ok. unfold eigh. rewrite all_finite_R.
      destruct (lapack _) as [[E U]|e]; reflexivity.
Qed.

Lemma solver_1d_degenerate_parameters_witness :
  solve_time_dependent_1d splu_small cn_grid_1d cn_psi0_1d cn_potential_1d
    [0%R] 1%R 1%R "crank-nicolson" = Err IndexError
  /\ solve_time_independent_1d lapack_two_point two_point_grid
       two_point_potential 0%R 1%R 1%Z = Err ZeroDivisionError.
Proof.
  pose proof (solver_1d_degenerate_parameters lapack_two_point splu_small
                cn_grid_1d cn_psi0_1d cn_potential_1d [0%R] 1%R 1%R 1%Z
                ltac:(simpl; lia) eq_refl eq_refl) as (H1 & _ & _ & _).
  pose proof (solver_1d_degenerate_parameters lapack_two_point splu_small
                two_point_grid cn_psi0_1d two_point_potential [0%R] 1%R 1%R 1%Z
                ltac:(simpl; lia) eq_refl eq_refl) as (_ & _ & _ & H4 & _).
  split; [apply H1; simpl; lia | exact H4].
Defined.
(** ** The stationary solver returns normalised eigenvectors *)

Lemma quad_norm_1d_normalized_R (v x : list R) :
  (0 < trapz (map abs2 v) x)%R ->
  quad_norm_1d (map (fun a => divr a (quad_norm_1d v x)) v) x = 1%R.
Proof.
  intros Hpos. unfold quad_norm_1d at 1. rewrite map_map.
  rewrite (map_ext _ (fun a => (abs2 a * (/ quad_norm_1d v x * / quad_norm_1d v x))%R))
    by (intros a; simpl; unfold Rdiv; ring).
  rewrite <- (map_map abs2 (fun a => (a * _)%R)), trapz_scale.
  unfold quad_norm_1d, ssqrt, R_sqrt.
  rewrite <- Rinv_mult, sqrt_sqrt by lra.
  rewrite Rinv_r by lra. apply sqrt_1.
Qed.

Lemma quad_norm2_pos_R (v x : list R) :
  length v = length x -> (2 <= length x)%nat -> Sorted Rlt x ->
  Exists (fun a => a <> 0%R) v -> (0 < trapz (map abs2 v) x)%R.
Proof.
  intros Hl Hx Hs Hnz. apply trapz_pos; try assumption.
  - rewrite length_map. exact Hl.
  - apply List.Forall_forall. intros a Ha.
    apply in_map_iff in Ha as (b & <- & _). simpl. nra.
  - apply List.Exists_exists in Hnz as (b & Hb & Hne).
    apply List.Exists_exists. exists (abs2 b).
    split; [apply in_map, Hb | simpl; nra].
Qed.

Lemma column_insert_eq {A} (d : A) (f : A -> A) (wf : list (list A)) (n : nat) :
  Forall (fun r => (n < length r)%nat) wf ->
  column d (map (fun r => <[n := f (nth n r d)]> r) wf) n = map f (column d wf n).
Proof.
  intros Hwf. unfold column. rewrite !map_map.
  apply map_ext_in. intros r Hr.
  apply nth_insert_eq. exact (proj1 (List.Forall_forall _ _) Hwf r Hr).
Qed.

Lemma column_insert_ne {A} (d : A) (g : list A -> A) (wf : list (list A)) (n m : nat) :
  n <> m ->
  column d (map (fun r => <[n := g r]> r) wf) m = column d wf m.
Proof.
  intros Hnm. unfold column. rewrite map_map.
  apply map_ext. intros r. apply nth_insert_ne. exact Hnm.
Qed.

Lemma column_take {A} (d : A) (U : list (list A)) (K n : nat) :
  (n < K)%nat -> column d (map (take K) U) n = column d U n.
Proof.
  intros Hn. unfold column. rewrite map_map. apply map_ext. intros r.
  rewrite <- (firstn_skipn K r) at 2.
  destruct (Nat.lt_ge_cases n (length (take K r))) as [Hlt|Hge].
  - rewrite app_nth1 by exact Hlt. reflexivity.
  - rewrite (nth_overflow (take K r)) by exact Hge.
    rewrite length_take in Hge.
    rewrite nth_overflow; [reflexivity|].
    rewrite length_app, length_take, length_drop. lia.
Qed.

Lemma normalize_loop (x : list R) (N K : nat) (wf0 : list (list R)) :
  (1 <= N)%nat -> length wf0 = N -> Forall (fun r => length r = K) wf0 ->
  exists wf,
    for_each (normalize_column x) wf0 (seq 0 K) = Ok wf
    /\ length wf = N /\ Forall (fun r => length r = K) wf
    /\ forall n, (n < K)%nat ->
         column 0%R wf n
         = map (fun a => divr a (quad_norm_1d (column 0%R wf0 n) x))
               (column 0%R wf0 n).
Proof.
  intros HN Hl Hr.
  destruct (for_each_invariant (normalize_column x)
              (fun n wf =>
                 length wf = N /\ Forall (fun r => length r = K) wf
                 /\ (forall m, (m < n)%nat ->
                       column 0%R wf m
                       = map (fun a => divr a (quad_norm_1d (column 0%R wf0 m) x))
                             (column 0%R wf0 m))
                 /\ (forall m, (n <= m)%nat -> column 0%R wf m = column 0%R wf0 m))
              K 0 wf0) as (wf & Hfe & HP).
  - split; [exact Hl|]. split; [exact Hr|]. split; [intros m Hm; lia|].
    intros m _. reflexivity.
  - intros n wf [_ Hn] (Hwl & Hwr & Hdone & Htodo). cbn [Nat.add] in Hn.
    unfold normalize_column.
    assert (Hcols : snd (shape2 wf) = K).
    { unfold shape2. destruct wf as [|r wf]; [simpl in Hwl; lia|].
      simpl. exact (Forall_inv Hwr). }
    rewrite Hcols. destruct (Nat.ltb_spec n K) as [_|?]; [|lia].
    eexists. split; [reflexivity|].
    split; [rewrite length_map; exact Hwl|]. split.
    { apply List.Forall_forall. intros r Hin.
      apply in_map_iff in Hin as (r0 & <- & Hr0).
      rewrite length_insert.
      exact (proj1 (List.Forall_forall _ _) Hwr r0 Hr0). }
    split.
    + intros m Hm. destruct (Nat.eq_dec m n) as [->|Hne].
      * change (@s0 R R_scalar) with 0%R.
        rewrite (column_insert_eq 0%R (fun a => divr a (quad_norm_1d (column 0%R wf n) x)))
          by (eapply Forall_impl; [exact Hwr | intros r Hrl; simpl in Hrl; lia]).
        rewrite (Htodo n) by lia. reflexivity.
      * rewrite column_insert_ne by lia. apply Hdone. lia.
    + intros m Hm. rewrite column_insert_ne by lia. apply Htodo. lia.
  - exists wf. destruct HP as (HPl & HPr & HPd & _).
    split; [exact Hfe|]. split; [exact HPl|]. split; [exact HPr|].
    intros n Hn. apply HPd. lia.
Qed.

(** X23. [solve_time_independent_1d] returns eigenvectors of unit
    grid norm: on an increasing grid, with LAPACK returning [N]
    eigenvalues and an [N x N] matrix [U] whose first [K] columns are not
    zero, column [n < K] of the result is column [n] of [U] divided by its
    own trapezoidal norm [sqrt(trapz(abs(U[:, n])**2, x))], so the
    normalisation keeps the direction and the sign LAPACK chose, and its
    trapezoidal norm is one. *)
Theorem stationary_1d_unit_norm
  (lapack : list (list R) -> result (list R * list (list R)))
  (x V : list R) (mass hbar : R) (K : Z) (E : list R) (U : list (list R)) :
  valid_grid_1d x -> length V = length x -> mass <> 0%R ->
  (forall Hm,
      hamiltonian_1d (length x) (nth 1 x 0 - nth 0 x 0)%R V mass hbar = Ok Hm ->
      lapack (toarray Hm) = Ok (E, U)) ->
  length U = length x -> Forall (fun r => length r = length x) U ->
  (0 <= K <= Z.of_nat (length x))%Z ->
  (forall n, (n < Z.to_nat K)%nat -> Exists (fun a => a <> 0%R) (column 0%R U n)) ->
  exists U' : list (list R),
    solve_time_independent_1d lapack x V mass hbar K
    = Ok (take (Z.to_nat K) E, U')
    /\ forall n, (n < Z.to_nat K)%nat ->
         column 0%R U' n
         = map (fun a => (a / quad_norm_1d (column 0%R U n) x)%R) (column 0%R U n)
         /\ quad_norm_1d (column 0%R U' n) x = 1%R.
Proof.
  intros [Hx Hsorted] HV Hm Hlap HU HUr HK Hnz.
  unfold solve_time_independent_1d.
  rewrite spacing_1d_R by exact Hx. rewrite bind_ok.
  rewrite hamiltonian_1d_R by (try assumption; lia).
  rewrite bind_ok. unfold eigh. rewrite all_finite_R.
  assert (HN : (1 <= length x)%nat) by lia.
  rewrite (Hlap _ (hamiltonian_1d_R (length x) (nth 1 x 0 - nth 0 x 0)%R
                     V mass hbar HN HV Hm)).
  rewrite bind_ok. cbv beta iota.
  rewrite py_take_in_range by lia.
  rewrite (map_ext (py_take K) (take (Z.to_nat K)))
    by (intros r; apply py_take_in_range; lia).
  destruct (normalize_loop x (length x) (Z.to_nat K) (map (take (Z.to_nat K)) U))
    as (wf & Hfe & _ & _ & Hcol).
  - lia.
  - rewrite length_map. exact HU.
  - apply List.Forall_forall. intros r Hr.
    apply in_map_iff in Hr as (r0 & <- & Hr0).
    rewrite length_take, (proj1 (List.Forall_forall _ _) HUr r0 Hr0). lia.
  - unfold py_range. rewrite Hfe, bind_ok. exists wf. split; [reflexivity|].
    intros n Hn. rewrite (Hcol n Hn), column_take by exact Hn.
    split; [reflexivity|].
    apply quad_norm_1d_normalized_R, quad_norm2_pos_R; try assumption.
    + unfold column. rewrite length_map. exact HU.
    + apply Hnz, Hn.
Qed.

Lemma stationary_1d_unit_norm_witness :
  exists U' : list (list R),
    solve_time_independent_1d lapack_two_point two_point_grid
      two_point_potential 1%R 1%R 2%Z = Ok ([1 / 2; 3 / 2]%R, U')
    /\ quad_norm_1d (column 0%R U' 0) two_point_grid = 1%R
    /\ quad_norm_1d (column 0%R U' 1) two_point_grid = 1%R.
Proof.
  assert (Hs2 : (/ sqrt 2 <> 0)%R).
  { apply Rinv_neq_0_compat. apply Rgt_not_eq, Rlt_gt, sqrt_lt_R0. lra. }
  destruct (stationary_1d_unit_norm lapack_two_point two_point_grid
              two_point_potential 1%R 1%R 2%Z [1 / 2; 3 / 2]%R
              [[/ sqrt 2; / sqrt 2]; [/ sqrt 2; - / sqrt 2]]%R)
    as (U' & HU' & Hcols).
  - split; [simpl; lia|]. unfold two_point_grid.
    repeat constructor. lra.
  - reflexivity.
  - lra.
  - intros Hm _. reflexivity.
  - reflexivity.
  - repeat constructor.
  - simpl. lia.
  - intros n Hn. apply Exists_cons_hd.
    destruct n as [|[|n]]; [exact Hs2 | exact Hs2 | simpl in Hn; lia].
  - exists U'. split; [exact HU'|].
    split; [apply (Hcols 0%nat) | apply (Hcols 1%nat)]; simpl; lia.
Defined.

(** *** two dimensions *)

Lemma quad_norm2_2d_pos_R (Nx Ny : nat) (v xs ys : list R) :
  length v = (Nx * Ny)%nat -> Exists (fun a => a <> 0%R) v ->
  (2 <= Nx)%nat -> (2 <= Ny)%nat ->
  length xs = Nx -> Sorted Rlt xs -> length ys = Ny -> Sorted Rlt ys ->
  (0 < trapz (trapz_rows (map (map abs2) (reshape Nx Ny v)) ys) xs)%R.
Proof.
  intros Hv Hnz HNx HNy Hxl Hxs Hyl Hys.
  pose proof (reshape_rows Nx Ny v Hv) as Hrows.
  apply trapz_pos.
  - rewrite trapz_rows_length, length_map, reshape_length. congruence.
  - lia.
  - exact Hxs.
  - unfold trapz_rows. rewrite map_map. apply List.Forall_forall.
    intros a Ha. apply in_map_iff in Ha. destruct Ha as (r & <- & _).
    apply trapz_nonneg; [exact Hys|].
    apply List.Forall_forall. intros b Hb.
    apply in_map_iff in Hb as (c & <- & _). simpl. nra.
  - rewrite <- (ravel_reshape Nx Ny v Hv) in Hnz.
    unfold ravel in Hnz. apply Exists_concat in Hnz.
    apply List.Exists_exists in Hnz. destruct Hnz as (r & Hr & Hrz).
    apply List.Exists_exists. exists (trapz (map abs2 r) ys). split.
    + unfold trapz_rows. rewrite map_map.
      apply (in_map (fun r => trapz (map abs2 r) ys)), Hr.
    + rewrite List.Forall_forall in Hrows.
      apply quad_norm2_pos_R; try assumption.
      * rewrite (Hrows r Hr). congruence.
      * lia.
Qed.

Lemma quad_norm_2d_normalized_R (wf : list (list R)) (X Y : list (list R)) :
  (0 < trapz (trapz_rows (map (map abs2) wf) (row Y 0)) (column 0%R X 0))%R ->
  quad_norm_2d (map (map (fun a => divr a (quad_norm_2d wf X Y))) wf) X Y = 1%R.
Proof.
  intros Hpos. unfold quad_norm_2d at 1.
  set (nrm := quad_norm_2d wf X Y).
  rewrite map_map.
  rewrite (map_ext _ (fun r => map (fun a => (a * (/ nrm * / nrm))%R) (map abs2 r))).
  2:{ intros r. rewrite !map_map. apply map_ext. intros a.
      simpl. unfold Rdiv. ring. }
  rewrite <- (map_map (map abs2) (map (fun a => (a * _)%R))).
  rewrite trapz_rows_scale, trapz_scale.
  subst nrm. unfold quad_norm_2d, ssqrt, R_sqrt.
  change (@s0 R R_scalar) with 0%R.
  rewrite <- Rinv_mult, sqrt_sqrt by lra.
  rewrite Rinv_r by lra. apply sqrt_1.
Qed.

Lemma reshape_loop (X Y U : list (list R)) (Nx Ny K : nat) :
  shape2 X = (Nx, Ny) -> length U = (Nx * Ny)%nat ->
  snd (shape2 U) = K ->
  exists W,
    for_each (reshape_column X Y U) (repeat (repeat (repeat 0%R Ny) Nx) K)
             (seq 0 K) = Ok W
    /\ length W = K
    /\ forall n, (n < K)%nat ->
         nth n W []
         = map (map (fun a => divr a (quad_norm_2d
                                        (reshape Nx Ny (column 0%R U n)) X Y)))
               (reshape Nx Ny (column 0%R U n)).
Proof.
  intros HX HU HK.
  destruct (for_each_invariant (reshape_column X Y U)
              (fun n acc =>
                 length acc = K
                 /\ forall m, (m < n)%nat ->
                      nth m acc []
                      = map (map (fun a => divr a (quad_norm_2d
                                     (reshape Nx Ny (column 0%R U m)) X Y)))
                            (reshape Nx Ny (column 0%R U m)))
              K 0 (repeat (repeat (repeat 0%R Ny) Nx) K)) as (W & Hfe & HP).
  - split; [apply repeat_length | intros m Hm; lia].
  - intros n acc [_ Hn] [Hl Hdone]. cbn [Nat.add] in Hn.
    unfold reshape_column. rewrite HX, HK.
    destruct (Nat.ltb_spec n K) as [_|?]; [|lia].
    rewrite HU, Nat.eqb_refl.
    eexists. split; [reflexivity|].
    split; [rewrite length_insert; exact Hl|].
    intros m Hm. destruct (Nat.eq_dec m n) as [->|Hne].
    + rewrite nth_insert_eq by lia. reflexivity.
    + rewrite nth_insert_ne by lia. apply Hdone. lia.
  - exists W. destruct HP as [HPl HPd]. split; [exact Hfe|].
    split; [exact HPl|]. intros n Hn. apply HPd. lia.
Qed.

(** X24. [solve_time_independent_2d] returns eigenfunctions of unit grid
    norm: on a valid grid, with ARPACK returning an [(Nx*Ny) x K] matrix
    [U] of non-zero columns, eigenfunction [n] of the result is column
    [n] of [U], reshaped to [(Nx, Ny)] and divided by its own nested
    trapezoidal norm, and its norm is one. *)
Theorem stationary_2d_unit_norm
  (eigsh : spmatrix R -> Z -> eigsh_which -> result (list R * list (list R)))
  (X Y V : list (list R)) (Nx Ny : nat) (mass hbar : R) (K : Z)
  (E : list R) (U : list (list R)) :
  valid_grid_2d X Y Nx Ny -> grid_shaped Nx Ny V -> mass <> 0%R ->
  (forall Hm,
      hamiltonian_2d Nx Ny
        (nth 0 (nth 1 X []) 0 - nth 0 (nth 0 X []) 0)%R
        (nth 1 (nth 0 Y []) 0 - nth 0 (nth 0 Y []) 0)%R V mass hbar = Ok Hm ->
      eigsh Hm K SM = Ok (E, U)) ->
  length U = (Nx * Ny)%nat -> Forall (fun r => length r = Z.to_nat K) U ->
  (forall n, (n < Z.to_nat K)%nat -> Exists (fun a => a <> 0%R) (column 0%R U n)) ->
  exists W : list (list (list R)),
    solve_time_independent_2d eigsh X Y V mass hbar K = Ok (E, W)
    /\ length W = Z.to_nat K
    /\ forall n, (n < Z.to_nat K)%nat ->
         nth n W []
         = map (map (fun a => (a / quad_norm_2d
                                     (reshape Nx Ny (column 0%R U n)) X Y)%R))
               (reshape Nx Ny (column 0%R U n))
         /\ quad_norm_2d (nth n W []) X Y = 1%R.
Proof.
  intros HXY HV Hm Heig HU HUr Hnz.
  destruct (spacing_2d_R X Y Nx Ny HXY) as [Hsp Hshape].
  pose proof HXY as (HNx & HNy & [HXl HXr] & [HYl HYr] & HsX & HsY).
  assert (HVl : length (ravel V) = (Nx * Ny)%nat).
  { destruct HV as [Hl Hrw]. rewrite (ravel_length V Ny Hrw), Hl. reflexivity. }
  assert (HNx1 : (1 <= Nx)%nat) by lia. assert (HNy1 : (1 <= Ny)%nat) by lia.
  pose proof (hamiltonian_2d_R Nx Ny
                (nth 0 (nth 1 X []) 0 - nth 0 (nth 0 X []) 0)%R
                (nth 1 (nth 0 Y []) 0 - nth 0 (nth 0 Y []) 0)%R
                V mass hbar HNx1 HNy1 HVl Hm) as HH.
  assert (HUs : snd (shape2 U) = Z.to_nat K).
  { unfold shape2. destruct U as [|r U']; [simpl in HU; nia|].
    simpl. exact (Forall_inv HUr). }
  destruct (reshape_loop X Y U Nx Ny (Z.to_nat K) Hshape HU HUs)
    as (W & Hfe & HWl & HW).
  exists W. split; [|split; [exact HWl|]].
  - unfold solve_time_independent_2d. rewrite Hshape, Hsp. step.
    rewrite HH. step. rewrite (Heig _ HH). step.
    unfold py_range. change (@s0 R R_scalar) with 0%R.
    rewrite Hfe. reflexivity.
  - intros n Hn. rewrite (HW n Hn). split; [reflexivity|].
    apply quad_norm_2d_normalized_R, quad_norm2_2d_pos_R; try assumption.
    + unfold column. rewrite length_map. exact HU.
    + apply Hnz, Hn.
    + unfold column. rewrite length_map. exact HXl.
    + unfold row. destruct Y as [|y0 Y']; [simpl in HYl; lia|]. simpl.
      exact (Forall_inv HYr).
Qed.

Lemma stationary_2d_unit_norm_witness :
  exists W : list (list (list R)),
    solve_time_independent_2d eigsh_square_SM square_X square_Y square_V
      1%R 1%R 1%Z = Ok ([(-1 / 4)%R], W)
    /\ quad_norm_2d (nth 0 W []) square_X square_Y = 1%R.
Proof.
  destruct (stationary_2d_unit_norm eigsh_square_SM square_X square_Y square_V
              2 2 1%R 1%R 1%Z [(-1 / 4)%R] [[1 / 2]; [-1 / 2]; [1 / 2]; [-1 / 2]]%R)
    as (W & HW & _ & Hn).
  - unfold valid_grid_2d, grid_shaped, square_X, square_Y, column, row.
    simpl. repeat split; try lia; repeat constructor; lra.
  - split; [reflexivity | repeat constructor].
  - lra.
  - intros Hm _. reflexivity.
  - reflexivity.
  - repeat constructor.
  - intros n Hn. apply Exists_cons_hd.
    destruct n as [|n]; [simpl; lra | simpl in Hn; lia].
  - exists W. split; [exact HW|]. apply (Hn 0%nat). simpl. lia.
Defined.
(** ** The time-dependent endpoints normalise the initial state *)

Lemma solve_time_dependent_1d_ok
  (splu : spmatrix C -> result (list C -> list C))
  (x : list R) (psi0 : list C) (V : list R) (times : list R) (mass hbar : R) :
  (2 <= length times)%nat -> mass <> 0%R -> hbar <> 0%R ->
  valid_grid_1d x -> length psi0 = length x -> nonzero psi0 ->
  length V = length x ->
  (forall Hm A B,
      hamiltonian_1d (length x) (nth 1 x 0 - nth 0 x 0)%R V mass hbar = Ok Hm ->
      cn_matrices (length x) Hm (nth 1 times 0 - nth 0 times 0)%R hbar = Ok (A, B) ->
      splu_exact splu A) ->
  exists psi_t,
    solve_time_dependent_1d splu x psi0 V times mass hbar "crank-nicolson"
    = Ok psi_t
    /\ length psi_t = length times
    /\ nth 0 psi_t [] = psi0
    /\ forall n, (1 <= n < length times)%nat ->
                 quad_norm_1d (nth n psi_t []) x = 1%R.
Proof.
  intros Ht Hmass Hh Hx Hp0 Hnz HV Hlu1.
  pose proof Hx as [Hx2 _].
  set (dx := (nth 1 x 0 - nth 0 x 0)%R) in *.
  set (dt := (nth 1 times 0 - nth 0 times 0)%R) in *.
  assert (HN1 : (1 <= length x)%nat) by lia.
  pose proof (hamiltonian_1d_R (length x) dx V mass hbar HN1 HV Hmass) as HH.
  destruct (hamiltonian_1d_symmetric (length x) dx V mass hbar _ HN1 HV Hmass HH)
    as (Hr & Hc & Hsym).
  destruct (cn_matrices_R (length x) _ dt hbar Hr Hc Hh)
    as (A & B & Hcn & HAr & _).
  destruct (Hlu1 _ A B HH Hcn) as (lu_solve & Hsplu & Hexact).
  destruct (cn_loop_1d (length x) (length times) _ dt hbar A B lu_solve x psi0
              Hr Hc Hsym Hh Hcn Hexact Hx eq_refl Hp0 Hnz ltac:(lia))
    as (psi_t & Hfe & Hres).
  exists psi_t. split; [|exact Hres].
  unfold solve_time_dependent_1d. rewrite String.eqb_refl. cbn [negb].
  complex_carrier.
  rewrite spacing_1d_R by exact Hx2. step.
  rewrite (getitem_nth times 1 0%R), (getitem_nth times 0 0%R) by lia.
  do 2 step. unfold assign_first. rewrite (np_broadcast_to_same _ _ Hp0). do 2 step.
  fold dx. rewrite HH. step. fold dt. rewrite Hcn. step.
  rewrite Hsplu. step. exact Hfe.
Qed.

Lemma nonzero_RtoC (v : list R) :
  Exists (fun a => a <> 0%R) v -> nonzero (map RtoC v).
Proof.
  intros Hv. apply List.Exists_exists in Hv as (a & Ha & Hne).
  apply List.Exists_exists. exists (RtoC a).
  split; [apply in_map, Ha|]. intros E. apply Hne.
  apply (f_equal Re) in E. exact E.
Qed.

(** X25. The initial state the endpoint [solve_1d_timedependent] hands to
    the solver has unit trapezoidal norm, so in its answer every snapshot
    has, the first one included: for an increasing grid, an evaluated
    initial state of the grid's length with a non-zero sample, at least
    two time points, non-zero mass and [hbar] and an exact factorisation,
    the solve succeeds with one snapshot per time point, all of norm
    one. *)
Theorem endpoint_1d_snapshots_unit_norm
  (splu : spmatrix C -> result (list C -> list C))
  (x psi0 V times : list R) (mass hbar : R) :
  (2 <= length times)%nat -> mass <> 0%R -> hbar <> 0%R ->
  valid_grid_1d x -> length psi0 = length x ->
  Exists (fun a => a <> 0%R) psi0 -> length V = length x ->
  (forall Hm A B,
      hamiltonian_1d (length x) (nth 1 x 0 - nth 0 x 0)%R V mass hbar = Ok Hm ->
      cn_matrices (length x) Hm (nth 1 times 0 - nth 0 times 0)%R hbar = Ok (A, B) ->
      splu_exact splu A) ->
  quad_norm_1d (normalize_psi0_1d x psi0) x = 1%R
  /\ exists psi_t,
       solve_time_dependent_1d splu x (normalize_psi0_1d x psi0) V times
         mass hbar "crank-nicolson" = Ok psi_t
       /\ length psi_t = length times
       /\ forall n, (n < length times)%nat ->
                    quad_norm_1d (nth n psi_t []) x = 1%R.
Proof.
  intros Ht Hmass Hh Hx Hp0 Hnz HV Hlu.
  pose proof Hx as [Hx2 Hsorted].
  pose proof (nonzero_RtoC psi0 Hnz) as HnzC.
  assert (Hpos : (0 < trapz (map abs2 (map RtoC psi0)) x)%R).
  { apply quad_norm2_pos; try assumption. rewrite length_map. exact Hp0. }
  assert (Hunit : quad_norm_1d (normalize_psi0_1d x psi0) x = 1%R)
    by (apply quad_norm_1d_normalized, Hpos).
  split; [exact Hunit|].
  destruct (solve_time_dependent_1d_ok splu x (normalize_psi0_1d x psi0) V times
              mass hbar Ht Hmass Hh Hx) as (psi_t & Hs & Hl & H0 & Hn); try assumption.
  - unfold normalize_psi0_1d. rewrite !length_map. exact Hp0.
  - unfold normalize_psi0_1d. apply map_divr_nonzero; [|exact HnzC].
    apply quad_norm_sqrt_nonzero, Hpos.
  - exists psi_t. split; [exact Hs|]. split; [exact Hl|].
    intros n Hlt. destruct n as [|n]; [rewrite H0; exact Hunit|].
    apply Hn. lia.
Qed.

Lemma endpoint_1d_snapshots_unit_norm_witness :
  exists psi_t,
    solve_time_dependent_1d splu_small cn_grid_1d
      (normalize_psi0_1d cn_grid_1d [2; 0]%R) cn_potential_1d cn_times
      1%R 1%R "crank-nicolson" = Ok psi_t
    /\ quad_norm_1d (nth 0 psi_t []) cn_grid_1d = 1%R
    /\ quad_norm_1d (nth 1 psi_t []) cn_grid_1d = 1%R.
Proof.
  destruct (endpoint_1d_snapshots_unit_norm splu_small cn_grid_1d [2; 0]%R
              cn_potential_1d cn_times 1%R 1%R) as (_ & psi_t & Hs & _ & Hn).
  - simpl. lia.
  - lra.
  - lra.
  - split; [simpl; lia|]. unfold cn_grid_1d. repeat constructor. lra.
  - reflexivity.
  - apply Exists_cons_hd. lra.
  - reflexivity.
  - intros Hm A B HH Hcn. exact (splu_small_exact_1d Hm A B HH Hcn).
  - exists psi_t. split; [exact Hs|].
    split; apply Hn; simpl; lia.
Defined.

Lemma solve_time_dependent_2d_ok
  (splu : spmatrix C -> result (list C -> list C))
  (X Y : list (list R)) (Nx Ny : nat)
  (psi0 : list (list C)) (V : list (list R)) (times : list R) (mass hbar : R) :
  (2 <= length times)%nat -> mass <> 0%R -> hbar <> 0%R ->
  valid_grid_2d X Y Nx Ny -> grid_shaped Nx Ny psi0 ->
  nonzero (ravel psi0) -> grid_shaped Nx Ny V ->
  (forall Hm A B,
      hamiltonian_2d Nx Ny
        (nth 0 (nth 1 X []) 0 - nth 0 (nth 0 X []) 0)%R
        (nth 1 (nth 0 Y []) 0 - nth 0 (nth 0 Y []) 0)%R V mass hbar = Ok Hm ->
      cn_matrices (Nx * Ny) Hm (nth 1 times 0 - nth 0 times 0)%R hbar = Ok (A, B) ->
      splu_exact splu A) ->
  exists psi_t,
    solve_time_dependent_2d splu X Y psi0 V times mass hbar "crank-nicolson"
    = Ok psi_t
    /\ length psi_t = length times
    /\ nth 0 psi_t [] = psi0
    /\ forall n, (1 <= n < length times)%nat ->
                 quad_norm_2d (nth n psi_t []) X Y = 1%R.
Proof.
  intros Ht Hmass Hh HXY Hp2 Hnz2 HV2 Hlu2.
  destruct (spacing_2d_R X Y Nx Ny HXY) as [Hsp Hshape].
  pose proof HXY as (HNx & HNy & _).
  set (dx := (nth 0 (nth 1 X []) 0 - nth 0 (nth 0 X []) 0)%R) in *.
  set (dy := (nth 1 (nth 0 Y []) 0 - nth 0 (nth 0 Y []) 0)%R) in *.
  set (dt := (nth 1 times 0 - nth 0 times 0)%R) in *.
  assert (HNx1 : (1 <= Nx)%nat) by lia. assert (HNy1 : (1 <= Ny)%nat) by lia.
  assert (HVl : length (ravel V) = (Nx * Ny)%nat).
  { destruct HV2 as [Hl Hrw]. rewrite (ravel_length V Ny Hrw), Hl. reflexivity. }
  pose proof (hamiltonian_2d_R Nx Ny dx dy V mass hbar HNx1 HNy1 HVl Hmass) as HH.
  destruct (hamiltonian_2d_symmetric Nx Ny dx dy V mass hbar _ HNx1 HNy1 HVl Hmass HH)
    as (Hr & Hc & Hsym).
  destruct (cn_matrices_R (Nx * Ny) _ dt hbar Hr Hc Hh)
    as (A & B & Hcn & HAr & _).
  destruct (Hlu2 _ A B HH Hcn) as (lu_solve & Hsplu & Hexact).
  destruct (cn_loop_2d Nx Ny (length times) _ dt hbar A B lu_solve X Y psi0
              Hr Hc Hsym Hh Hcn Hexact HXY Hp2 Hnz2 ltac:(lia))
    as (st & Hfe & Hres).
  exists (fst st). split; [|exact Hres].
  unfold solve_time_dependent_2d. rewrite String.eqb_refl. cbn [negb].
  complex_carrier.
  rewrite Hshape, Hsp. step.
  rewrite (getitem_nth times 1 0%R), (getitem_nth times 0 0%R) by lia.
  do 2 step. rewrite assign_first_2d_ok by exact Hp2. step.
  rewrite HH. step. fold dt. rewrite Hcn. step.
  rewrite Hsplu. step. rewrite Hfe. reflexivity.
Qed.

Lemma grid_shaped_map {A B} (f : A -> B) (Nx Ny : nat) (a : list (list A)) :
  grid_shaped Nx Ny a -> grid_shaped Nx Ny (map (map f) a).
Proof.
  intros [Hl Hr]. split; [rewrite length_map; exact Hl|].
  apply List.Forall_forall. intros r Hin.
  apply in_map_iff in Hin as (r0 & <- & Hr0). rewrite length_map.
  exact (proj1 (List.Forall_forall _ _) Hr r0 Hr0).
Qed.

Lemma normalize_psi0_2d_reshape (X Y psi0 : list (list R)) (Nx Ny : nat) :
  grid_shaped Nx Ny psi0 ->
  normalize_psi0_2d X Y psi0
  = reshape Nx Ny
      (map (fun a => divr a (quad_norm_2d
                               (reshape Nx Ny (ravel (map (map RtoC) psi0))) X Y))
           (ravel (map (map RtoC) psi0))).
Proof.
  intros Hp. destruct (grid_shaped_map RtoC Nx Ny psi0 Hp) as [Hl Hr].
  assert (E : reshape Nx Ny (ravel (map (map RtoC) psi0)) = map (map RtoC) psi0).
  { rewrite <- Hl. apply reshape_ravel. exact Hr. }
  rewrite reshape_map, E. reflexivity.
Qed.

Lemma nonzero_ravel_RtoC (psi0 : list (list R)) :
  Exists (Exists (fun a => a <> 0%R)) psi0 ->
  nonzero (ravel (map (map RtoC) psi0)).
Proof.
  intros Hnz. unfold ravel. rewrite <- concat_map.
  apply nonzero_RtoC.
  apply List.Exists_exists in Hnz as (r & Hr & Hex).
  apply List.Exists_exists in Hex as (a & Ha & Hne).
  apply List.Exists_exists. exists a. split; [|exact Hne].
  apply in_concat. exists r. split; assumption.
Qed.

(** X26. The same for [solve_2d_timedependent]: the initial state
    divided by its nested trapezoidal norm has norm one, and the
    two-dimensional solve started from it returns one snapshot per time
    point, every one of norm one. *)
Theorem endpoint_2d_snapshots_unit_norm
  (splu : spmatrix C -> result (list C -> list C))
  (X Y : list (list R)) (Nx Ny : nat) (psi0 V : list (list R))
  (times : list R) (mass hbar : R) :
  (2 <= length times)%nat -> mass <> 0%R -> hbar <> 0%R ->
  valid_grid_2d X Y Nx Ny -> grid_shaped Nx Ny psi0 ->
  Exists (Exists (fun a => a <> 0%R)) psi0 -> grid_shaped Nx Ny V ->
  (forall Hm A B,
      hamiltonian_2d Nx Ny
        (nth 0 (nth 1 X []) 0 - nth 0 (nth 0 X []) 0)%R
        (nth 1 (nth 0 Y []) 0 - nth 0 (nth 0 Y []) 0)%R V mass hbar = Ok Hm ->
      cn_matrices (Nx * Ny) Hm (nth 1 times 0 - nth 0 times 0)%R hbar = Ok (A, B) ->
      splu_exact splu A) ->
  quad_norm_2d (normalize_psi0_2d X Y psi0) X Y = 1%R
  /\ exists psi_t,
       solve_time_dependent_2d splu X Y (normalize_psi0_2d X Y psi0) V times
         mass hbar "crank-nicolson" = Ok psi_t
       /\ length psi_t = length times
       /\ forall n, (n < length times)%nat ->
                    quad_norm_2d (nth n psi_t []) X Y = 1%R.
Proof.
  intros Ht Hmass Hh HXY Hp Hnz HV Hlu.
  pose proof HXY as (HNx & HNy & [HXl HXr] & [HYl HYr] & HsX & HsY).
  pose proof (grid_shaped_map RtoC Nx Ny psi0 Hp) as HpC.
  pose proof (nonzero_ravel_RtoC psi0 Hnz) as HnzC.
  set (v := ravel (map (map RtoC) psi0)) in *.
  assert (Hv : length v = (Nx * Ny)%nat).
  { subst v. destruct HpC as [Hl Hr]. rewrite (ravel_length _ Ny Hr), Hl.
    reflexivity. }
  assert (Hpos : (0 < trapz (trapz_rows (map (map abs2) (reshape Nx Ny v)) (row Y 0))
                            (column 0%R X 0))%R).
  { apply quad_norm2_2d_pos; try assumption.
    - unfold column. rewrite length_map. exact HXl.
    - unfold row. destruct Y as [|y0 Y']; [simpl in HYl; lia|]. simpl.
      exact (Forall_inv HYr). }
  assert (Hunit : quad_norm_2d (normalize_psi0_2d X Y psi0) X Y = 1%R).
  { rewrite (normalize_psi0_2d_reshape X Y psi0 Nx Ny Hp). fold v.
    apply quad_norm_2d_normalized, Hpos. }
  split; [exact Hunit|].
  destruct (solve_time_dependent_2d_ok splu X Y Nx Ny (normalize_psi0_2d X Y psi0)
              V times mass hbar Ht Hmass Hh HXY)
    as (psi_t & Hs & Hl & H0 & Hn); try assumption.
  - unfold normalize_psi0_2d. apply grid_shaped_map, HpC.
  - unfold normalize_psi0_2d, ravel. rewrite <- concat_map.
    apply map_divr_nonzero; [|exact HnzC].
    unfold quad_norm_2d.
    assert (E : map (map RtoC) psi0 = reshape Nx Ny v).
    { subst v. destruct HpC as [Hl Hr]. rewrite <- Hl.
      symmetry. apply reshape_ravel. exact Hr. }
    rewrite E. apply quad_norm_sqrt_nonzero, Hpos.
  - exists psi_t. split; [exact Hs|]. split; [exact Hl|].
    intros n Hlt. destruct n as [|n]; [rewrite H0; exact Hunit|].
    apply Hn. lia.
Qed.

Lemma endpoint_2d_snapshots_unit_norm_witness :
  exists psi_t,
    solve_time_dependent_2d splu_small square_X square_Y
      (normalize_psi0_2d square_X square_Y [[2; 0]; [0; 0]]%R)
      cn_potential_2d cn_times 1%R 1%R "crank-nicolson" = Ok psi_t
    /\ quad_norm_2d (nth 0 psi_t []) square_X square_Y = 1%R
    /\ quad_norm_2d (nth 1 psi_t []) square_X square_Y = 1%R.
Proof.
  destruct (endpoint_2d_snapshots_unit_norm splu_small square_X square_Y 2 2
              [[2; 0]; [0; 0]]%R cn_potential_2d cn_times 1%R 1%R)
    as (_ & psi_t & Hs & _ & Hn).
  - simpl. lia.
  - lra.
  - lra.
  - unfold valid_grid_2d, grid_shaped, square_X, square_Y, column, row.
    simpl. repeat split; try lia; repeat constructor; lra.
  - split; [reflexivity | repeat constructor].
  - apply Exists_cons_hd, Exists_cons_hd. lra.
  - split; [reflexivity | repeat constructor].
  - intros Hm A B HH Hcn. exact (splu_small_exact_2d Hm A B HH Hcn).
  - exists psi_t. split; [exact Hs|].
    split; apply Hn; simpl; lia.
Defined.
(** ** The observable endpoint *)

Lemma truthy_Some {A} (o : option (list A)) :
  truthy o = true -> exists a l, o = Some (a :: l).
Proof.
  destruct o as [[|a l]|]; try discriminate. intros _. exists a, l. reflexivity.
Qed.

Lemma np_array2_inv {A} (rows a : list (list A)) :
  np_array2 rows = Ok a -> a = rows.
Proof.
  unfold np_array2. destruct (forallb _ rows); [|discriminate].
  intros E. apply Ok_inj in E. symmetry. exact E.
Qed.

Lemma getitem_ok_length {A} (l : list A) (i : nat) (a : A) :
  getitem l i = Ok a -> (i < length l)%nat.
Proof.
  unfold getitem. destruct (l !! i) eqn:E; [|discriminate].
  intros _. apply lookup_lt_is_Some. rewrite E. eexists. reflexivity.
Qed.

Lemma expectation_1d_ok_grid (ne : string -> gmap string (pyvalue R R) -> result (ndarray R))
  (x psi : list R) (expr : string) d (v : R) :
  expectation_custom_expr_1d ne x psi expr d = Ok v -> (2 <= length x)%nat.
Proof.
  intros E. destruct (Nat.lt_ge_cases (length x) 2) as [Hlt|Hge]; [|exact Hge].
  unfold expectation_custom_expr_1d in E.
  rewrite spacing_1d_short in E by exact Hlt. discriminate.
Qed.

Lemma expectation_2d_ok_grid (ne : string -> gmap string (pyvalue R R) -> result (ndarray R))
  (X Y psi : list (list R)) (expr : string) d (v : R) :
  expectation_custom_expr_2d ne X Y psi expr d = Ok v ->
  (2 <= length X)%nat /\ (2 <= length (nth 0 Y []))%nat.
Proof.
  intros E. unfold expectation_custom_expr_2d, spacing_2d in E.
  destruct (getitem2 X 1 0) as [x10|] eqn:E1; [|discriminate].
  rewrite bind_ok in E.
  destruct (getitem2 X 0 0) as [x00|] eqn:E2; [|discriminate].
  rewrite bind_ok in E.
  destruct (getitem2 Y 0 1) as [y01|] eqn:E3; [|discriminate].
  split.
  - unfold getitem2 in E1. destruct (getitem X 1) as [r|] eqn:Er; [|discriminate].
    apply getitem_ok_length in Er. lia.
  - unfold getitem2 in E3. destruct (getitem Y 0) as [r|] eqn:Er; [|discriminate].
    rewrite bind_ok in E3. apply getitem_ok_length in E3.
    unfold getitem in Er. destruct Y as [|y0 Y']; [discriminate|].
    simpl in Er. apply Ok_inj in Er. subst r. simpl. lia.
Qed.

(** X27. [/observable/eval] answers 200 on complete input only.  A 200
    carries the value of [expectation_custom_expr_1d] on a non-empty
    [psi] and a grid [x] of at least two points, or, when [x] or [psi] is
    missing or empty, the value of [expectation_custom_expr_2d] on
    non-empty [X], [Y] and [psi2d] with at least two rows in [X] and two
    columns in [Y].  One-dimensional input comes first: with a one-point
    [x] and a non-empty [psi] the answer is the 400 of an [IndexError]
    whatever [X], [Y] and [psi2d] hold; with no complete input at all it
    is the 400 of the [ValueError] the function raises itself. *)
Theorem eval_observable_complete_input
  (ne_evaluate : string -> gmap string (pyvalue R R) -> result (ndarray R))
  (req : ObservableRequest) :
  (forall v, eval_observable ne_evaluate req = Http200 v ->
     (exists x psi,
         req_x req = Some x /\ req_psi req = Some psi
         /\ (2 <= length x)%nat /\ (1 <= length psi)%nat
         /\ expectation_custom_expr_1d ne_evaluate x psi (req_expr req) None
            = Ok v)
     \/ (truthy (req_x req) && truthy (req_psi req) = false
         /\ exists X Y psi2d,
              req_X req = Some X /\ req_Y req = Some Y
              /\ req_psi2d req = Some psi2d
              /\ (2 <= length X)%nat /\ (2 <= length (nth 0 Y []))%nat
              /\ (1 <= length psi2d)%nat
              /\ expectation_custom_expr_2d ne_evaluate X Y psi2d
                   (req_expr req) None = Ok v))
  /\ (forall x0 p psi, req_x req = Some [x0] -> req_psi req = Some (p :: psi) ->
        eval_observable ne_evaluate req = Http400 IndexError)
  /\ (truthy (req_x req) && truthy (req_psi req) = false ->
      truthy (req_X req) && truthy (req_Y req) && truthy (req_psi2d req) = false ->
      eval_observable ne_evaluate req = Http400 ValueError).
Proof.
  split; [|split].
  - intros v Hv. unfold eval_observable in Hv.
    destruct (truthy (req_x req) && truthy (req_psi req)) eqn:H1.
    + left. apply andb_prop in H1 as [Hx Hp].
      apply truthy_Some in Hx as (x0 & x & Ex).
      apply truthy_Some in Hp as (p0 & psi & Ep).
      rewrite Ex, Ep in Hv. cbn [default from_option] in Hv.
      unfold Datatypes.id in Hv.
      destruct (expectation_custom_expr_1d ne_evaluate (x0 :: x) (p0 :: psi)
                  (req_expr req) None) as [w|e] eqn:Ew; [|discriminate].
      injection Hv as ->.
      exists (x0 :: x), (p0 :: psi). split; [exact Ex|]. split; [exact Ep|].
      split; [exact (expectation_1d_ok_grid _ _ _ _ _ _ Ew)|].
      split; [simpl; lia | exact Ew].
    + right. split; [reflexivity|].
      destruct (truthy (req_X req) && truthy (req_Y req) && truthy (req_psi2d req))
        eqn:H2; [|discriminate].
      apply andb_prop in H2 as [H2 HP]. apply andb_prop in H2 as [HX HY].
      apply truthy_Some in HX as (X0 & X & EX).
      apply truthy_Some in HY as (Y0 & Y & EY).
      apply truthy_Some in HP as (P0 & P & EP).
      rewrite EX, EY, EP in Hv. cbn [default from_option] in Hv.
      unfold Datatypes.id in Hv.
      destruct (np_array2 (X0 :: X)) as [Xa|] eqn:EXa; [|discriminate].
      rewrite bind_ok in Hv.
      destruct (np_array2 (Y0 :: Y)) as [Ya|] eqn:EYa; [|discriminate].
      rewrite bind_ok in Hv.
      destruct (np_array2 (P0 :: P)) as [Pa|] eqn:EPa; [|discriminate].
      rewrite bind_ok in Hv.
      apply np_array2_inv in EXa, EYa, EPa. subst Xa Ya Pa.
      destruct (expectation_custom_expr_2d ne_evaluate (X0 :: X) (Y0 :: Y) (P0 :: P)
                  (req_expr req) None) as [w|e] eqn:Ew; [|discriminate].
      injection Hv as ->.
      exists (X0 :: X), (Y0 :: Y), (P0 :: P).
      split; [exact EX|]. split; [exact EY|]. split; [exact EP|].
      destruct (expectation_2d_ok_grid _ _ _ _ _ _ _ Ew) as [HlX HlY].
      split; [exact HlX|]. split; [exact HlY|]. split; [simpl; lia | exact Ew].
  - intros x0 p psi Ex Ep. unfold eval_observable. rewrite Ex, Ep.
    cbn [truthy andb default from_option]. unfold Datatypes.id.
    unfold expectation_custom_expr_1d.
    rewrite spacing_1d_short by (simpl; lia). reflexivity.
  - intros H1 H2. unfold eval_observable. rewrite H1, H2. reflexivity.
Qed.
(** ** Archives: paths and overwriting *)

Lemma npz_path_no_suffix (file : string) :
  endswith file ".npz" = false -> npz_path file = (file ++ ".npz")%string.
Proof. intros H. unfold npz_path. rewrite H. reflexivity. Qed.

Lemma app_npz_neq (file : string) : (file ++ ".npz")%string <> file.
Proof.
  intros E. apply (f_equal String.length) in E.
  rewrite string_app_length in E. simpl in E. lia.
Qed.

(** X28. What [save_simulation] does to the file system.  It writes one
    archive, at the given name with [.npz] appended unless the name ends
    with it already, and touches no other path; so after saving under a
    name without the suffix, [load_simulation] with that same name finds
    nothing ([FileNotFoundError]) unless that file existed before.  Saving
    twice under one name leaves the second archive alone: the arrays of
    the first save are gone, not merged. *)
Theorem save_simulation_writes_one_archive
  (array : Type) (npy_write : array -> bytes) (deflate : bytes -> bytes)
  (fs : filesystem) (filename : string) (kwargs kwargs' : gmap string array) :
  kwargs !! "filename" = None -> kwargs !! "file" = None ->
  kwargs' !! "filename" = None -> kwargs' !! "file" = None ->
  exists fs1 fs2 : filesystem,
    save_simulation npy_write deflate fs filename kwargs = Ok fs1
    /\ save_simulation npy_write deflate fs1 filename kwargs' = Ok fs2
    /\ (forall other, other <> npz_path filename -> fs1 !! other = fs !! other)
    /\ (endswith filename ".npz" = false -> fs !! filename = None ->
        load_simulation fs1 filename = Err FileNotFoundError)
    /\ save_simulation npy_write deflate fs filename kwargs' = Ok fs2
    /\ load_simulation fs2 (npz_path filename)
       = Ok (npz_members npy_write deflate kwargs').
Proof.
  intros H1 H2 H1' H2'.
  exists (<[npz_path filename := npz_members npy_write deflate kwargs]> fs),
    (<[npz_path filename := npz_members npy_write deflate kwargs']> fs).
  split; [apply save_simulation_ok; assumption|].
  split; [rewrite save_simulation_ok by assumption; rewrite insert_insert_eq;
          reflexivity|].
  split; [intros other Hne; apply lookup_insert_ne; congruence|].
  split.
  { intros Hs Hnone. unfold load_simulation, np_load.
    rewrite lookup_insert_ne, Hnone; [reflexivity|].
    rewrite npz_path_no_suffix by exact Hs. apply app_npz_neq. }
  split; [apply save_simulation_ok; assumption|].
  unfold load_simulation, np_load. rewrite lookup_insert_eq. reflexivity.
Qed.

Lemma save_simulation_writes_one_archive_witness :
  exists fs1 : filesystem,
    save_simulation npy_write_raw deflate_stored ∅ "run"
      (<["x" := [Byte.x01]]> ∅) = Ok fs1
    /\ load_simulation fs1 "run" = Err FileNotFoundError.
Proof.
  destruct (save_simulation_writes_one_archive bytes npy_write_raw deflate_stored
              ∅ "run" (<["x" := [Byte.x01]]> ∅) (<["x" := [Byte.x01]]> ∅))
    as (fs1 & fs2 & Hs & _ & _ & Hl & _);
    [reflexivity | reflexivity | reflexivity | reflexivity |].
  exists fs1. split; [exact Hs|]. apply Hl; reflexivity.
Defined.
